(** * Helix refinement of a predicted C-alpha backbone

    A shallow embedding of [postprocessing/helix_refinement.py] and the
    properties of its curve, helix fitter, refinement controller and PDB
    reader/writer.

    Modelling conventions.
    - A Python [float] is a real number ([R]); [float('inf')] is an extra
      element added with [option].  NaN and rounding are outside the model.
    - A Python [int] is an integer ([Z]); positions the code only ever counts
      upwards from zero (loop counters over [range(len(..))]) are [nat].
    - A raised exception is the [Raise] branch of [result]; a loop whose
      termination is not structural takes a fuel argument and answers
      [OutOfFuel] when the fuel runs out before the loop has left.
    - [scipy.optimize.minimize] is a parameter of the fitter.
    - A [dict] with string keys is an association list in insertion order;
      the files [execute] reads and writes are such a map from name to
      text. *)

From Stdlib Require Import String Ascii Decimal DecimalString.
From Stdlib Require Import DecimalPos DecimalN DecimalZ.
From Stdlib Require Import Reals Lra Lia ZArith List Bool Arith.
Import ListNotations.

(** ** Points and exceptions *)

Record Point : Type := mkPoint { px : R; py : R; pz : R }.

Inductive exn : Type :=
| ZeroDivisionError
| IndexError
| ValueError
| TypeError
| CurvedScrewAxisError (node : Point).

Inductive result (A : Type) : Type :=
| Ok (a : A)
| Raise (e : exn)
| OutOfFuel.
Arguments Ok {A} a.
Arguments Raise {A} e.
Arguments OutOfFuel {A}.

Definition bind {A B : Type} (m : result A) (k : A -> result B) : result B :=
  match m with
  | Ok a => k a
  | Raise e => Raise e
  | OutOfFuel => OutOfFuel
  end.

Notation "x <- m ;; k" := (bind m (fun x => k))
  (at level 61, m at next level, right associativity).

(** The computation left its loops: it returned or raised. *)
Definition finishes {A : Type} (m : result A) : Prop := m <> OutOfFuel.

(** ** Python list indexing and slicing *)

(** [l[j]]: a negative index counts from the end, an index outside the list
    raises [IndexError]. *)
Definition py_index {A : Type} (l : list A) (j : Z) : result A :=
  let n := Z.of_nat (length l) in
  let j' := if (j <? 0)%Z then (j + n)%Z else j in
  if ((0 <=? j') && (j' <? n))%Z
  then match nth_error l (Z.to_nat j') with
       | Some x => Ok x
       | None => Raise IndexError
       end
  else Raise IndexError.

(** A slice bound: negative bounds count from the end, and every bound is
    clamped to [0 .. len]. *)
Definition slice_bound (len : nat) (a : Z) : nat :=
  let n := Z.of_nat len in
  if (a <? 0)%Z then Z.to_nat (Z.max (a + n) 0)
  else Z.to_nat (Z.min a n).

(** [l[a:b]] *)
Definition py_slice {A : Type} (l : list A) (a b : Z) : list A :=
  let a' := slice_bound (length l) a in
  let b' := slice_bound (length l) b in
  firstn (b' - a') (skipn a' l).

(** [l[a:b] = new] *)
Definition py_slice_assign {A : Type} (l : list A) (a b : Z) (new : list A)
  : list A :=
  let a' := slice_bound (length l) a in
  let b' := slice_bound (length l) b in
  firstn a' l ++ new ++ skipn (Nat.max a' b') l.

(** [l[:e]] for a count [e >= 0]. *)
Definition py_prefix {A : Type} (l : list A) (e : nat) : list A := firstn e l.

(** [l[-e:]] for a count [e >= 0]: Python reads [-0] as [0], so [l[-0:]] is
    the whole list. *)
Definition py_suffix_neg {A : Type} (l : list A) (e : nat) : list A :=
  skipn (slice_bound (length l) (- Z.of_nat e)) l.

(** [l[::step]] for a positive step: the elements at positions 0, step,
    2*step, ... *)
Fixpoint every_nth_from {A : Type} (skip step : nat) (l : list A) : list A :=
  match l with
  | [] => []
  | x :: l' =>
      match skip with
      | O => x :: every_nth_from (step - 1) step l'
      | S k => every_nth_from k step l'
      end
  end.

Definition py_step {A : Type} (l : list A) (step : nat) : result (list A) :=
  match step with
  | O => Raise ValueError
  | S _ => Ok (every_nth_from 0 step l)
  end.

(** [del l[i]] and [l.insert(i, x)] for a position [i >= 0]. *)
Definition py_del {A : Type} (l : list A) (i : nat) : result (list A) :=
  if (i <? length l)%nat then Ok (firstn i l ++ skipn (S i) l)
  else Raise IndexError.

Definition py_insert {A : Type} (l : list A) (i : nat) (x : A) : list A :=
  firstn i l ++ x :: skipn i l.

(** ** Geometry utilities *)

Local Open Scope R_scope.

Definition vadd (a b : Point) : Point :=
  mkPoint (px a + px b) (py a + py b) (pz a + pz b).

Definition vsub (a b : Point) : Point :=
  mkPoint (px a - px b) (py a - py b) (pz a - pz b).

Definition vscale (k : R) (a : Point) : Point :=
  mkPoint (k * px a) (k * py a) (k * pz a).

Definition vdiv (a : Point) (k : R) : Point :=
  mkPoint (px a / k) (py a / k) (pz a / k).

Definition dot (a b : Point) : R :=
  px a * px b + py a * py b + pz a * pz b.

Definition cross (a b : Point) : Point :=
  mkPoint (py a * pz b - pz a * py b)
          (pz a * px b - px a * pz b)
          (px a * py b - py a * px b).

(** [np.linalg.norm] *)
Definition norm (a : Point) : R :=
  sqrt (px a * px a + py a * py a + pz a * pz a).

Definition get_distance (point1 point2 : Point) : R :=
  norm (vsub point1 point2).

Definition get_vector (node1 node2 : Point) : Point :=
  mkPoint (px node2 - px node1) (py node2 - py node1) (pz node2 - pz node1).

Definition normalize (v : Point) : Point :=
  if Req_EM_T (norm v) 0 then v else vdiv v (norm v).

Definition get_centroid (nodes : list Point) : result Point :=
  let n := length nodes in
  let sum_x := fold_left (fun s node => s + px node) nodes 0 in
  let sum_y := fold_left (fun s node => s + py node) nodes 0 in
  let sum_z := fold_left (fun s node => s + pz node) nodes 0 in
  match n with
  | O => Raise ZeroDivisionError
  | S _ => Ok (mkPoint (sum_x / INR n) (sum_y / INR n) (sum_z / INR n))
  end.

(** [project_vector]; for a zero [vector2] numpy answers NaN, which is
    outside the model. *)
Definition project_vector (vector1 vector2 : Point) : Point :=
  vscale (dot vector1 vector2 / norm vector2) (vdiv vector2 (norm vector2)).

(** [np.clip] *)
Definition clip (x lo hi : R) : R := Rmin (Rmax x lo) hi.

Definition angle_between (v1 v2 : Point) : R :=
  let v1_u := normalize v1 in
  let v2_u := normalize v2 in
  acos (clip (dot v1_u v2_u) (-1) 1) * (180 / PI).

(** Storing a float into an integer numpy array drops the fractional part
    (rounds towards zero). *)
Definition float_to_int (x : R) : Z :=
  if Rle_dec 0 x then Int_part x else (- Int_part (- x))%Z.

(** ** Curve *)

Record Curve : Type := mkCurve { curve_nodes : list Point }.

(** [Curve.__init__]: [nodes[:-1][::flatten] + [nodes[-1]]] *)
Definition new_Curve (nodes : list Point) (flatten : nat) : result Curve :=
  kept <- py_step (py_slice nodes 0 (-1)) flatten ;;
  last_node <- py_index nodes (-1) ;;
  Ok (mkCurve (kept ++ [last_node])).

(** [Curve.__call__]: the loop over [range(len(self.nodes) - 1)], written
    over the control points that are left. *)
Fixpoint Curve_call_loop (nodes : list Point) (t : R) : option Point :=
  match nodes with
  | node_i :: ((node_next :: _) as rest) =>
      let vector_to_next := get_vector node_i node_next in
      let distance_to_next := norm vector_to_next in
      if Rlt_dec t distance_to_next
      then Some (vadd node_i (vscale (t / distance_to_next) vector_to_next))
      else Curve_call_loop rest (t - distance_to_next)
  | _ => None
  end.

Definition Curve_call (crv : Curve) (t : R) : option Point :=
  Curve_call_loop (curve_nodes crv) t.

(** [Curve.get_vector] *)
Fixpoint Curve_get_vector_loop (nodes : list Point) (t : R) : option Point :=
  match nodes with
  | node_i :: ((node_next :: _) as rest) =>
      let vector_to_next := get_vector node_i node_next in
      let distance_to_next := norm vector_to_next in
      if Rlt_dec t distance_to_next
      then Some vector_to_next
      else Curve_get_vector_loop rest (t - distance_to_next)
  | _ => None
  end.

Definition Curve_get_vector (crv : Curve) (t : R) : option Point :=
  Curve_get_vector_loop (curve_nodes crv) t.

(** Total arc length of the control polygon. *)
Fixpoint polyline_length (nodes : list Point) : R :=
  match nodes with
  | node_i :: ((node_next :: _) as rest) =>
      norm (get_vector node_i node_next) + polyline_length rest
  | _ => 0
  end.

Definition total_length (crv : Curve) : R := polyline_length (curve_nodes crv).

Definition origin : Point := mkPoint 0 0 0.

(** [nodes[i]] for a position the surrounding loop keeps inside the list. *)
Definition node_at (nodes : list Point) (i : nat) : Point := nth i nodes origin.

(** [a[k] = x] on a fixed-size array. *)
Fixpoint set_item {A : Type} (a : list A) (k : nat) (x : A) : list A :=
  match a, k with
  | [], _ => []
  | _ :: a', O => x :: a'
  | y :: a', S k' => y :: set_item a' k' x
  end.

Definition sum_Z (a : list Z) : Z := fold_left Z.add a 0%Z.

(** [Curve.get_node_max_angle]: the body of the loop over
    [range(1, len(self.nodes) - 1)].  [current_interval] is the integer
    array [np.array([0] * interval_size)]. *)
Fixpoint get_node_max_angle_loop (nodes : list Point) (max_angle : R)
  (interval_size : nat) (indices : list nat) (current_interval : list Z)
  : result (option Point) :=
  match indices with
  | [] => Ok None
  | i :: rest =>
      let vector_to_current :=
        get_vector (node_at nodes (i - 1)) (node_at nodes i) in
      let vector_to_next :=
        get_vector (node_at nodes i) (node_at nodes (i + 1)) in
      match interval_size with
      | O => Raise ZeroDivisionError
      | S _ =>
          let current_interval :=
            set_item current_interval (i mod interval_size)
              (float_to_int (angle_between vector_to_current vector_to_next)) in
          if Rlt_dec max_angle (IZR (sum_Z current_interval))
          then Ok (Some (node_at nodes
                 (Z.to_nat (Z.max (Z.of_nat i - Z.of_nat (interval_size / 2)) 0))))
          else get_node_max_angle_loop nodes max_angle interval_size rest
                 current_interval
      end
  end.

Definition get_node_max_angle (crv : Curve) (max_angle : R)
  (interval_size : nat) : result (option Point) :=
  let nodes := curve_nodes crv in
  get_node_max_angle_loop nodes max_angle interval_size
    (seq 1 (length nodes - 2)) (repeat 0%Z interval_size).

(** ** Average nearest-neighbour distance *)

Definition closest_distance_step (node1 : Point) (closest_distance : R)
  (node2 : Point) : R :=
  let distance := get_distance node1 node2 in
  if Rlt_dec distance closest_distance then distance
  else if Req_EM_T closest_distance (-1) then distance
  else closest_distance.

Definition closest_distance_to (node1 : Point) (nodes2 : list Point) : R :=
  fold_left (closest_distance_step node1) nodes2 (-1).

Definition get_avg_offset (nodes1 nodes2 : list Point) : result R :=
  let sum_offsets :=
    fold_left (fun s node1 => s + closest_distance_to node1 nodes2) nodes1 0 in
  match length nodes1 with
  | O => Raise ZeroDivisionError
  | S _ => Ok (sum_offsets / INR (length nodes1))
  end.

(** ** Helix *)

Record Helix : Type := mkHelix {
  interval_size : nat;
  min_interval_size : nat;
  r : R;
  c : R;
  gap : R;
  flatten : nat
}.

(** [Helix._set_screw_axis], first loop: [for node in nodes]. *)
Fixpoint screw_axis_scan (h : Helix) (nodes interval centroids : list Point)
  : result (list Point * list Point) :=
  match nodes with
  | [] => Ok (interval, centroids)
  | node :: rest =>
      let interval := interval ++ [node] in
      let interval :=
        if (interval_size h <? length interval)%nat then tl interval
        else interval in
      if (min_interval_size h <=? length interval)%nat
      then centroid <- get_centroid interval ;;
           screw_axis_scan h rest interval (centroids ++ [centroid])
      else screw_axis_scan h rest interval centroids
  end.

(** [Helix._set_screw_axis], second loop:
    [while len(interval) >= self.min_interval_size]. *)
Fixpoint screw_axis_shrink (h : Helix) (interval centroids : list Point)
  : result (list Point) :=
  match interval with
  | [] =>
      if (min_interval_size h <=? 0)%nat then Raise IndexError
      else Ok centroids
  | _ :: interval' =>
      if (min_interval_size h <=? length interval)%nat
      then centroid <- get_centroid interval' ;;
           screw_axis_shrink h interval' (centroids ++ [centroid])
      else Ok centroids
  end.

Definition screw_axis_centroids (h : Helix) (nodes : list Point)
  : result (list Point) :=
  scanned <- screw_axis_scan h nodes [] [] ;;
  screw_axis_shrink h (fst scanned) (snd scanned).

Definition _set_screw_axis (h : Helix) (nodes : list Point) : result Curve :=
  centroids <- screw_axis_centroids h nodes ;;
  new_Curve centroids (flatten h).

(** [np.dot(v, m)] for a vector and the matrix whose rows are
    [row0], [row1], [row2]. *)
Definition vec_mat (v row0 row1 row2 : Point) : Point :=
  vadd (vadd (vscale (px v) row0) (vscale (py v) row1)) (vscale (pz v) row2).

(** One pass through the body of the loop of [Helix._set_nodes]: the node
    generated at arc length [t]. *)
Definition helix_node (h : Helix) (shift rotation t : R)
  (axis_point axis_vector : Point) : Point :=
  let z_axis := vscale (-1) (normalize axis_vector) in
  let y_axis := vscale (-1) (normalize (cross z_axis (mkPoint 1 0 0))) in
  let x_axis := vscale (-1) (normalize (cross z_axis y_axis)) in
  let original_vector :=
    mkPoint (r h * sin (c h * t - shift + rotation))
            (r h * cos (c h * t - shift + rotation))
            0 in
  let rotated_vector := vec_mat original_vector x_axis y_axis z_axis in
  vadd axis_point rotated_vector.

(** The loop [while self.screw_axis(t) is not None] of [Helix._set_nodes]. *)
Fixpoint set_nodes_loop (h : Helix) (screw_axis : Curve) (shift rotation : R)
  (fuel : nat) (t : R) (nodes : list Point) : result (list Point) :=
  match Curve_call screw_axis t with
  | None => Ok nodes
  | Some axis_point =>
      match fuel with
      | O => OutOfFuel
      | S fuel' =>
          match Curve_get_vector screw_axis t with
          | None => Raise TypeError
          | Some axis_vector =>
              set_nodes_loop h screw_axis shift rotation fuel' (t + gap h)
                (nodes ++ [helix_node h shift rotation t axis_point axis_vector])
          end
      end
  end.

(** Passes enough for the loop to leave when [gap] is positive: the arc
    length still ahead of [shift], counted in steps of [gap]. *)
Definition set_nodes_fuel (h : Helix) (screw_axis : Curve) (shift : R) : nat :=
  Z.to_nat (up ((total_length screw_axis - shift) / gap h)).

Definition _set_nodes (h : Helix) (screw_axis : Curve) (shift rotation : R)
  : result (list Point) :=
  set_nodes_loop h screw_axis shift rotation
    (set_nodes_fuel h screw_axis shift) shift [].

(** [int(self.min_interval_size / 2 - 0.1)] *)
Definition edge_length (h : Helix) : nat :=
  Z.to_nat (float_to_int (INR (min_interval_size h) / 2 - 0.1)).

(** [Helix._set_edges] *)
Definition _set_edges (h : Helix) (original_nodes generated : list Point)
  : list Point :=
  py_prefix original_nodes (edge_length h) ++ generated
    ++ py_suffix_neg original_nodes (edge_length h).

(** [list.sort(key=...)] followed by [[0]]: a stable sort, so the first of
    the entries with the least key. *)
Fixpoint insert_by_key {A : Type} (x : R * A) (l : list (R * A))
  : list (R * A) :=
  match l with
  | [] => [x]
  | y :: l' =>
      if Rlt_dec (fst y) (fst x) then y :: insert_by_key x l'
      else x :: y :: l'
  end.

Definition sort_by_key {A : Type} (l : list (R * A)) : list (R * A) :=
  fold_right insert_by_key [] l.

Section Fit.

(** [scipy.optimize.minimize(fun, x0).x]: the point the optimiser returns
    for an objective and a start. *)
Variable minimize : (R * R -> result R) -> R * R -> R * R.

Definition evaluate_params (h : Helix) (screw_axis : Curve)
  (nodes : list Point) (x : R * R) : result R :=
  generated <- _set_nodes h screw_axis (fst x) (snd x) ;;
  get_avg_offset nodes generated.

(** [Helix.fit], the parameter search: the three starts, and the sort on
    the objective re-evaluated at each result. *)
Definition fit_search (h : Helix) (screw_axis : Curve) (nodes : list Point)
  : result (R * R) :=
  let evaluate_params := evaluate_params h screw_axis nodes in
  let res := [ minimize evaluate_params (- gap h, - 2 * PI);
               minimize evaluate_params (0, 0);
               minimize evaluate_params (gap h, 2 * PI) ] in
  k0 <- evaluate_params (nth 0 res (0, 0)) ;;
  k1 <- evaluate_params (nth 1 res (0, 0)) ;;
  k2 <- evaluate_params (nth 2 res (0, 0)) ;;
  let res := map snd (sort_by_key (combine [k0; k1; k2] res)) in
  Ok (nth 0 res (0, 0)).

(** [Helix.fit], the last five lines: regenerate at the best parameters and
    accept or keep the input. *)
Definition fit_accept (h : Helix) (screw_axis : Curve) (nodes : list Point)
  (best : R * R) : result (list Point) :=
  generated <- _set_nodes h screw_axis (fst best) (snd best) ;;
  offset <- get_avg_offset nodes generated ;;
  if Rlt_dec 0.8 offset
  then if Rle_dec offset 1.7
       then Ok (_set_edges h nodes generated)
       else Ok nodes
  else Ok nodes.

(** [Helix.fit]; the value is the final [self.nodes]. *)
Definition fit (h : Helix) (nodes : list Point) : result (list Point) :=
  screw_axis <- _set_screw_axis h nodes ;;
  node_max_angle <- get_node_max_angle screw_axis 80 3 ;;
  match node_max_angle with
  | Some node => Raise (CurvedScrewAxisError node)
  | None =>
      best <- fit_search h screw_axis nodes ;;
      fit_accept h screw_axis nodes best
  end.

End Fit.

(** ** Refinement controller *)

(** A helix or sheet entry is the two-element list [[start, end]]. *)
Definition Range : Type := (Z * Z)%type.

Record Chain : Type := mkChain {
  nodes : list Point;
  sheets : list Range;
  helices : list Range
}.

Definition update_range (node_start diff : Z) (node_range : Range) : Range :=
  let start := fst node_range in
  let stop := snd node_range in
  let start := if (start >? node_start)%Z then (start + diff)%Z else start in
  let stop := if (stop >? node_start)%Z then (stop + diff)%Z else stop in
  (start, stop).

Definition update_sec_structure (sec_structure : list Range)
  (node_start diff : Z) : list Range :=
  map (update_range node_start diff) sec_structure.

(** [range(a, b)] *)
Definition py_range (a b : Z) : list Z :=
  map (fun k => (a + Z.of_nat k)%Z) (seq 0 (Z.to_nat (b - a))).

(** The search loop of [split_helix_at_node]; [min_distance] starts at
    [float('inf')], which is [None] here. *)
Fixpoint closest_node_loop (node : Point) (chain_nodes : list Point)
  (js : list Z) (closest_node : Z) (min_distance : option R)
  : result (Z * option R) :=
  match js with
  | [] => Ok (closest_node, min_distance)
  | j :: rest =>
      node_j <- py_index chain_nodes j ;;
      let distance := get_distance node_j node in
      let closer :=
        match min_distance with
        | None => true
        | Some m => if Rlt_dec distance m then true else false
        end in
      if closer
      then closest_node_loop node chain_nodes rest j (Some distance)
      else closest_node_loop node chain_nodes rest closest_node min_distance
  end.

Definition split_helix_at_node (node : Point) (chain : Chain) (i : nat)
  : result Chain :=
  helix <- py_index (helices chain) (Z.of_nat i) ;;
  let helix_start := fst helix in
  let helix_end := snd helix in
  found <- closest_node_loop node (nodes chain)
             (py_range helix_start helix_end) (-1)%Z None ;;
  let closest_node := fst found in
  let closest_node :=
    if (helix_start =? closest_node)%Z then (closest_node + 1)%Z
    else closest_node in
  helices1 <- py_del (helices chain) i ;;
  let helices2 := py_insert helices1 i (closest_node, helix_end) in
  let helices3 := py_insert helices2 i (helix_start, closest_node) in
  Ok (mkChain (nodes chain) (sheets chain) helices3).

(** [Helix(interval_size=9, min_interval_size=3, r=2.11, c=1.149, gap=1.498,
    flatten=4)] *)
Definition default_helix : Helix := mkHelix 9 3 2.11 1.149 1.498 4.

Section Controller.

Variable minimize : (R * R -> result R) -> R * R -> R * R.

(** The [while i < len(chain.helices)] loop of [fit_helices] for one chain. *)
Fixpoint fit_chain_loop (fuel : nat) (chain : Chain) (i : nat)
  : result Chain :=
  if (i <? length (helices chain))%nat then
    match fuel with
    | O => OutOfFuel
    | S fuel' =>
        helix <- py_index (helices chain) (Z.of_nat i) ;;
        let helix_start := fst helix in
        let helix_end := snd helix in
        let original_len := length (nodes chain) in
        if (helix_end - helix_start <? 10)%Z
        then fit_chain_loop fuel' chain (i + 1)
        else
          match fit minimize default_helix
                  (py_slice (nodes chain) helix_start helix_end) with
          | Ok helix_nodes =>
              let nodes' :=
                py_slice_assign (nodes chain) helix_start helix_end
                  helix_nodes in
              let diff :=
                (Z.of_nat (length nodes') - Z.of_nat original_len)%Z in
              let helices' :=
                update_sec_structure (helices chain) helix_start diff in
              let sheets' :=
                update_sec_structure (sheets chain) helix_start diff in
              fit_chain_loop fuel' (mkChain nodes' sheets' helices') (i + 1)
          | Raise (CurvedScrewAxisError node) =>
              chain' <- split_helix_at_node node chain i ;;
              fit_chain_loop fuel' chain' i
          | Raise e => Raise e
          | OutOfFuel => OutOfFuel
          end
    end
  else Ok chain.

(** [fit_helices]: the chains one after the other; the value is the list of
    chains as the loop leaves them. *)
Fixpoint fit_helices (fuel : nat) (chains : list Chain)
  : result (list Chain) :=
  match chains with
  | [] => Ok []
  | chain :: rest =>
      chain' <- fit_chain_loop fuel chain 0 ;;
      rest' <- fit_helices fuel rest ;;
      Ok (chain' :: rest')
  end.

End Controller.

(** ** Text: the string operations of the PDB reader and writer *)

(** [str(n)] for an integer. *)
Definition str_Z (z : Z) : string := NilZero.string_of_int (Z.to_int z).

Fixpoint replicate (c : ascii) (n : nat) : string :=
  match n with
  | O => EmptyString
  | S n' => String c (replicate c n')
  end.

(** [s.rjust(width)]: blanks in front up to [width]; a longer text is kept
    whole. *)
Definition rjust (s : string) (width : nat) : string :=
  (replicate " " (width - String.length s) ++ s)%string.

(** [s.rjust(width, '0')] *)
Definition zfill (s : string) (width : nat) : string :=
  (replicate "0" (width - String.length s) ++ s)%string.

(** [s[a:b]] for [0 <= a <= b]. *)
Definition str_slice (s : string) (a b : nat) : string :=
  substring a (b - a) s.

(** ASCII white space, as [str.strip], [int] and [float] skip it. *)
Definition is_space (ch : ascii) : bool :=
  let n := nat_of_ascii ch in
  ((9 <=? n) && (n <=? 13) || (28 <=? n) && (n <=? 32))%nat.

Fixpoint lstrip (s : string) : string :=
  match s with
  | EmptyString => EmptyString
  | String ch s' => if is_space ch then lstrip s' else s
  end.

Fixpoint rstrip (s : string) : string :=
  match s with
  | EmptyString => EmptyString
  | String ch s' =>
      match rstrip s' with
      | EmptyString => if is_space ch then EmptyString else String ch EmptyString
      | kept => String ch kept
      end
  end.

Definition strip (s : string) : string := rstrip (lstrip s).

(** A nonempty run of decimal digits. *)
Definition digits_value (s : string) : result Z :=
  match NilZero.uint_of_string s with
  | Some d => Ok (Z.of_uint d)
  | None => Raise ValueError
  end.

(** [int(s)] on blanks, an optional sign and decimal digits (underscores
    and non-ASCII digits are not modelled). *)
Definition py_int (s : string) : result Z :=
  match strip s with
  | EmptyString => Raise ValueError
  | String ch rest =>
      if Ascii.eqb ch "-" then v <- digits_value rest ;; Ok (- v)%Z
      else if Ascii.eqb ch "+" then digits_value rest
      else digits_value (String ch rest)
  end.

(** The text before the first point, and the text after it if there is a
    point. *)
Fixpoint split_point (s : string) : string * option string :=
  match s with
  | EmptyString => (EmptyString, None)
  | String ch s' =>
      if Ascii.eqb ch "." then (EmptyString, Some s')
      else let '(whole, frac) := split_point s' in (String ch whole, frac)
  end.

Definition unsigned_decimal (s : string) : result R :=
  let '(whole, frac) := split_point s in
  match NilEmpty.uint_of_string whole, frac with
  | Some dw, None =>
      match whole with
      | EmptyString => Raise ValueError
      | _ => Ok (IZR (Z.of_uint dw))
      end
  | Some dw, Some f =>
      match NilEmpty.uint_of_string f with
      | Some df =>
          match whole, f with
          | EmptyString, EmptyString => Raise ValueError
          | _, _ =>
              Ok (IZR (Z.of_uint dw)
                  + IZR (Z.of_uint df) / 10 ^ String.length f)
          end
      | None => Raise ValueError
      end
  | None, _ => Raise ValueError
  end.

(** [float(s)] on blanks, an optional sign, digits and a decimal point
    (exponents, [inf], [nan] and underscores are not modelled: the writer
    never produces them). *)
Definition py_float (s : string) : result R :=
  match strip s with
  | EmptyString => Raise ValueError
  | String ch rest =>
      if Ascii.eqb ch "-" then v <- unsigned_decimal rest ;; Ok (- v)
      else if Ascii.eqb ch "+" then unsigned_decimal rest
      else unsigned_decimal (String ch rest)
  end.

(** Rounding a nonnegative real to the nearest integer, ties to even. *)
Definition round_half_even (x : R) : Z :=
  let f := Int_part x in
  if Rlt_dec (x - IZR f) (1 / 2) then f
  else if Rlt_dec (1 / 2) (x - IZR f) then (f + 1)%Z
  else if Z.even f then f else (f + 1)%Z.

(** The number of thousandths ['{0:.3f}'] prints for [x], sign apart. *)
Definition thousandths (x : R) : Z := round_half_even (Rabs x * 1000).

(** ['{0:.3f}'.format(x)]: sign, integer part, point, three decimals. *)
Definition format_3f (x : R) : string :=
  let m := thousandths x in
  ((if Rlt_dec x 0 then "-" else "")
   ++ str_Z (m / 1000) ++ "." ++ zfill (str_Z (m mod 1000)) 3)%string.

(** The value ['{0:.3f}'] writes for [x]. *)
Definition round_3f (x : R) : R :=
  let v := IZR (thousandths x) / 1000 in
  if Rlt_dec x 0 then - v else v.

Definition round_point (node : Point) : Point :=
  mkPoint (round_3f (px node)) (round_3f (py node)) (round_3f (pz node)).

Definition newline : string := String "010" EmptyString.

(** [pattern in s] *)
Fixpoint contains (pattern s : string) : bool :=
  if prefix pattern s then true
  else match s with
       | EmptyString => false
       | String _ s' => contains pattern s'
       end.

(** The lines a text file yields, each with its newline. *)
Fixpoint py_lines (s : string) : list string :=
  match s with
  | EmptyString => []
  | String ch s' =>
      if Ascii.eqb ch "010" then String ch EmptyString :: py_lines s'
      else match py_lines s' with
           | [] => [String ch EmptyString]
           | line :: others => String ch line :: others
           end
  end.

(** ** PDB records *)

Definition format_node (node : Point) (chain : string) (n : Z) : string :=
  ("ATOM      1  CA  GLY " ++ chain ++ rjust (str_Z n) 4 ++ "    "
   ++ rjust (format_3f (px node)) 8
   ++ rjust (format_3f (py node)) 8
   ++ rjust (format_3f (pz node)) 8
   ++ "  1.00  0.00           C  " ++ newline)%string.

Definition format_helix_info (chain : string) (node_from node_to : Z)
  : string :=
  ("HELIX    1   1 GLY " ++ chain ++ " "
   ++ rjust (str_Z (node_from + 1)) 4 ++ "  GLY " ++ chain ++ " "
   ++ rjust (str_Z node_to) 4 ++ "  1" ++ newline)%string.

Definition format_sheet_info (chain : string) (node_from node_to : Z)
  : string :=
  ("SHEET    1   A 6 GLY " ++ chain
   ++ rjust (str_Z (node_from + 1)) 4 ++ "  GLY " ++ chain
   ++ rjust (str_Z (node_to + 1)) 4 ++ "  0" ++ newline)%string.

Definition parse_node (line : string) : result Point :=
  x <- py_float (str_slice line 31 38) ;;
  y <- py_float (str_slice line 39 46) ;;
  z <- py_float (str_slice line 47 54) ;;
  Ok (mkPoint x y z).

(** The loop [for chain in chains] of [parse_helix]. *)
Fixpoint parse_helix_loop (chains : list Chain) (data : Range) (i : nat)
  : Range * nat :=
  match chains with
  | [] => (data, i)
  | chain :: rest =>
      let len := Z.of_nat (length (nodes chain)) in
      if (snd data <=? len)%Z then (data, i)
      else parse_helix_loop rest
             ((fst data - (len + 1))%Z, (snd data - (len + 1))%Z) (i + 1)
  end.

Definition parse_helix (line : string) (chains : list Chain)
  : result (Range * nat) :=
  a <- py_int (str_slice line 21 25) ;;
  b <- py_int (str_slice line 33 37) ;;
  Ok (parse_helix_loop chains ((a - 1)%Z, b) 0).

(** The loop [for chain in chains] of [parse_sheet]. *)
Fixpoint parse_sheet_loop (chains : list Chain) (data : Range) (i : nat)
  : Range * nat :=
  match chains with
  | [] => (data, i)
  | chain :: rest =>
      let len := Z.of_nat (length (nodes chain)) in
      if (snd data <? len)%Z then (data, i)
      else parse_sheet_loop rest
             ((fst data - (len + 1))%Z, (snd data - (len + 1))%Z) (i + 1)
  end.

Definition parse_sheet (line : string) (chains : list Chain)
  : result (Range * nat) :=
  a <- py_int (str_slice line 22 26) ;;
  b <- py_int (str_slice line 33 37) ;;
  Ok (parse_sheet_loop chains ((a - 1)%Z, (b - 1)%Z) 0).

(** ** Reading and writing a file *)

(** [chains[i].<field>.append(...)]: the chain at position [i] replaced by
    [change] of it. *)
Definition change_chain (chains : list Chain) (i : nat)
  (change : Chain -> Chain) : result (list Chain) :=
  match nth_error chains i with
  | Some chain => Ok (firstn i chains ++ change chain :: skipn (S i) chains)
  | None => Raise IndexError
  end.

Definition add_node (data : Point) (chain : Chain) : Chain :=
  mkChain (nodes chain ++ [data]) (sheets chain) (helices chain).

Definition add_helix (data : Range) (chain : Chain) : Chain :=
  mkChain (nodes chain) (sheets chain) (helices chain ++ [data]).

Definition add_sheet (data : Range) (chain : Chain) : Chain :=
  mkChain (nodes chain) (sheets chain ++ [data]) (helices chain).

(** The [try] block of [read_pdb] for one line. *)
Definition read_record (chains : list Chain) (line : string)
  : result (list Chain) :=
  if String.eqb (str_slice line 0 4) "ATOM" then
    data <- parse_node line ;;
    change_chain chains (length chains - 1) (add_node data)
  else if String.eqb (str_slice line 0 5) "HELIX" then
    found <- parse_helix line chains ;;
    change_chain chains (snd found) (add_helix (fst found))
  else if String.eqb (str_slice line 0 5) "SHEET" then
    found <- parse_sheet line chains ;;
    change_chain chains (snd found) (add_sheet (fst found))
  else Ok chains.

(** The body of the loop [for line in pdb_file] of [read_pdb]: a
    [ValueError] is reported and the line dropped. *)
Definition read_line (chains : list Chain) (line : string)
  : result (list Chain) :=
  let chains :=
    if contains "TER" line then chains ++ [mkChain [] [] []] else chains in
  match read_record chains line with
  | Raise ValueError => Ok chains
  | outcome => outcome
  end.

Fixpoint read_lines (chains : list Chain) (lines : list string)
  : result (list Chain) :=
  match lines with
  | [] => Ok chains
  | line :: rest =>
      chains' <- read_line chains line ;;
      read_lines chains' rest
  end.

(** [read_pdb], given the text of the file. *)
Definition read_pdb (file : string) : result (list Chain) :=
  read_lines [mkChain [] [] []] (py_lines file).

(** The three lists of records [write_pdb] collects, chain by chain. *)
Fixpoint write_records (chains : list Chain) (offset : Z)
  : list string * list string * list string :=
  match chains with
  | [] => ([], [], [])
  | chain :: rest =>
      let nodes_str :=
        map (fun i => format_node (node_at (nodes chain) i) "A"
                        (offset + Z.of_nat i + 1))
            (seq 0 (length (nodes chain)))
        ++ [("TER" ++ newline)%string] in
      let helices_str :=
        map (fun helix => format_helix_info "A" (fst helix + offset)
                            (snd helix + offset))
            (helices chain) in
      let sheets_str :=
        map (fun sheet => format_sheet_info "A" (fst sheet + offset)
                            (snd sheet + offset))
            (sheets chain) in
      let '(n, h, s) :=
        write_records rest (offset + Z.of_nat (length (nodes chain)) + 1) in
      (nodes_str ++ n, helices_str ++ h, sheets_str ++ s)
  end.

(** [write_pdb]; the value is the text written to the file. *)
Definition write_pdb (chains : list Chain) : string :=
  let '(nodes_str, helices_str, sheets_str) := write_records chains 0 in
  (String.concat "" nodes_str ++ String.concat "" helices_str
   ++ String.concat "" sheets_str)%string.

(** ** Entry points *)

(** A [dict] with string keys and string values, in insertion order. *)
Definition Dict : Type := list (string * string).

(** [d[key]], [None] where Python raises [KeyError]. *)
Fixpoint dict_get (d : Dict) (key : string) : option string :=
  match d with
  | [] => None
  | (k, v) :: d' => if String.eqb k key then Some v else dict_get d' key
  end.

(** [d[key] = value]: a key that is present keeps its place. *)
Fixpoint dict_set (d : Dict) (key value : string) : Dict :=
  match d with
  | [] => [(key, value)]
  | (k, v) :: d' =>
      if String.eqb k key then (k, value) :: d'
      else (k, v) :: dict_set d' key value
  end.

(** What a call of an entry point ends in: besides the exceptions of the
    refinement itself, a missing dictionary key and a missing file. *)
Inductive run (A : Type) : Type :=
| Returned (a : A)
| Raised (e : exn)
| KeyError (key : string)
| FileNotFoundError (name : string)
| Unfinished.
Arguments Returned {A} a.
Arguments Raised {A} e.
Arguments KeyError {A} key.
Arguments FileNotFoundError {A} name.
Arguments Unfinished {A}.


Definition run_bind {A B : Type} (m : run A) (k : A -> run B) : run B :=
  match m with
  | Returned a => k a
  | Raised e => Raised e
  | KeyError key => KeyError key
  | FileNotFoundError name => FileNotFoundError name
  | Unfinished => Unfinished
  end.

Notation "x <~ m ;; k" := (run_bind m (fun x => k))
  (at level 61, m at next level, right associativity).

(** [paths[key]] *)
Definition lookup (paths : Dict) (key : string) : run string :=
  match dict_get paths key with
  | Some value => Returned value
  | None => KeyError key
  end.


(** [update_paths]; the value is the dictionary after the call. *)
Definition update_paths (paths : Dict) : run Dict :=
  output <~ lookup paths "output" ;;
  Returned (dict_set paths "traces_refined" (output ++ "traces_refined.pdb")).

Section Execute.

Variable minimize : (R * R -> result R) -> R * R -> R * R.


End Execute.

(** ** Vocabulary of the statements *)

(** Distance from the chain node at index [j] to [node]. *)
Definition node_distance (node : Point) (chain_nodes : list Point) (j : Z)
  : R :=
  get_distance (node_at chain_nodes (Z.to_nat j)) node.

(** [best] is the first index of [start .. j-1] at the least distance from
    [node]. *)
Definition first_nearest (node : Point) (chain_nodes : list Point)
  (start j best : Z) : Prop :=
  (start <= best < j)%Z
  /\ (forall k, (start <= k < j)%Z ->
        node_distance node chain_nodes best <= node_distance node chain_nodes k)
  /\ (forall k, (start <= k < best)%Z ->
        node_distance node chain_nodes best < node_distance node chain_nodes k).

(** The last [k] elements of a list (all of it when it is shorter). *)
Definition lastn {A : Type} (k : nat) (l : list A) : list A :=
  skipn (length l - k) l.

(** Consecutive ranges [a, b), [b, c), ... starting at [a], each nonempty:
    the pieces a helix range has been split into. *)
Inductive contiguous : Z -> list Range -> Prop :=
| contiguous_nil (a : Z) : contiguous a []
| contiguous_cons (a b : Z) (l : list Range) :
    (a < b)%Z -> contiguous b l -> contiguous a ((a, b) :: l).

(** Passes of the controller loop a range of [len] nodes can still cause:
    itself and every piece it can be split into. *)
Definition range_weight (node_range : Range) : nat :=
  Z.to_nat (2 * (snd node_range - fst node_range) - 1).

Definition ranges_weight (l : list Range) : nat :=
  fold_right (fun node_range w => (range_weight node_range + w)%nat) 0%nat l.

(** Every character of [s] passes the test [P]. *)
Fixpoint string_forall (P : ascii -> bool) (s : string) : bool :=
  match s with
  | EmptyString => true
  | String ch s' => P ch && string_forall P s'
  end.

Definition is_digit (ch : ascii) : bool :=
  let n := nat_of_ascii ch in ((48 <=? n) && (n <=? 57))%nat.

(** The characters of a number the writer prints: digits, sign, point. *)
Definition is_field_char (ch : ascii) : bool :=
  is_digit ch || Ascii.eqb ch "-" || Ascii.eqb ch ".".

(** A character that neither ends a line nor can be part of [TER]. *)
Definition is_quiet (ch : ascii) : bool :=
  negb (Ascii.eqb ch "R") && negb (Ascii.eqb ch "010").

(** A record as the writer emits it: quiet text closed by a newline. *)
Definition is_record (line : string) : Prop :=
  exists body,
    line = (body ++ newline)%string /\ string_forall is_quiet body = true.

(** A line of a file: text without a newline, closed by a newline. *)
Definition is_line (line : string) : Prop :=
  exists body,
    line = (body ++ newline)%string
    /\ string_forall (fun ch => negb (Ascii.eqb ch "010")) body = true.

(** Rows a list of chains takes in the node block of the file: its nodes
    and one [TER] for each chain. *)
Fixpoint file_rows (chains : list Chain) : Z :=
  match chains with
  | [] => 0
  | chain :: rest => Z.of_nat (length (nodes chain)) + 1 + file_rows rest
  end.

(** The 3-decimal text of the coordinate leaves the first column of its
    8-column field blank, so it lies within the 7 columns the reader takes. *)
Definition coordinate_fits (x : R) : Prop :=
  (String.length (format_3f x) <= 7)%nat.

Definition node_fits (node : Point) : Prop :=
  coordinate_fits (px node) /\ coordinate_fits (py node)
  /\ coordinate_fits (pz node).

(** A helix entry is a half-open range of the [len] nodes. *)
Definition helix_in (len : nat) (helix : Range) : Prop :=
  (0 <= fst helix <= snd helix)%Z /\ (snd helix <= Z.of_nat len)%Z.

(** A sheet entry names a first and a last node among the [len] nodes. *)
Definition sheet_in (len : nat) (sheet : Range) : Prop :=
  (0 <= fst sheet <= snd sheet)%Z /\ (snd sheet < Z.of_nat len)%Z.

Definition chain_writable (chain : Chain) : Prop :=
  Forall node_fits (nodes chain)
  /\ Forall (helix_in (length (nodes chain))) (helices chain)
  /\ Forall (sheet_in (length (nodes chain))) (sheets chain).

(** A chain as it comes back from the file: coordinates at three decimals,
    ranges as they were. *)
Definition as_read (chain : Chain) : Chain :=
  mkChain (map round_point (nodes chain)) (sheets chain) (helices chain).

(** The chain after the node block has been read, and after the helix
    block has been read. *)
Definition nodes_read (chain : Chain) : Chain :=
  mkChain (map round_point (nodes chain)) [] [].

Definition helices_read (chain : Chain) : Chain :=
  mkChain (map round_point (nodes chain)) [] (helices chain).

(** The records of [write_pdb], block by block. *)
Fixpoint node_lines (l : list Point) (n : Z) : list string :=
  match l with
  | [] => []
  | node :: l' => format_node node "A" n :: node_lines l' (n + 1)
  end.

Fixpoint all_node_lines (chains : list Chain) (offset : Z) : list string :=
  match chains with
  | [] => []
  | chain :: rest =>
      node_lines (nodes chain) (offset + 1) ++ [("TER" ++ newline)%string]
      ++ all_node_lines rest (offset + Z.of_nat (length (nodes chain)) + 1)
  end.

Definition helix_lines (l : list Range) (offset : Z) : list string :=
  map (fun helix => format_helix_info "A" (fst helix + offset)
                      (snd helix + offset)) l.

Fixpoint all_helix_lines (chains : list Chain) (offset : Z) : list string :=
  match chains with
  | [] => []
  | chain :: rest =>
      helix_lines (helices chain) offset
      ++ all_helix_lines rest (offset + Z.of_nat (length (nodes chain)) + 1)
  end.

Definition sheet_lines (l : list Range) (offset : Z) : list string :=
  map (fun sheet => format_sheet_info "A" (fst sheet + offset)
                      (snd sheet + offset)) l.

Fixpoint all_sheet_lines (chains : list Chain) (offset : Z) : list string :=
  match chains with
  | [] => []
  | chain :: rest =>
      sheet_lines (sheets chain) offset
      ++ all_sheet_lines rest (offset + Z.of_nat (length (nodes chain)) + 1)
  end.

(** A helix range the controller does not fit: fewer than 10 nodes. *)
Definition short_helix (helix : Range) : Prop := (snd helix - fst helix < 10)%Z.

(** ** Sample inputs *)

(** The straight segment from (0,0,0) to (1,0,0). *)
Definition unit_segment : Curve := mkCurve [mkPoint 0 0 0; mkPoint 1 0 0].

(** A chain of three nodes at the origin with one helix entry over them. *)
Definition three_node_chain : Chain :=
  mkChain [origin; origin; origin] [] [(0, 3)%Z].

(** A bend of 80.5 degrees, in radians. *)
Definition bend : R := 161 * PI / 360.

(** Ten nodes whose screw axis runs two units along x, turns by [bend] and
    runs two units on: [bent_axis] below is the axis [_set_screw_axis]
    builds from them. *)
Definition bent_nodes : list Point :=
  [ mkPoint (- (3 / 2) + 2 * cos bend) (2 * sin bend) 0;
    mkPoint (- (3 / 2) + 2 * cos bend) (2 * sin bend) 0;
    mkPoint (3 - 4 * cos bend) (- 4 * sin bend) 0;
    mkPoint 1 0 0;
    mkPoint 2 0 0;
    mkPoint 2 0 0;
    mkPoint 2 0 0;
    mkPoint 2 0 0;
    mkPoint (2 + 2 * cos bend) (2 * sin bend) 0;
    mkPoint (2 + 2 * cos bend) (2 * sin bend) 0 ].

Definition bent_axis : Curve :=
  mkCurve [ mkPoint 0 0 0;
            mkPoint 1 0 0;
            mkPoint 2 0 0;
            mkPoint (2 + cos bend) (sin bend) 0;
            mkPoint (2 + 2 * cos bend) (2 * sin bend) 0 ].

(** The unit vectors before and after the bend of [bent_axis]. *)
Definition ux : Point := mkPoint 1 0 0.
Definition uw : Point := mkPoint (cos bend) (sin bend) 0.

(** Two chains with helix and sheet entries, for the file round trip. *)
Definition sample_chains : list Chain :=
  [ mkChain [mkPoint 1.5 (-2.25) 10; mkPoint 0 0 0] [(0, 1)%Z] [(0, 2)%Z];
    mkChain [mkPoint 0 0 0] [(0, 0)%Z] [(0, 1)%Z] ].

(** One chain of one node whose sheet entry is the half-open range [0, 1). *)
Definition sheet_to_the_end : list Chain :=
  [ mkChain [mkPoint 0 0 0] [(0, 1)%Z] [] ].

(** A stand-in for the optimiser that answers one fixed point, far beyond
    the end of any short axis. *)
Definition far_minimize (objective : R * R -> result R) (start : R * R)
  : R * R := (1000, 0).

(** * Properties *)

(** ** Vectors *)

Lemma point_eq (a b : Point) :
  px a = px b -> py a = py b -> pz a = pz b -> a = b.
Proof. destruct a, b; simpl; intros; subst; reflexivity. Qed.

Lemma norm_nonneg (a : Point) : 0 <= norm a.
Proof. apply sqrt_pos. Qed.

Lemma sum_squares_nonneg (x y z : R) : 0 <= x * x + y * y + z * z.
Proof. nra. Qed.

Lemma norm_zero_inv (a : Point) : norm a = 0 -> a = origin.
Proof.
  unfold norm; intros H.
  apply sqrt_eq_0 in H; [| apply sum_squares_nonneg].
  apply point_eq; simpl; nra.
Qed.

Lemma norm_sqr (a : Point) : norm a * norm a = dot a a.
Proof. unfold norm, dot. apply sqrt_sqrt, sum_squares_nonneg. Qed.

Lemma get_vector_zero_inv (p q : Point) : get_vector p q = origin -> q = p.
Proof.
  unfold get_vector, origin; intros H; injection H as Hx Hy Hz.
  apply point_eq; lra.
Qed.

Lemma vadd_vscale_zero (p v : Point) (d : R) : vadd p (vscale (0 / d) v) = p.
Proof. apply point_eq; simpl; unfold Rdiv; ring. Qed.

(** ** Curve: position by arc length *)

Lemma polyline_length_cons (p q : Point) (l : list Point) :
  polyline_length (p :: q :: l)
  = norm (get_vector p q) + polyline_length (q :: l).
Proof. reflexivity. Qed.

Lemma Curve_call_loop_cons (p q : Point) (l : list Point) (t : R) :
  Curve_call_loop (p :: q :: l) t
  = if Rlt_dec t (norm (get_vector p q))
    then Some (vadd p (vscale (t / norm (get_vector p q)) (get_vector p q)))
    else Curve_call_loop (q :: l) (t - norm (get_vector p q)).
Proof. reflexivity. Qed.

Lemma Curve_get_vector_loop_cons (p q : Point) (l : list Point) (t : R) :
  Curve_get_vector_loop (p :: q :: l) t
  = if Rlt_dec t (norm (get_vector p q))
    then Some (get_vector p q)
    else Curve_get_vector_loop (q :: l) (t - norm (get_vector p q)).
Proof. reflexivity. Qed.

Lemma polyline_length_nonneg (l : list Point) : 0 <= polyline_length l.
Proof.
  induction l as [| p [| q l'] IH]; try (simpl; lra).
  rewrite polyline_length_cons.
  pose proof (norm_nonneg (get_vector p q)). lra.
Qed.

Lemma Curve_call_loop_beyond (l : list Point) (t : R) :
  polyline_length l <= t -> Curve_call_loop l t = None.
Proof.
  revert t; induction l as [| p [| q l'] IH]; intros t Ht; try reflexivity.
  rewrite Curve_call_loop_cons. rewrite polyline_length_cons in Ht.
  pose proof (polyline_length_nonneg (q :: l')) as Hl.
  destruct (Rlt_dec t (norm (get_vector p q))) as [Hlt | _]; [lra |].
  apply IH. lra.
Qed.

Lemma Curve_call_loop_within (l : list Point) (t : R) :
  0 <= t -> t < polyline_length l -> Curve_call_loop l t <> None.
Proof.
  revert t; induction l as [| p [| q l'] IH]; intros t H0 Ht;
    try (simpl in Ht; lra).
  rewrite Curve_call_loop_cons. rewrite polyline_length_cons in Ht.
  destruct (Rlt_dec t (norm (get_vector p q))) as [Hlt | Hge];
    [discriminate |].
  apply IH; lra.
Qed.

Lemma Curve_call_loop_start (l : list Point) (p : Point) (rest : list Point) :
  l = p :: rest -> 0 < polyline_length l -> Curve_call_loop l 0 = Some p.
Proof.
  revert p rest; induction l as [| p0 [| q l'] IH]; intros p rest E Hpos;
    try (simpl in Hpos; lra).
  injection E as -> _.
  rewrite Curve_call_loop_cons. rewrite polyline_length_cons in Hpos.
  destruct (Rlt_dec 0 (norm (get_vector p q))) as [Hlt | Hge].
  - now rewrite vadd_vscale_zero.
  - pose proof (norm_nonneg (get_vector p q)) as Hn.
    assert (Hz : norm (get_vector p q) = 0) by lra.
    rewrite Hz, Rminus_0_r in *.
    apply norm_zero_inv, get_vector_zero_inv in Hz. subst q.
    apply (IH p l' eq_refl). lra.
Qed.

Lemma Curve_vector_defined_iff (l : list Point) (t : R) :
  Curve_call_loop l t = None <-> Curve_get_vector_loop l t = None.
Proof.
  revert t; induction l as [| p [| q l'] IH]; intros t; try tauto.
  rewrite Curve_call_loop_cons, Curve_get_vector_loop_cons.
  destruct (Rlt_dec t (norm (get_vector p q))); [| apply IH].
  split; discriminate.
Qed.

(** C2 (as the code has it).  For a curve with at least two control points
    and positive total arc length [L]: the position at arc length 0 is the
    first control point; the position is defined everywhere on [0, L); and
    for every [t >= L], the value [L] itself included, the curve answers
    [None].  The last control point is therefore never returned at [t = L]:
    the test [distance_to_next > t] is strict. *)
Theorem Curve_call_domain (crv : Curve) (first : Point) (rest : list Point) :
  curve_nodes crv = first :: rest ->
  (2 <= length (curve_nodes crv))%nat ->
  0 < total_length crv ->
  Curve_call crv 0 = Some first
  /\ (forall t, 0 <= t < total_length crv -> Curve_call crv t <> None)
  /\ (forall t, total_length crv <= t -> Curve_call crv t = None).
Proof.
  intros E _ Hpos. unfold Curve_call, total_length in *.
  split; [| split].
  - now apply (Curve_call_loop_start _ first rest).
  - intros t [H0 Ht]. now apply Curve_call_loop_within.
  - intros t Ht. now apply Curve_call_loop_beyond.
Qed.

Lemma unit_segment_length : total_length unit_segment = 1.
Proof.
  unfold total_length, unit_segment, curve_nodes, polyline_length, norm,
    get_vector; simpl.
  replace ((1 - 0) * (1 - 0) + (0 - 0) * (0 - 0) + (0 - 0) * (0 - 0)) with 1
    by ring.
  rewrite sqrt_1. ring.
Qed.

Lemma Curve_call_domain_witness :
  Curve_call unit_segment 0 = Some (mkPoint 0 0 0)
  /\ (forall t, 0 <= t < total_length unit_segment ->
        Curve_call unit_segment t <> None)
  /\ (forall t, total_length unit_segment <= t ->
        Curve_call unit_segment t = None).
Proof.
  apply (Curve_call_domain unit_segment (mkPoint 0 0 0) [mkPoint 1 0 0]).
  - reflexivity.
  - simpl; lia.
  - rewrite unit_segment_length; lra.
Defined.

(** C2 as stated fails: on the segment from (0,0,0) to (1,0,0), of length 1,
    the position at [t = L = 1] is [None], not the last control point. *)
Lemma Curve_call_at_total_length_is_None :
  (2 <= length (curve_nodes unit_segment))%nat
  /\ 0 < total_length unit_segment
  /\ last (curve_nodes unit_segment) origin = mkPoint 1 0 0
  /\ Curve_call unit_segment (total_length unit_segment) = None
  /\ Curve_call unit_segment (total_length unit_segment)
     <> Some (last (curve_nodes unit_segment) origin).
Proof.
  assert (HN : Curve_call unit_segment (total_length unit_segment) = None).
  { apply Curve_call_loop_beyond. unfold total_length. lra. }
  repeat split.
  - simpl; lia.
  - rewrite unit_segment_length; lra.
  - exact HN.
  - rewrite HN. discriminate.
Qed.

(** ** Helix generation along the axis *)

Lemma set_nodes_loop_finishes (h : Helix) (crv : Curve) (shift rotation : R)
  (fuel : nat) (t : R) (acc : list Point) :
  0 < gap h ->
  total_length crv - t <= INR fuel * gap h ->
  exists l, set_nodes_loop h crv shift rotation fuel t acc = Ok (acc ++ l).
Proof.
  intros Hgap. revert t acc.
  induction fuel as [| fuel IH]; intros t acc Hfuel.
  - simpl in Hfuel. simpl.
    unfold Curve_call. rewrite Curve_call_loop_beyond.
    + exists []. now rewrite app_nil_r.
    + unfold total_length in Hfuel. lra.
  - cbn [set_nodes_loop].
    destruct (Curve_call crv t) as [axis_point |] eqn:Hp.
    + destruct (Curve_get_vector crv t) as [axis_vector |] eqn:Hv.
      * rewrite S_INR in Hfuel.
        destruct (IH (t + gap h)
                    (acc ++ [helix_node h shift rotation t axis_point
                               axis_vector])) as [l Hl]; [lra |].
        rewrite Hl, <- app_assoc. simpl. eauto.
      * apply Curve_vector_defined_iff in Hv.
        unfold Curve_call in Hp. congruence.
    + exists []. now rewrite app_nil_r.
Qed.

Lemma set_nodes_fuel_enough (h : Helix) (crv : Curve) (shift : R) :
  0 < gap h ->
  total_length crv - shift <= INR (set_nodes_fuel h crv shift) * gap h.
Proof.
  intros Hgap. unfold set_nodes_fuel.
  set (x := (total_length crv - shift) / gap h).
  assert (Hx : total_length crv - shift = x * gap h)
    by (unfold x; field; lra).
  rewrite Hx. apply Rmult_le_compat_r; [lra |].
  destruct (archimed x) as [Hup _].
  destruct (Z_lt_le_dec (up x) 0) as [Hneg | Hpos].
  - apply IZR_lt in Hneg.
    pose proof (pos_INR (Z.to_nat (up x))). lra.
  - rewrite INR_IZR_INZ, Z2Nat.id by exact Hpos. lra.
Qed.

Lemma _set_nodes_returns (h : Helix) (crv : Curve) (shift rotation : R) :
  0 < gap h -> exists l, _set_nodes h crv shift rotation = Ok l.
Proof.
  intros Hgap. unfold _set_nodes.
  destruct (set_nodes_loop_finishes h crv shift rotation
              (set_nodes_fuel h crv shift) shift [] Hgap
              (set_nodes_fuel_enough h crv shift Hgap)) as [l Hl].
  exists l. exact Hl.
Qed.

Lemma _set_nodes_empty (h : Helix) (crv : Curve) (shift rotation : R) :
  total_length crv <= shift -> _set_nodes h crv shift rotation = Ok [].
Proof.
  intros H. unfold _set_nodes.
  destruct (set_nodes_fuel h crv shift); simpl;
    unfold Curve_call; now rewrite Curve_call_loop_beyond.
Qed.

Lemma normalize_is_scaling (w : Point) : exists k, normalize w = vscale k w.
Proof.
  unfold normalize. destruct (Req_EM_T (norm w) 0) as [_ | Hn].
  - exists 1. apply point_eq; simpl; ring.
  - exists (/ norm w). apply point_eq; simpl; unfold Rdiv; ring.
Qed.

Lemma dot_cross_scaled_left (s : R) (v b : Point) :
  dot (cross (vscale s v) b) v = 0.
Proof. unfold dot, cross, vscale; simpl; ring. Qed.

Lemma dot_vscale_left (k : R) (a b : Point) :
  dot (vscale k a) b = k * dot a b.
Proof. unfold dot, vscale; simpl; ring. Qed.

(** The radial offset that [helix_node] adds to the axis point is orthogonal
    to the axis direction. *)
Lemma helix_node_offset_orthogonal (h : Helix) (shift rotation t : R)
  (axis_point v : Point) :
  dot (vsub (helix_node h shift rotation t axis_point v) axis_point) v = 0.
Proof.
  destruct (normalize_is_scaling v) as [s Hs].
  unfold helix_node. rewrite Hs.
  set (z_axis := vscale (-1) (vscale s v)).
  assert (Hz : z_axis = vscale (- s) v)
    by (apply point_eq; simpl; ring).
  destruct (normalize_is_scaling (cross z_axis (mkPoint 1 0 0))) as [ky Hy].
  rewrite Hy.
  set (y_axis := vscale (-1) (vscale ky (cross z_axis (mkPoint 1 0 0)))).
  destruct (normalize_is_scaling (cross z_axis y_axis)) as [kx Hx].
  rewrite Hx.
  assert (Hyv : dot y_axis v = 0).
  { unfold y_axis. rewrite !dot_vscale_left, Hz, dot_cross_scaled_left. ring. }
  assert (Hxv : dot (vscale (-1) (vscale kx (cross z_axis y_axis))) v = 0).
  { rewrite !dot_vscale_left, Hz, dot_cross_scaled_left. ring. }
  revert Hyv Hxv.
  generalize (vscale (-1) (vscale kx (cross z_axis y_axis))) as x_axis.
  generalize y_axis z_axis. clear.
  intros y_axis z_axis x_axis Hyv Hxv.
  set (a := r h * sin (c h * t - shift + rotation)).
  set (b := r h * cos (c h * t - shift + rotation)).
  replace (dot (vsub (vadd axis_point
                        (vec_mat (mkPoint a b 0) x_axis y_axis z_axis))
                     axis_point) v)
    with (a * dot x_axis v + b * dot y_axis v + 0 * dot z_axis v)
    by (unfold dot, vsub, vec_mat, vadd, vscale; simpl; ring).
  rewrite Hyv, Hxv. ring.
Qed.

(** C9.  On a curve whose first segment has positive length, a negative arc
    length is answered, not refused: the position is the first segment
    extended backwards, first point plus [t / length] times the segment
    vector, and the direction is the segment vector.  So the generation loop
    of [_set_nodes], started at a negative [shift], returns a list whose
    first node sits behind the start of the axis: its offset from the first
    control point has a negative component along the first segment. *)
Theorem Curve_negative_arc_length (h : Helix) (crv : Curve) (p0 p1 : Point)
  (rest : list Point) :
  curve_nodes crv = p0 :: p1 :: rest ->
  0 < norm (get_vector p0 p1) ->
  0 < gap h ->
  (forall t, t < 0 ->
     Curve_call crv t
     = Some (vadd p0 (vscale (t / norm (get_vector p0 p1)) (get_vector p0 p1)))
     /\ Curve_get_vector crv t = Some (get_vector p0 p1))
  /\ (forall shift rotation, shift < 0 ->
        exists first others,
          _set_nodes h crv shift rotation = Ok (first :: others)
          /\ first
             = helix_node h shift rotation shift
                 (vadd p0 (vscale (shift / norm (get_vector p0 p1))
                                  (get_vector p0 p1)))
                 (get_vector p0 p1)
          /\ dot (vsub first p0) (get_vector p0 p1) < 0).
Proof.
  intros E Hd Hgap.
  set (v := get_vector p0 p1) in *.
  assert (Hneg : forall t, t < 0 ->
     Curve_call crv t = Some (vadd p0 (vscale (t / norm v) v))
     /\ Curve_get_vector crv t = Some v).
  { intros t Ht. unfold Curve_call, Curve_get_vector. rewrite E.
    rewrite Curve_call_loop_cons, Curve_get_vector_loop_cons. fold v.
    destruct (Rlt_dec t (norm v)); [split; reflexivity | lra]. }
  split; [exact Hneg |].
  intros shift rotation Hshift.
  destruct (Hneg shift Hshift) as [Hp Hv].
  pose proof (set_nodes_fuel_enough h crv shift Hgap) as Hfuel.
  unfold _set_nodes.
  destruct (set_nodes_fuel h crv shift) as [| fuel].
  { simpl in Hfuel. pose proof (polyline_length_nonneg (curve_nodes crv)).
    unfold total_length in Hfuel. lra. }
  cbn [set_nodes_loop]. rewrite Hp, Hv.
  rewrite S_INR in Hfuel.
  set (axis_point := vadd p0 (vscale (shift / norm v) v)).
  destruct (set_nodes_loop_finishes h crv shift rotation fuel (shift + gap h)
              ([] ++ [helix_node h shift rotation shift axis_point v]) Hgap)
    as [l Hl]; [lra |].
  rewrite Hl. simpl.
  exists (helix_node h shift rotation shift axis_point v), l.
  split; [reflexivity | split; [reflexivity |]].
  pose proof (helix_node_offset_orthogonal h shift rotation shift axis_point v)
    as Horth.
  pose proof (norm_sqr v) as Hsq.
  assert (Hax : dot (vsub axis_point p0) v = shift * norm v).
  { unfold axis_point.
    replace (dot (vsub (vadd p0 (vscale (shift / norm v) v)) p0) v)
      with (shift / norm v * dot v v)
      by (unfold dot, vsub, vadd, vscale; simpl; ring).
    rewrite <- Hsq. field. lra. }
  replace (dot (vsub (helix_node h shift rotation shift axis_point v) p0) v)
    with (dot (vsub (helix_node h shift rotation shift axis_point v)
                    axis_point) v
          + dot (vsub axis_point p0) v)
    by (unfold dot, vsub; simpl; ring).
  rewrite Horth, Hax. nra.
Qed.

Lemma unit_segment_norm :
  norm (get_vector (mkPoint 0 0 0) (mkPoint 1 0 0)) = 1.
Proof.
  unfold norm, get_vector; simpl.
  replace ((1 - 0) * (1 - 0) + (0 - 0) * (0 - 0) + (0 - 0) * (0 - 0)) with 1
    by ring.
  apply sqrt_1.
Qed.

Lemma Curve_negative_arc_length_witness :
  (forall t, t < 0 ->
     Curve_call unit_segment t
     = Some (vadd (mkPoint 0 0 0)
               (vscale (t / norm (get_vector (mkPoint 0 0 0) (mkPoint 1 0 0)))
                  (get_vector (mkPoint 0 0 0) (mkPoint 1 0 0))))
     /\ Curve_get_vector unit_segment t
        = Some (get_vector (mkPoint 0 0 0) (mkPoint 1 0 0)))
  /\ (forall shift rotation, shift < 0 ->
        exists first others,
          _set_nodes default_helix unit_segment shift rotation
          = Ok (first :: others)
          /\ first
             = helix_node default_helix shift rotation shift
                 (vadd (mkPoint 0 0 0)
                    (vscale
                       (shift / norm (get_vector (mkPoint 0 0 0) (mkPoint 1 0 0)))
                       (get_vector (mkPoint 0 0 0) (mkPoint 1 0 0))))
                 (get_vector (mkPoint 0 0 0) (mkPoint 1 0 0))
          /\ dot (vsub first (mkPoint 0 0 0))
                 (get_vector (mkPoint 0 0 0) (mkPoint 1 0 0)) < 0).
Proof.
  apply (Curve_negative_arc_length default_helix unit_segment
           (mkPoint 0 0 0) (mkPoint 1 0 0) []).
  - reflexivity.
  - rewrite unit_segment_norm; lra.
  - simpl; lra.
Defined.

(** ** Results *)

Lemma bind_Ok_inv {A B : Type} (m : result A) (k : A -> result B) (b : B) :
  bind m k = Ok b -> exists a, m = Ok a /\ k a = Ok b.
Proof. destruct m; simpl; intros H; try discriminate. eauto. Qed.

Lemma bind_finishes {A B : Type} (m : result A) (k : A -> result B) :
  finishes m -> (forall a, m = Ok a -> finishes (k a)) -> finishes (bind m k).
Proof.
  unfold finishes. destruct m; simpl; intros Hm Hk.
  - now apply Hk.
  - discriminate.
  - congruence.
Qed.

Lemma Ok_finishes {A : Type} (a : A) : finishes (Ok a).
Proof. discriminate. Qed.

Lemma Raise_finishes {A : Type} (e : exn) : finishes (@Raise A e).
Proof. discriminate. Qed.

Create HintDb finishes.
#[local] Hint Resolve Ok_finishes Raise_finishes : finishes.

Lemma py_index_finishes {A : Type} (l : list A) (j : Z) :
  finishes (py_index l j).
Proof.
  unfold py_index.
  destruct (_ && _); auto with finishes.
  destruct (nth_error _ _); auto with finishes.
Qed.

Lemma py_step_finishes {A : Type} (l : list A) (step : nat) :
  finishes (py_step l step).
Proof. destruct step; simpl; auto with finishes. Qed.

Lemma py_del_finishes {A : Type} (l : list A) (i : nat) :
  finishes (py_del l i).
Proof. unfold py_del. destruct (_ <? _)%nat; auto with finishes. Qed.

Lemma get_centroid_finishes (l : list Point) : finishes (get_centroid l).
Proof. unfold get_centroid. destruct (length l); auto with finishes. Qed.

#[local] Hint Resolve py_index_finishes py_step_finishes py_del_finishes
  get_centroid_finishes : finishes.

Lemma new_Curve_finishes (l : list Point) (flatten : nat) :
  finishes (new_Curve l flatten).
Proof.
  unfold new_Curve.
  apply bind_finishes; [auto with finishes | intros kept _].
  apply bind_finishes; auto with finishes.
Qed.

Lemma screw_axis_scan_finishes (h : Helix) (l interval centroids : list Point) :
  finishes (screw_axis_scan h l interval centroids).
Proof.
  revert interval centroids.
  induction l as [| node rest IH]; intros interval centroids; simpl;
    [auto with finishes |].
  destruct (min_interval_size h <=? _)%nat; [| apply IH].
  apply bind_finishes; [auto with finishes | intros; apply IH].
Qed.

Lemma screw_axis_shrink_finishes (h : Helix) (interval centroids : list Point) :
  finishes (screw_axis_shrink h interval centroids).
Proof.
  revert centroids.
  induction interval as [| x interval IH]; intros centroids;
    cbn [screw_axis_shrink].
  - destruct (_ <=? _)%nat; auto with finishes.
  - destruct (_ <=? _)%nat; [| auto with finishes].
    apply bind_finishes; [auto with finishes | intros; apply IH].
Qed.

Lemma _set_screw_axis_finishes (h : Helix) (l : list Point) :
  finishes (_set_screw_axis h l).
Proof.
  unfold _set_screw_axis, screw_axis_centroids.
  apply bind_finishes; [| intros; apply new_Curve_finishes].
  apply bind_finishes;
    [apply screw_axis_scan_finishes | intros; apply screw_axis_shrink_finishes].
Qed.

Lemma get_node_max_angle_finishes (crv : Curve) (max_angle : R) (size : nat) :
  finishes (get_node_max_angle crv max_angle size).
Proof.
  unfold get_node_max_angle.
  generalize (repeat 0%Z size) as current.
  generalize (seq 1 (length (curve_nodes crv) - 2)) as indices.
  induction indices as [| i rest IH]; intros current;
    cbn [get_node_max_angle_loop]; [auto with finishes |].
  destruct size; [auto with finishes |].
  destruct (Rlt_dec _ _); [auto with finishes | apply IH].
Qed.

Lemma get_avg_offset_finishes (l1 l2 : list Point) :
  finishes (get_avg_offset l1 l2).
Proof. unfold get_avg_offset. destruct (length l1); auto with finishes. Qed.

Lemma _set_nodes_finishes (h : Helix) (crv : Curve) (shift rotation : R) :
  0 < gap h -> finishes (_set_nodes h crv shift rotation).
Proof.
  intros Hgap.
  destruct (_set_nodes_returns h crv shift rotation Hgap) as [l ->].
  auto with finishes.
Qed.

Section FitFinishes.

Variable minimize : (R * R -> result R) -> R * R -> R * R.
Variable h : Helix.
Hypothesis gap_positive : 0 < gap h.

Lemma evaluate_params_finishes (crv : Curve) (l : list Point) (x : R * R) :
  finishes (evaluate_params h crv l x).
Proof.
  unfold evaluate_params.
  apply bind_finishes;
    [now apply _set_nodes_finishes | intros; apply get_avg_offset_finishes].
Qed.

Lemma fit_search_finishes (crv : Curve) (l : list Point) :
  finishes (fit_search minimize h crv l).
Proof.
  unfold fit_search.
  repeat (apply bind_finishes; [apply evaluate_params_finishes | intros ? _]).
  auto with finishes.
Qed.

Lemma fit_accept_finishes (crv : Curve) (l : list Point) (best : R * R) :
  finishes (fit_accept h crv l best).
Proof.
  unfold fit_accept.
  apply bind_finishes; [now apply _set_nodes_finishes | intros ? _].
  apply bind_finishes; [apply get_avg_offset_finishes | intros ? _].
  destruct (Rlt_dec _ _); [destruct (Rle_dec _ _) |]; auto with finishes.
Qed.

Lemma fit_finishes (l : list Point) : finishes (fit minimize h l).
Proof.
  unfold fit.
  apply bind_finishes; [apply _set_screw_axis_finishes | intros crv _].
  apply bind_finishes; [apply get_node_max_angle_finishes | intros [node |] _].
  - auto with finishes.
  - apply bind_finishes;
      [apply fit_search_finishes | intros; apply fit_accept_finishes].
Qed.

End FitFinishes.

(** ** Acceptance band and edges *)

Lemma Int_part_interval (x : R) (z : Z) :
  IZR z <= x < IZR z + 1 -> Int_part x = z.
Proof.
  intros [Hlo Hhi]. unfold Int_part.
  assert (Hup : (z + 1)%Z = up x).
  { apply tech_up; rewrite plus_IZR; lra. }
  rewrite <- Hup. lia.
Qed.

Lemma float_to_int_interval (x : R) (z : Z) :
  0 <= x -> IZR z <= x < IZR z + 1 -> float_to_int x = z.
Proof.
  intros H0 Hz. unfold float_to_int.
  destruct (Rle_dec 0 x); [now apply Int_part_interval | contradiction].
Qed.

Lemma edge_length_default : edge_length default_helix = 1%nat.
Proof.
  unfold edge_length.
  rewrite (float_to_int_interval _ 1%Z); [reflexivity | |];
    simpl; lra.
Qed.

Lemma floor_edge_default :
  Z.to_nat (Int_part (INR (min_interval_size default_helix) / 2 - 0.1)) = 1%nat.
Proof.
  rewrite (Int_part_interval _ 1%Z); [reflexivity |]. simpl; lra.
Qed.

(** [l[-e:]] for [e >= 1] is the last [e] elements. *)
Lemma py_suffix_neg_last {A : Type} (l : list A) (e : nat) :
  (1 <= e)%nat -> py_suffix_neg l e = skipn (length l - e) l.
Proof.
  intros He. unfold py_suffix_neg, slice_bound.
  destruct (Z.ltb_spec (- Z.of_nat e) 0); [| lia].
  f_equal. lia.
Qed.

(** [l[-0:]] is the whole list, not the empty one. *)
Lemma py_suffix_neg_zero {A : Type} (l : list A) : py_suffix_neg l 0 = l.
Proof.
  unfold py_suffix_neg, slice_bound. simpl.
  now rewrite Z.min_l by lia.
Qed.

Lemma _set_edges_default (original generated : list Point) :
  _set_edges default_helix original generated
  = firstn 1 original ++ generated ++ skipn (length original - 1) original.
Proof.
  unfold _set_edges, py_prefix. rewrite edge_length_default.
  now rewrite py_suffix_neg_last by lia.
Qed.

Lemma fit_accept_inv (h : Helix) (crv : Curve) (l : list Point) (best : R * R)
  (res : list Point) :
  fit_accept h crv l best = Ok res ->
  exists generated d,
    _set_nodes h crv (fst best) (snd best) = Ok generated
    /\ get_avg_offset l generated = Ok d
    /\ (0.8 < d <= 1.7 -> res = _set_edges h l generated)
    /\ (d <= 0.8 \/ 1.7 < d -> res = l).
Proof.
  unfold fit_accept. intros H.
  apply bind_Ok_inv in H as (generated & Hg & H).
  apply bind_Ok_inv in H as (d & Hd & H).
  exists generated, d. repeat split; try assumption.
  - intros [Hlo Hhi].
    destruct (Rlt_dec 0.8 d); [| lra]. destruct (Rle_dec d 1.7); [| lra].
    congruence.
  - intros Hout.
    destruct (Rlt_dec 0.8 d); [destruct (Rle_dec d 1.7) |];
      try congruence; lra.
Qed.

Lemma fit_Ok_inv (minimize : (R * R -> result R) -> R * R -> R * R)
  (h : Helix) (l res : list Point) :
  fit minimize h l = Ok res ->
  exists screw_axis best,
    _set_screw_axis h l = Ok screw_axis
    /\ get_node_max_angle screw_axis 80 3 = Ok None
    /\ fit_search minimize h screw_axis l = Ok best
    /\ fit_accept h screw_axis l best = Ok res.
Proof.
  unfold fit. intros H.
  apply bind_Ok_inv in H as (screw_axis & Ha & H).
  apply bind_Ok_inv in H as ([node |] & Hm & H); [discriminate |].
  apply bind_Ok_inv in H as (best & Hb & H).
  exists screw_axis, best. auto.
Qed.

Lemma get_avg_offset_returns (l generated : list Point) :
  l <> [] -> exists d, get_avg_offset l generated = Ok d.
Proof.
  intros Hne. unfold get_avg_offset.
  destruct l; [contradiction |]. cbn [length]. eauto.
Qed.

Lemma evaluate_params_returns (h : Helix) (crv : Curve) (l : list Point)
  (x : R * R) :
  0 < gap h -> l <> [] -> exists k, evaluate_params h crv l x = Ok k.
Proof.
  intros Hgap Hne. unfold evaluate_params.
  destruct (_set_nodes_returns h crv (fst x) (snd x) Hgap) as [g ->].
  cbn [bind]. now apply get_avg_offset_returns.
Qed.

Lemma fit_search_returns
  (minimize : (R * R -> result R) -> R * R -> R * R) (h : Helix)
  (crv : Curve) (l : list Point) :
  0 < gap h -> l <> [] ->
  exists best, fit_search minimize h crv l = Ok best.
Proof.
  intros Hgap Hne. unfold fit_search.
  repeat match goal with
  | |- context [bind (evaluate_params h crv l ?x) _] =>
      let k := fresh "k" in
      destruct (evaluate_params_returns h crv l x Hgap Hne) as [k ->];
      cbn [bind]
  end.
  eauto.
Qed.

Lemma _set_screw_axis_nonempty (h : Helix) (l : list Point) (crv : Curve) :
  _set_screw_axis h l = Ok crv -> l <> [].
Proof.
  intros H ->. unfold _set_screw_axis, screw_axis_centroids in H.
  simpl in H.
  destruct (min_interval_size h <=? 0)%nat; simpl in H; [discriminate |].
  unfold new_Curve in H. destruct (py_step _ _); simpl in H; discriminate.
Qed.

(** C1.  For the helix the controller builds ([min_interval_size] 3, so
    [e = floor(3/2 - 0.1) = 1]) and every input list on which [Helix.fit]
    gets as far as the parameter search (the screw axis is built and passes
    the curvature screen): the search returns a best (shift, rotation), the
    nodes [generated] at it and [d = get_avg_offset(input, generated)] are
    defined, and [Helix.fit] returns the first [e] input points, then
    [generated], then the last [e] input points if [0.8 < d <= 1.7], and
    the input list unchanged if [d <= 0.8] or [d > 1.7]. *)
Theorem fit_acceptance_band
  (minimize : (R * R -> result R) -> R * R -> R * R) (input : list Point)
  (screw_axis : Curve) :
  let h := default_helix in
  let e := Z.to_nat (Int_part (INR (min_interval_size h) / 2 - 0.1)) in
  _set_screw_axis h input = Ok screw_axis ->
  get_node_max_angle screw_axis 80 3 = Ok None ->
  exists best generated d,
    fit_search minimize h screw_axis input = Ok best
    /\ _set_nodes h screw_axis (fst best) (snd best) = Ok generated
    /\ get_avg_offset input generated = Ok d
    /\ (0.8 < d <= 1.7 ->
          fit minimize h input
          = Ok (firstn e input ++ generated
                  ++ skipn (length input - e) input))
    /\ (d <= 0.8 \/ 1.7 < d -> fit minimize h input = Ok input).
Proof.
  intros h e Ha Hm.
  assert (Hgap : 0 < gap h) by (simpl; lra).
  pose proof (_set_screw_axis_nonempty h input screw_axis Ha) as Hne.
  destruct (fit_search_returns minimize h screw_axis input Hgap Hne)
    as [best Hb].
  destruct (_set_nodes_returns h screw_axis (fst best) (snd best) Hgap)
    as [generated Hg].
  destruct (get_avg_offset_returns input generated Hne) as [d Hd].
  exists best, generated, d.
  assert (Hfit : fit minimize h input
                 = if Rlt_dec 0.8 d
                   then if Rle_dec d 1.7
                        then Ok (_set_edges h input generated)
                        else Ok input
                   else Ok input).
  { unfold fit. rewrite Ha. cbn [bind]. rewrite Hm. cbn [bind].
    rewrite Hb. cbn [bind]. unfold fit_accept.
    rewrite Hg. cbn [bind]. rewrite Hd. reflexivity. }
  repeat split; try assumption.
  - intros [Hlo Hhi]. rewrite Hfit.
    destruct (Rlt_dec 0.8 d); [| lra]. destruct (Rle_dec d 1.7); [| lra].
    unfold e, h. now rewrite floor_edge_default, _set_edges_default.
  - intros Hout. rewrite Hfit.
    destruct (Rlt_dec 0.8 d); [destruct (Rle_dec d 1.7) |];
      reflexivity || lra.
Qed.

(** ** Average offset against an empty list *)

Lemma sum_of_minus_ones (l : list Point) (s : R) :
  fold_left (fun s node1 => s + closest_distance_to node1 []) l s
  = s - INR (length l).
Proof.
  revert s; induction l as [| x l IH]; intros s.
  - simpl. ring.
  - cbn [fold_left]. rewrite IH. cbn [length]. rewrite S_INR.
    unfold closest_distance_to. simpl. ring.
Qed.

Lemma get_avg_offset_empty_left (nodes2 : list Point) :
  get_avg_offset [] nodes2 = Raise ZeroDivisionError.
Proof. reflexivity. Qed.

Lemma get_avg_offset_empty_right (nodes1 : list Point) :
  nodes1 <> [] -> get_avg_offset nodes1 [] = Ok (-1).
Proof.
  intros Hne. unfold get_avg_offset. rewrite sum_of_minus_ones.
  destruct nodes1 as [| x l]; [contradiction |].
  cbn [length]. f_equal. field.
  apply not_0_INR. discriminate.
Qed.

(** C10.  [get_avg_offset] divides by the length of its first list: with an
    empty first list it raises [ZeroDivisionError]; with a nonempty first
    list and an empty second list every nearest distance keeps the sentinel
    -1 and the average is -1.  So when the nodes generated at the best
    parameters are the empty list, the offset -1 is outside (0.8, 1.7] and
    [Helix.fit] keeps the input nodes. *)
Theorem get_avg_offset_empty_generated :
  (forall nodes2, get_avg_offset [] nodes2 = Raise ZeroDivisionError)
  /\ (forall nodes1, nodes1 <> [] -> get_avg_offset nodes1 [] = Ok (-1))
  /\ (forall minimize h input screw_axis best,
        _set_screw_axis h input = Ok screw_axis ->
        get_node_max_angle screw_axis 80 3 = Ok None ->
        fit_search minimize h screw_axis input = Ok best ->
        _set_nodes h screw_axis (fst best) (snd best) = Ok [] ->
        fit minimize h input = Ok input).
Proof.
  split; [exact get_avg_offset_empty_left |].
  split; [exact get_avg_offset_empty_right |].
  intros minimize h input screw_axis best Ha Hm Hb Hg.
  unfold fit. rewrite Ha. simpl. rewrite Hm. simpl. rewrite Hb. simpl.
  unfold fit_accept. rewrite Hg. simpl.
  rewrite get_avg_offset_empty_right
    by (eapply _set_screw_axis_nonempty; eassumption).
  simpl. destruct (Rlt_dec 0.8 (-1)); [lra | reflexivity].
Qed.

(** ** Index rebasing *)

Lemma update_range_spec (node_start diff a b : Z) :
  update_range node_start diff (a, b)
  = ((if Z_lt_dec node_start a then a + diff else a)%Z,
     (if Z_lt_dec node_start b then b + diff else b)%Z).
Proof.
  unfold update_range; simpl.
  destruct (Z.gtb_spec a node_start), (Z_lt_dec node_start a);
    destruct (Z.gtb_spec b node_start), (Z_lt_dec node_start b);
    reflexivity || lia.
Qed.

Lemma update_range_zero (node_start : Z) (node_range : Range) :
  update_range node_start 0 node_range = node_range.
Proof.
  destruct node_range as [a b]. unfold update_range; simpl.
  rewrite !Z.add_0_r. now destruct (a >? node_start)%Z, (b >? node_start)%Z.
Qed.

(** C4.  [update_sec_structure] keeps the number and order of the ranges;
    in each range it adds [diff] to exactly the boundaries (start, end)
    strictly greater than [node_start] and leaves the boundaries less than or
    equal to [node_start] as they are; with [diff = 0] the list is
    unchanged. *)
Theorem update_sec_structure_rebases (sec_structure : list Range)
  (node_start diff : Z) :
  length (update_sec_structure sec_structure node_start diff)
  = length sec_structure
  /\ (forall k a b,
        nth_error sec_structure k = Some (a, b) ->
        exists a' b',
          nth_error (update_sec_structure sec_structure node_start diff) k
          = Some (a', b')
          /\ (node_start < a -> a' = a + diff)%Z
          /\ (a <= node_start -> a' = a)%Z
          /\ (node_start < b -> b' = b + diff)%Z
          /\ (b <= node_start -> b' = b)%Z)
  /\ update_sec_structure sec_structure node_start 0 = sec_structure.
Proof.
  unfold update_sec_structure. split; [apply length_map |]. split.
  - intros k a b Hk.
    rewrite nth_error_map, Hk. simpl. rewrite update_range_spec.
    eexists _, _. split; [reflexivity |].
    destruct (Z_lt_dec node_start a), (Z_lt_dec node_start b);
      repeat split; intros; reflexivity || lia.
  - induction sec_structure as [| x l IH]; simpl; [reflexivity |].
    now rewrite update_range_zero, IH.
Qed.

(** ** Splitting a helix range *)

Lemma py_index_in_range {A : Type} (l : list A) (j : Z) (d : A) :
  (0 <= j < Z.of_nat (length l))%Z ->
  py_index l j = Ok (nth (Z.to_nat j) l d).
Proof.
  intros Hj. unfold py_index.
  destruct (Z.ltb_spec j 0); [lia |].
  destruct (Z.leb_spec 0 j); [| lia].
  destruct (Z.ltb_spec j (Z.of_nat (length l))); [| lia].
  simpl.
  destruct (nth_error l (Z.to_nat j)) eqn:E.
  - now rewrite (nth_error_nth _ _ _ E).
  - apply nth_error_None in E. lia.
Qed.

Lemma py_index_nat {A : Type} (l : list A) (i : nat) (x : A) :
  nth_error l i = Some x -> py_index l (Z.of_nat i) = Ok x.
Proof.
  intros E.
  assert (i < length l)%nat by (apply nth_error_Some; congruence).
  rewrite (py_index_in_range l _ x) by lia.
  rewrite Nat2Z.id. now rewrite (nth_error_nth _ _ _ E).
Qed.

Lemma py_range_cons (a b : Z) :
  (a < b)%Z -> py_range a b = a :: py_range (a + 1) b.
Proof.
  intros H. unfold py_range.
  replace (Z.to_nat (b - a)) with (S (Z.to_nat (b - (a + 1)))) by lia.
  cbn [seq map]. rewrite <- seq_shift, map_map.
  f_equal; [lia |]. apply map_ext. intros k. lia.
Qed.

Lemma py_range_nil (a b : Z) : (b <= a)%Z -> py_range a b = [].
Proof.
  intros H. unfold py_range.
  now replace (Z.to_nat (b - a)) with 0%nat by lia.
Qed.

Section ClosestNode.

Variable node : Point.
Variable chain_nodes : list Point.

Local Abbreviation node_distance := (node_distance node chain_nodes).
Local Abbreviation first_nearest := (first_nearest node chain_nodes).

Lemma closest_node_loop_scan (start stop : Z) (n : nat) :
  forall j best,
    (0 <= start)%Z -> (stop <= Z.of_nat (length chain_nodes))%Z ->
    (start < j)%Z -> (j + Z.of_nat n = stop)%Z ->
    first_nearest start j best ->
    exists best',
      closest_node_loop node chain_nodes (py_range j stop) best
        (Some (node_distance best))
      = Ok (best', Some (node_distance best'))
      /\ first_nearest start stop best'.
Proof.
  induction n as [| n IH]; intros j best H0 Hlen Hj Hn Hinv.
  - rewrite py_range_nil by lia. simpl.
    exists best. split; [reflexivity |].
    now replace stop with j by lia.
  - rewrite py_range_cons by lia. cbn [closest_node_loop].
    rewrite (py_index_in_range chain_nodes j origin) by lia.
    cbn [bind]. fold (node_at chain_nodes (Z.to_nat j)).
    fold (node_distance j).
    destruct Hinv as (Hb & Hmin & Hfirst).
    destruct (Rlt_dec (node_distance j) (node_distance best)) as [Hlt | Hge].
    + apply IH; try lia.
      split; [lia |]. split.
      * intros k Hk. destruct (Z.eq_dec k j) as [-> | Hne]; [lra |].
        specialize (Hmin k ltac:(lia)). lra.
      * intros k Hk. specialize (Hmin k ltac:(lia)). lra.
    + apply IH; try lia.
      split; [lia |]. split.
      * intros k Hk. destruct (Z.eq_dec k j) as [-> | Hne]; [lra |].
        apply Hmin. lia.
      * exact Hfirst.
Qed.

Lemma closest_node_loop_spec (start stop : Z) :
  (0 <= start)%Z -> (stop <= Z.of_nat (length chain_nodes))%Z ->
  (start < stop)%Z ->
  exists best,
    closest_node_loop node chain_nodes (py_range start stop) (-1)%Z None
    = Ok (best, Some (node_distance best))
    /\ first_nearest start stop best.
Proof.
  intros H0 Hlen Hlt.
  rewrite py_range_cons by lia. cbn [closest_node_loop].
  rewrite (py_index_in_range chain_nodes start origin) by lia.
  cbn [bind]. fold (node_at chain_nodes (Z.to_nat start)).
  fold (node_distance start).
  apply (closest_node_loop_scan start stop (Z.to_nat (stop - (start + 1))));
    try lia.
  split; [lia |]. split.
  - intros k Hk. replace k with start by lia. lra.
  - intros k Hk. lia.
Qed.

End ClosestNode.

Lemma py_insert_at_length {A : Type} (a b : list A) (x : A) :
  py_insert (a ++ b) (length a) x = a ++ x :: b.
Proof.
  unfold py_insert.
  rewrite firstn_app, skipn_app, Nat.sub_diag, firstn_all, skipn_all.
  simpl. now rewrite app_nil_r.
Qed.

Lemma del_then_insert_two {A : Type} (l : list A) (i : nat) (x y z : A) :
  nth_error l i = Some x ->
  exists l1,
    py_del l i = Ok l1
    /\ py_insert (py_insert l1 i z) i y
       = firstn i l ++ [y; z] ++ skipn (S i) l.
Proof.
  intros E.
  assert (Hi : (i < length l)%nat) by (apply nth_error_Some; congruence).
  unfold py_del. destruct (Nat.ltb_spec i (length l)); [| lia].
  eexists; split; [reflexivity |].
  assert (Hlen : length (firstn i l) = i) by (rewrite length_firstn; lia).
  revert Hlen. generalize (firstn i l) as a, (skipn (S i) l) as b.
  intros a b <-.
  now rewrite !py_insert_at_length.
Qed.

(** C3.  For a helix entry [start, stop) at position [i] of a chain, lying
    inside the chain's nodes and holding at least two nodes:
    [split_helix_at_node] returns, and replaces the entry, at position [i],
    by [start, closest) followed by [closest, stop), where [closest] is the
    first index of the range whose node is nearest to [node] in Euclidean
    distance, plus one when that index is [start].  Both parts are nonempty,
    every index of the range is in one of them, and no index is in both.
    Nodes and sheets are not touched. *)
Theorem split_helix_at_node_partition (node : Point) (chain : Chain) (i : nat)
  (start stop : Z) :
  nth_error (helices chain) i = Some (start, stop) ->
  (0 <= start)%Z ->
  (stop <= Z.of_nat (length (nodes chain)))%Z ->
  (2 <= stop - start)%Z ->
  exists nearest closest,
    first_nearest node (nodes chain) start stop nearest
    /\ closest = (if Z.eq_dec nearest start then nearest + 1 else nearest)%Z
    /\ split_helix_at_node node chain i
       = Ok (mkChain (nodes chain) (sheets chain)
               (firstn i (helices chain)
                  ++ [(start, closest); (closest, stop)]
                  ++ skipn (S i) (helices chain)))
    /\ (start < closest < stop)%Z
    /\ (forall j, (start <= j < stop)%Z
                  <-> (start <= j < closest)%Z \/ (closest <= j < stop)%Z)
    /\ (forall j, ~ ((start <= j < closest)%Z /\ (closest <= j < stop)%Z)).
Proof.
  intros E H0 Hlen Hsize.
  destruct (closest_node_loop_spec node (nodes chain) start stop H0 Hlen
              ltac:(lia)) as (nearest & Hloop & Hnear).
  exists nearest, (if Z.eq_dec nearest start then nearest + 1 else nearest)%Z.
  pose proof Hnear as ((Hlo & Hhi) & _).
  set (closest := (if Z.eq_dec nearest start then nearest + 1 else nearest)%Z).
  assert (Hc : (start < closest < stop)%Z).
  { unfold closest. destruct (Z.eq_dec nearest start); lia. }
  split; [exact Hnear |]. split; [reflexivity |]. split.
  - unfold split_helix_at_node.
    rewrite (py_index_nat _ _ _ E). cbn [bind fst snd].
    rewrite Hloop. cbn [bind fst snd].
    replace (if (start =? nearest)%Z then (nearest + 1)%Z else nearest)
      with closest
      by (unfold closest; destruct (Z.eqb_spec start nearest),
            (Z.eq_dec nearest start); congruence).
    destruct (del_then_insert_two (helices chain) i (start, stop)
                (start, closest) (closest, stop) E) as (l1 & Hdel & Hins).
    rewrite Hdel. cbn [bind]. now rewrite Hins.
  - split; [exact Hc |]. split; intros j; lia.
Qed.

Lemma split_helix_at_node_partition_witness :
  exists nearest closest,
    first_nearest origin (nodes three_node_chain) 0 3 nearest
    /\ closest = (if Z.eq_dec nearest 0 then nearest + 1 else nearest)%Z
    /\ split_helix_at_node origin three_node_chain 0
       = Ok (mkChain (nodes three_node_chain) (sheets three_node_chain)
               (firstn 0 (helices three_node_chain)
                  ++ [(0, closest); (closest, 3)]%Z
                  ++ skipn 1 (helices three_node_chain)))
    /\ (0 < closest < 3)%Z
    /\ (forall j, (0 <= j < 3)%Z
                  <-> (0 <= j < closest)%Z \/ (closest <= j < 3)%Z)
    /\ (forall j, ~ ((0 <= j < closest)%Z /\ (closest <= j < 3)%Z)).
Proof.
  apply (split_helix_at_node_partition origin three_node_chain 0 0 3).
  - reflexivity.
  - lia.
  - simpl; lia.
  - lia.
Defined.

(** ** Screw axis: the centroid windows *)

Lemma lastn_app_lastn {A : Type} (k : nat) (a b : list A) :
  lastn k (lastn k a ++ b) = lastn k (a ++ b).
Proof.
  unfold lastn.
  set (n := (length a - k)%nat).
  assert (Hs : skipn n a ++ b = skipn n (a ++ b)).
  { rewrite skipn_app.
    now replace (n - length a)%nat with 0%nat by (unfold n; lia). }
  rewrite Hs, skipn_skipn. f_equal.
  rewrite length_skipn, !length_app. unfold n. lia.
Qed.

Lemma lastn_length {A : Type} (k : nat) (l : list A) :
  length (lastn k l) = Nat.min k (length l).
Proof. unfold lastn. rewrite length_skipn. lia. Qed.

Lemma get_centroid_nonempty (l : list Point) :
  l <> [] -> exists p, get_centroid l = Ok p.
Proof.
  destruct l as [| x l]; [contradiction |]. intros _.
  unfold get_centroid. cbn [length]. eauto.
Qed.

Section ScrewAxis.

Variable h : Helix.
Hypothesis min_positive : (1 <= min_interval_size h)%nat.

Lemma screw_axis_scan_interval (l interval centroids : list Point) :
  (length interval <= interval_size h)%nat ->
  exists centroids',
    screw_axis_scan h l interval centroids
    = Ok (lastn (interval_size h) (interval ++ l), centroids').
Proof.
  revert interval centroids.
  induction l as [| node rest IH]; intros interval centroids Hlen.
  - simpl. rewrite app_nil_r. unfold lastn.
    replace (length interval - interval_size h)%nat with 0%nat by lia.
    simpl. eauto.
  - cbn [screw_axis_scan].
    set (interval1 := interval ++ [node]).
    set (interval2 := if (interval_size h <? length interval1)%nat
                      then tl interval1 else interval1).
    assert (Hlen1 : length interval1 = S (length interval))
      by (unfold interval1; rewrite length_app; simpl; lia).
    assert (H2 : interval2 = lastn (interval_size h) interval1).
    { unfold interval2, lastn.
      destruct (Nat.ltb_spec (interval_size h) (length interval1)).
      - replace (length interval1 - interval_size h)%nat with 1%nat by lia.
        now destruct interval1.
      - now replace (length interval1 - interval_size h)%nat with 0%nat
          by lia. }
    assert (Hlen2 : (length interval2 <= interval_size h)%nat)
      by (rewrite H2, lastn_length; lia).
    assert (Hfinal : lastn (interval_size h) (interval2 ++ rest)
                     = lastn (interval_size h) (interval ++ node :: rest)).
    { rewrite H2, lastn_app_lastn. unfold interval1.
      now rewrite <- app_assoc. }
    destruct (Nat.leb_spec (min_interval_size h) (length interval2)).
    + destruct (get_centroid_nonempty interval2) as [p Hp].
      { intros E. rewrite E in *. simpl in *. lia. }
      rewrite Hp. cbn [bind].
      destruct (IH interval2 (centroids ++ [p]) Hlen2) as [cs Hcs].
      rewrite Hcs, Hfinal. eauto.
    + destruct (IH interval2 centroids Hlen2) as [cs Hcs].
      rewrite Hcs, Hfinal. eauto.
Qed.

Lemma screw_axis_shrink_last (interval centroids : list Point) :
  (2 <= min_interval_size h)%nat ->
  (min_interval_size h <= length interval)%nat ->
  exists front last_centroid,
    screw_axis_shrink h interval centroids = Ok (front ++ [last_centroid])
    /\ get_centroid (lastn (min_interval_size h - 1) interval)
       = Ok last_centroid.
Proof.
  intros Hmin. revert centroids.
  induction interval as [| x interval IH]; intros centroids Hlen;
    [simpl in Hlen; lia |].
  cbn [screw_axis_shrink].
  destruct (Nat.leb_spec (min_interval_size h) (length (x :: interval)));
    [| lia].
  cbn [length] in *.
  destruct (get_centroid_nonempty interval) as [p Hp].
  { intros E. rewrite E in *. simpl in *. lia. }
  rewrite Hp. cbn [bind].
  destruct (Nat.le_gt_cases (min_interval_size h) (length interval))
    as [Hle | Hgt].
  - destruct (IH (centroids ++ [p]) Hle) as (front & lc & Hs & Hc).
    exists front, lc. split; [exact Hs |].
    rewrite <- Hc. unfold lastn. cbn [length].
    now replace (S (length interval) - (min_interval_size h - 1))%nat
      with (S (length interval - (min_interval_size h - 1))) by lia.
  - exists centroids, p. split.
    + destruct interval as [| y interval']; [simpl in *; lia |].
      cbn [screw_axis_shrink].
      destruct (Nat.leb_spec (min_interval_size h) (length (y :: interval')));
        [lia | reflexivity].
    + rewrite <- Hp. unfold lastn. cbn [length].
      now replace (S (length interval) - (min_interval_size h - 1))%nat
        with 1%nat by lia.
Qed.

End ScrewAxis.

(** C7 (where the code departs from it).  With
    [2 <= min_interval_size <= interval_size] and an input of at least
    [min_interval_size] points, the centroid sequence is built without an
    exception and its last entry is the centroid of only the last
    [min_interval_size - 1] input points: the shrinking loop tests the window
    length before it drops the oldest point, not after. *)
Theorem screw_axis_last_centroid_window (h : Helix) (input : list Point) :
  (2 <= min_interval_size h)%nat ->
  (min_interval_size h <= interval_size h)%nat ->
  (min_interval_size h <= length input)%nat ->
  exists front last_centroid,
    screw_axis_centroids h input = Ok (front ++ [last_centroid])
    /\ get_centroid (lastn (min_interval_size h - 1) input) = Ok last_centroid
    /\ length (lastn (min_interval_size h - 1) input)
       = (min_interval_size h - 1)%nat.
Proof.
  intros Hmin Hsize Hlen.
  unfold screw_axis_centroids.
  destruct (screw_axis_scan_interval h ltac:(lia) input [] [])
    as [cs Hscan]; [simpl; lia |].
  rewrite Hscan. cbn [bind fst snd app].
  destruct (screw_axis_shrink_last h ltac:(lia)
              (lastn (interval_size h) input) cs Hmin)
    as (front & lc & Hs & Hc).
  { rewrite lastn_length. lia. }
  exists front, lc. split; [exact Hs |]. split.
  - rewrite <- Hc. f_equal. unfold lastn.
    rewrite skipn_skipn, length_skipn. f_equal. lia.
  - rewrite lastn_length. lia.
Qed.

Lemma screw_axis_last_centroid_window_witness :
  exists front last_centroid,
    screw_axis_centroids default_helix (nodes three_node_chain)
    = Ok (front ++ [last_centroid])
    /\ get_centroid
         (lastn (min_interval_size default_helix - 1) (nodes three_node_chain))
       = Ok last_centroid
    /\ length
         (lastn (min_interval_size default_helix - 1) (nodes three_node_chain))
       = (min_interval_size default_helix - 1)%nat.
Proof.
  apply (screw_axis_last_centroid_window default_helix
           (nodes three_node_chain)); simpl; lia.
Defined.

(** ** Curvature screen *)

Lemma new_Curve_fifteen (c0 c1 c2 c3 c4 c5 c6 c7 c8 c9 c10 c11 c12 c13 c14 : Point) :
  new_Curve [c0; c1; c2; c3; c4; c5; c6; c7; c8; c9; c10; c11; c12; c13; c14] 4
  = Ok (mkCurve [c0; c4; c8; c12; c14]).
Proof. reflexivity. Qed.

Lemma bent_axis_built : _set_screw_axis default_helix bent_nodes = Ok bent_axis.
Proof.
  unfold _set_screw_axis, screw_axis_centroids, bent_nodes, default_helix.
  cbn -[INR cos sin bend Rplus Rmult Rdiv Rminus Ropp IZR new_Curve].
  rewrite new_Curve_fifteen.
  unfold bent_axis.
  do 2 f_equal.
  repeat (f_equal; [apply point_eq; cbn [px py pz INR]; field |]).
  f_equal. apply point_eq; cbn [px py pz INR]; field.
Qed.

Lemma norm_ux : norm ux = 1.
Proof.
  unfold norm, ux; simpl.
  replace (1 * 1 + 0 * 0 + 0 * 0) with 1 by ring. apply sqrt_1.
Qed.

Lemma norm_uw : norm uw = 1.
Proof.
  unfold norm, uw; simpl.
  replace (cos bend * cos bend + sin bend * sin bend + 0 * 0) with 1.
  - apply sqrt_1.
  - pose proof (sin2_cos2 bend) as H. unfold Rsqr in H. lra.
Qed.

Lemma normalize_unit (a : Point) : norm a = 1 -> normalize a = a.
Proof.
  intros H. unfold normalize. rewrite H.
  destruct (Req_EM_T 1 0); [reflexivity |].
  apply point_eq; simpl; field.
Qed.

Lemma clip_inside (x : R) : -1 <= x <= 1 -> clip x (-1) 1 = x.
Proof.
  intros [Hlo Hhi]. unfold clip.
  rewrite Rmax_left by lra. now rewrite Rmin_left by lra.
Qed.

Lemma angle_between_unit (a b : Point) :
  norm a = 1 -> norm b = 1 -> -1 <= dot a b <= 1 ->
  angle_between a b = acos (dot a b) * (180 / PI).
Proof.
  intros Ha Hb Hd. unfold angle_between.
  now rewrite !normalize_unit, clip_inside.
Qed.

Lemma bend_range : 0 <= bend <= PI.
Proof. unfold bend. pose proof PI_RGT_0. lra. Qed.

Lemma angle_ux_ux : angle_between ux ux = 0.
Proof.
  assert (Hd : dot ux ux = 1) by (unfold dot, ux; simpl; ring).
  rewrite angle_between_unit by (rewrite ?Hd; try apply norm_ux; lra).
  rewrite Hd, acos_1. ring.
Qed.

Lemma angle_uw_uw : angle_between uw uw = 0.
Proof.
  assert (Hd : dot uw uw = 1).
  { pose proof (sin2_cos2 bend) as H. unfold Rsqr in H.
    unfold dot, uw; simpl. lra. }
  rewrite angle_between_unit by (rewrite ?Hd; try apply norm_uw; lra).
  rewrite Hd, acos_1. ring.
Qed.

Lemma angle_ux_uw : angle_between ux uw = 80.5.
Proof.
  assert (Hd : dot ux uw = cos bend) by (unfold dot, ux, uw; simpl; ring).
  rewrite angle_between_unit;
    [| apply norm_ux | apply norm_uw | rewrite Hd; apply COS_bound].
  rewrite Hd, acos_cos by apply bend_range.
  unfold bend.
  replace (161 * PI / 360 * (180 / PI)) with (161 / 2)
    by (field; apply PI_neq0).
  lra.
Qed.

Lemma get_node_max_angle_loop_quiet (l : list Point) (max_angle : R)
  (size i : nat) (rest : list nat) (current : list Z) (a : Z) :
  (0 < size)%nat ->
  float_to_int
    (angle_between (get_vector (node_at l (i - 1)) (node_at l i))
                   (get_vector (node_at l i) (node_at l (i + 1)))) = a ->
  IZR (sum_Z (set_item current (i mod size) a)) <= max_angle ->
  get_node_max_angle_loop l max_angle size (i :: rest) current
  = get_node_max_angle_loop l max_angle size rest
      (set_item current (i mod size) a).
Proof.
  intros Hsize Ha Hsum. cbn [get_node_max_angle_loop].
  destruct size; [lia |]. rewrite Ha.
  destruct (Rlt_dec _ _); [lra | reflexivity].
Qed.

Lemma bent_axis_angles :
  let l := curve_nodes bent_axis in
  angle_between (get_vector (node_at l 0) (node_at l 1))
                (get_vector (node_at l 1) (node_at l 2)) = 0
  /\ angle_between (get_vector (node_at l 1) (node_at l 2))
                   (get_vector (node_at l 2) (node_at l 3)) = 80.5
  /\ angle_between (get_vector (node_at l 2) (node_at l 3))
                   (get_vector (node_at l 3) (node_at l 4)) = 0.
Proof.
  cbn [bent_axis curve_nodes node_at nth].
  replace (get_vector (mkPoint 0 0 0) (mkPoint 1 0 0)) with ux
    by (apply point_eq; simpl; ring).
  replace (get_vector (mkPoint 1 0 0) (mkPoint 2 0 0)) with ux
    by (apply point_eq; simpl; ring).
  replace (get_vector (mkPoint 2 0 0) (mkPoint (2 + cos bend) (sin bend) 0))
    with uw by (apply point_eq; simpl; ring).
  replace (get_vector (mkPoint (2 + cos bend) (sin bend) 0)
             (mkPoint (2 + 2 * cos bend) (2 * sin bend) 0))
    with uw by (apply point_eq; simpl; ring).
  auto using angle_ux_ux, angle_ux_uw, angle_uw_uw.
Qed.

Lemma bent_axis_not_flagged : get_node_max_angle bent_axis 80 3 = Ok None.
Proof.
  destruct bent_axis_angles as (H1 & H2 & H3).
  unfold get_node_max_angle.
  change (seq 1 (length (curve_nodes bent_axis) - 2)) with [1; 2; 3]%nat.
  change (repeat 0%Z 3) with [0; 0; 0]%Z.
  rewrite (get_node_max_angle_loop_quiet _ _ _ 1 _ _ 0%Z);
    [| lia
     | change (1 - 1)%nat with 0%nat; change (1 + 1)%nat with 2%nat;
       rewrite H1; apply float_to_int_interval; simpl; lra
     | vm_compute (sum_Z _); lra ].
  rewrite (get_node_max_angle_loop_quiet _ _ _ 2 _ _ 80%Z);
    [| lia
     | change (2 - 1)%nat with 1%nat; change (2 + 1)%nat with 3%nat;
       rewrite H2; apply float_to_int_interval; simpl; lra
     | vm_compute (sum_Z _); lra ].
  rewrite (get_node_max_angle_loop_quiet _ _ _ 3 _ _ 0%Z);
    [| lia
     | change (3 - 1)%nat with 2%nat; change (3 + 1)%nat with 4%nat;
       rewrite H3; apply float_to_int_interval; simpl; lra
     | vm_compute (sum_Z _); lra ].
  reflexivity.
Qed.

Lemma fit_returns_when_not_flagged
  (minimize : (R * R -> result R) -> R * R -> R * R) (h : Helix)
  (l : list Point) (crv : Curve) :
  0 < gap h ->
  _set_screw_axis h l = Ok crv ->
  get_node_max_angle crv 80 3 = Ok None ->
  exists res, fit minimize h l = Ok res.
Proof.
  intros Hgap Ha Hm.
  pose proof (_set_screw_axis_nonempty h l crv Ha) as Hne.
  unfold fit. rewrite Ha. cbn [bind]. rewrite Hm. cbn [bind].
  unfold fit_search.
  repeat match goal with
  | |- context [bind (evaluate_params h crv l ?x) _] =>
      let k := fresh "k" in
      destruct (evaluate_params_returns h crv l x Hgap Hne) as [k ->];
      cbn [bind]
  end.
  unfold fit_accept.
  destruct (_set_nodes_returns h crv
              (fst (nth 0 (map snd (sort_by_key (combine [k; k0; k1]
                 [minimize (evaluate_params h crv l) (- gap h, - 2 * PI);
                  minimize (evaluate_params h crv l) (0, 0);
                  minimize (evaluate_params h crv l) (gap h, 2 * PI)])))
                 (0, 0)))
              (snd (nth 0 (map snd (sort_by_key (combine [k; k0; k1]
                 [minimize (evaluate_params h crv l) (- gap h, - 2 * PI);
                  minimize (evaluate_params h crv l) (0, 0);
                  minimize (evaluate_params h crv l) (gap h, 2 * PI)])))
                 (0, 0))) Hgap) as [g Hg].
  rewrite Hg. cbn [bind]. unfold get_avg_offset.
  destruct l; [contradiction |]. cbn [length bind].
  destruct (Rlt_dec _ _); [destruct (Rle_dec _ _) |]; eauto.
Qed.

(** C5 (where the code departs from it).  The ten nodes [bent_nodes] have
    the screw axis [bent_axis], whose turning angle at its third control
    point is 80.5 degrees, above the threshold 80.  The window array of
    [get_node_max_angle] holds integers, so the angle is stored as 80, the
    window sum never exceeds 80, no node is reported, and [Helix.fit] goes on
    to the parameter search and returns instead of raising
    [CurvedScrewAxisError]. *)
Theorem fit_misses_bend_above_threshold
  (minimize : (R * R -> result R) -> R * R -> R * R) :
  _set_screw_axis default_helix bent_nodes = Ok bent_axis
  /\ angle_between
       (get_vector (node_at (curve_nodes bent_axis) 1)
                   (node_at (curve_nodes bent_axis) 2))
       (get_vector (node_at (curve_nodes bent_axis) 2)
                   (node_at (curve_nodes bent_axis) 3)) = 80.5
  /\ get_node_max_angle bent_axis 80 3 = Ok None
  /\ exists res, fit minimize default_helix bent_nodes = Ok res.
Proof.
  split; [exact bent_axis_built |].
  split; [exact (proj1 (proj2 bent_axis_angles)) |].
  split; [exact bent_axis_not_flagged |].
  apply (fit_returns_when_not_flagged minimize default_helix bent_nodes
           bent_axis).
  - simpl; lra.
  - exact bent_axis_built.
  - exact bent_axis_not_flagged.
Qed.

Lemma fit_acceptance_band_witness :
  exists best generated d,
    fit_search far_minimize default_helix bent_axis bent_nodes = Ok best
    /\ _set_nodes default_helix bent_axis (fst best) (snd best) = Ok generated
    /\ get_avg_offset bent_nodes generated = Ok d
    /\ (0.8 < d <= 1.7 ->
          fit far_minimize default_helix bent_nodes
          = Ok (firstn
                  (Z.to_nat
                     (Int_part
                        (INR (min_interval_size default_helix) / 2 - 0.1)))
                  bent_nodes
                ++ generated
                ++ skipn
                     (length bent_nodes
                      - Z.to_nat
                          (Int_part
                             (INR (min_interval_size default_helix) / 2
                              - 0.1)))
                     bent_nodes))
    /\ (d <= 0.8 \/ 1.7 < d ->
          fit far_minimize default_helix bent_nodes = Ok bent_nodes).
Proof.
  apply (fit_acceptance_band far_minimize bent_nodes bent_axis).
  - exact bent_axis_built.
  - exact bent_axis_not_flagged.
Defined.

Lemma bent_axis_length : total_length bent_axis = 4.
Proof.
  unfold total_length, bent_axis. cbn [curve_nodes].
  rewrite !polyline_length_cons. cbn [polyline_length].
  replace (get_vector (mkPoint 0 0 0) (mkPoint 1 0 0)) with ux
    by (apply point_eq; simpl; ring).
  replace (get_vector (mkPoint 1 0 0) (mkPoint 2 0 0)) with ux
    by (apply point_eq; simpl; ring).
  replace (get_vector (mkPoint 2 0 0) (mkPoint (2 + cos bend) (sin bend) 0))
    with uw by (apply point_eq; simpl; ring).
  replace (get_vector (mkPoint (2 + cos bend) (sin bend) 0)
             (mkPoint (2 + 2 * cos bend) (2 * sin bend) 0))
    with uw by (apply point_eq; simpl; ring).
  rewrite norm_ux, norm_uw. ring.
Qed.

Lemma far_search_on_bent_axis :
  fit_search far_minimize default_helix bent_axis bent_nodes = Ok (1000, 0).
Proof.
  assert (He : evaluate_params default_helix bent_axis bent_nodes (1000, 0)
               = Ok (-1)).
  { unfold evaluate_params. cbn [fst snd].
    rewrite _set_nodes_empty by (rewrite bent_axis_length; lra).
    cbn [bind]. apply get_avg_offset_empty_right. discriminate. }
  unfold fit_search, far_minimize. cbn [nth]. rewrite He. cbn [bind].
  unfold sort_by_key. cbn [combine fold_right].
  repeat (cbn [insert_by_key fst];
          destruct (Rlt_dec (-1) (-1)) as [? | _]; [lra |]).
  reflexivity.
Qed.

Lemma get_avg_offset_empty_generated_witness :
  fit far_minimize default_helix bent_nodes = Ok bent_nodes.
Proof.
  apply (proj2 (proj2 get_avg_offset_empty_generated) far_minimize
           default_helix bent_nodes bent_axis (1000, 0)).
  - exact bent_axis_built.
  - exact bent_axis_not_flagged.
  - exact far_search_on_bent_axis.
  - apply _set_nodes_empty. rewrite bent_axis_length. cbn [fst]. lra.
Defined.



(** ** Termination of the controller loop *)

Lemma closest_node_loop_index (node : Point) (chain_nodes : list Point)
  (js : list Z) (cn : Z) (md : option R) (res : Z * option R) :
  closest_node_loop node chain_nodes js cn md = Ok res ->
  fst res = cn \/ In (fst res) js.
Proof.
  revert cn md.
  induction js as [| j rest IH]; intros cn md H.
  - simpl in H. injection H as <-. now left.
  - cbn [closest_node_loop] in H.
    apply bind_Ok_inv in H as (node_j & _ & H).
    destruct (match md with
              | Some m =>
                  if Rlt_dec (get_distance node_j node) m then true else false
              | None => true
              end).
    + apply IH in H as [H | H]; right; [left; congruence | now right].
    + apply IH in H as [H | H]; [now left | right; now right].
Qed.

Lemma closest_node_loop_first (node : Point) (chain_nodes : list Point)
  (js : list Z) (cn : Z) (res : Z * option R) :
  js <> [] ->
  closest_node_loop node chain_nodes js cn None = Ok res ->
  In (fst res) js.
Proof.
  destruct js as [| j rest]; [contradiction |]. intros _ H.
  cbn [closest_node_loop] in H.
  apply bind_Ok_inv in H as (node_j & _ & H).
  apply closest_node_loop_index in H as [H | H];
    [left; congruence | now right].
Qed.

Lemma In_py_range (a b j : Z) : In j (py_range a b) -> (a <= j < b)%Z.
Proof.
  unfold py_range. rewrite in_map_iff. intros (k & <- & Hk).
  apply in_seq in Hk. lia.
Qed.

Lemma nth_error_skipn_head {A : Type} (l : list A) (i : nat) (x : A)
  (rest : list A) :
  skipn i l = x :: rest ->
  nth_error l i = Some x /\ skipn (S i) l = rest /\ (i < length l)%nat.
Proof.
  revert i; induction l as [| y l IH]; intros i H.
  - now rewrite skipn_nil in H.
  - destruct i as [| i].
    + simpl in H. injection H as -> ->. simpl. repeat split. lia.
    + simpl in H. apply IH in H as (H1 & H2 & H3). simpl. repeat split;
        [assumption | assumption | lia].
Qed.

(** What [split_helix_at_node] does to the entries, with no assumption on
    where the range lies: it raises, or it puts two shorter nonempty ranges
    in the place of the one at [i]. *)
Lemma split_helix_at_node_shortens (node : Point) (chain : Chain) (i : nat)
  (start stop : Z) (chain' : Chain) :
  nth_error (helices chain) i = Some (start, stop) ->
  (2 <= stop - start)%Z ->
  split_helix_at_node node chain i = Ok chain' ->
  exists closest,
    (start < closest < stop)%Z
    /\ nodes chain' = nodes chain
    /\ sheets chain' = sheets chain
    /\ helices chain'
       = firstn i (helices chain)
           ++ [(start, closest); (closest, stop)]
           ++ skipn (S i) (helices chain).
Proof.
  intros E Hsize H. unfold split_helix_at_node in H.
  rewrite (py_index_nat _ _ _ E) in H. cbn [bind fst snd] in H.
  apply bind_Ok_inv in H as (found & Hloop & H).
  apply closest_node_loop_first in Hloop.
  2:{ rewrite py_range_cons by lia. discriminate. }
  apply In_py_range in Hloop.
  set (closest := if (start =? fst found)%Z then (fst found + 1)%Z
                  else fst found) in H.
  destruct (del_then_insert_two (helices chain) i (start, stop)
              (start, closest) (closest, stop) E) as (l1 & Hdel & Hins).
  rewrite Hdel in H. cbn [bind] in H. rewrite Hins in H.
  injection H as <-. exists closest. cbn [nodes sheets helices].
  repeat split; unfold closest; destruct (Z.eqb_spec start (fst found)); lia.
Qed.

Lemma split_helix_at_node_finishes (node : Point) (chain : Chain) (i : nat) :
  finishes (split_helix_at_node node chain i).
Proof.
  unfold split_helix_at_node.
  apply bind_finishes; [auto with finishes | intros helix _].
  apply bind_finishes.
  - generalize (py_range (fst helix) (snd helix)) as js.
    generalize (-1)%Z as cn. generalize (@None R) as md.
    intros md cn js. revert cn md.
    induction js as [| j rest IH]; intros cn md; cbn [closest_node_loop];
      [auto with finishes |].
    apply bind_finishes; [auto with finishes | intros node_j _].
    destruct (match md with
              | Some m =>
                  if Rlt_dec (get_distance node_j node) m then true else false
              | None => true
              end); apply IH.
  - intros found _.
    apply bind_finishes; auto with finishes.
Qed.

Lemma contiguous_update (a b diff : Z) (l : list Range) :
  (a < b)%Z -> contiguous b l ->
  contiguous (b + diff) (map (update_range a diff) l)
  /\ ranges_weight (map (update_range a diff) l) = ranges_weight l.
Proof.
  intros Hab Hl. revert Hab.
  induction Hl as [b | b c l Hbc Hl IH]; intros Hab.
  - split; [constructor | reflexivity].
  - destruct (IH ltac:(lia)) as [IHc IHw].
    cbn [map]. rewrite update_range_spec.
    destruct (Z_lt_dec a b); [| lia]. destruct (Z_lt_dec a c); [| lia].
    split.
    + constructor; [lia | exact IHc].
    + cbn [ranges_weight fold_right]. fold (ranges_weight l).
      fold (ranges_weight (map (update_range a diff) l)).
      rewrite IHw. unfold range_weight. cbn [fst snd]. lia.
Qed.

Lemma skipn_nil_length {A : Type} (l : list A) (i : nat) :
  skipn i l = [] -> (length l <= i)%nat.
Proof.
  intros H. apply (f_equal (@length A)) in H.
  rewrite length_skipn in H. simpl in H. lia.
Qed.

Section ControllerLoop.

Variable minimize : (R * R -> result R) -> R * R -> R * R.

Local Abbreviation loop := (fit_chain_loop minimize).

Lemma loop_done (fuel : nat) (chain : Chain) (i : nat) :
  (length (helices chain) <= i)%nat -> loop fuel chain i = Ok chain.
Proof.
  intros H. destruct fuel; cbn [fit_chain_loop];
    destruct (Nat.ltb_spec i (length (helices chain))); reflexivity || lia.
Qed.

(** One pass of the loop on the entry [start, stop) at position [i]. *)
Lemma loop_step (fuel : nat) (chain : Chain) (i : nat) (start stop : Z) :
  nth_error (helices chain) i = Some (start, stop) ->
  loop (S fuel) chain i
  = if (stop - start <? 10)%Z then loop fuel chain (i + 1)
    else
      match fit minimize default_helix (py_slice (nodes chain) start stop) with
      | Ok helix_nodes =>
          let nodes' :=
            py_slice_assign (nodes chain) start stop helix_nodes in
          let diff :=
            (Z.of_nat (length nodes') - Z.of_nat (length (nodes chain)))%Z in
          loop fuel
            (mkChain nodes'
               (update_sec_structure (sheets chain) start diff)
               (update_sec_structure (helices chain) start diff))
            (i + 1)
      | Raise (CurvedScrewAxisError node) =>
          chain' <- split_helix_at_node node chain i ;;
          loop fuel chain' i
      | Raise e => Raise e
      | OutOfFuel => OutOfFuel
      end.
Proof.
  intros E.
  assert (Hi : (i < length (helices chain))%nat)
    by (apply nth_error_Some; congruence).
  cbn [fit_chain_loop].
  destruct (Nat.ltb_spec i (length (helices chain))); [| lia].
  rewrite (py_index_nat _ _ _ E). reflexivity.
Qed.

(** A range of fewer than 10 nodes is passed over, the chain untouched and no
    fit attempted. *)
Lemma loop_skips_short_range (fuel : nat) (chain : Chain) (i : nat)
  (start stop : Z) :
  nth_error (helices chain) i = Some (start, stop) ->
  (stop - start < 10)%Z ->
  loop (S fuel) chain i = loop fuel chain (i + 1).
Proof.
  intros E Hshort. rewrite (loop_step _ _ _ _ _ E).
  destruct (Z.ltb_spec (stop - start) 10); [reflexivity | lia].
Qed.

Lemma loop_more_fuel (fuel : nat) :
  forall chain i,
    finishes (loop fuel chain i) ->
    loop (S fuel) chain i = loop fuel chain i.
Proof.
  induction fuel as [| fuel IH]; intros chain i Hfin.
  - cbn [fit_chain_loop] in *.
    destruct (i <? length (helices chain))%nat;
      [now contradiction Hfin | reflexivity].
  - destruct (nth_error (helices chain) i) as [[start stop] |] eqn:E.
    + rewrite (loop_step (S fuel) _ _ _ _ E).
      rewrite (loop_step fuel _ _ _ _ E) in Hfin |- *.
      destruct (stop - start <? 10)%Z; [now apply IH |].
      destruct (fit minimize default_helix _) as [helix_nodes | e |];
        [now apply IH | | reflexivity].
      destruct e; try reflexivity.
      destruct (split_helix_at_node node chain i) as [chain' | e |];
        cbn [bind] in *; [now apply IH | reflexivity | reflexivity].
    + apply nth_error_None in E. now rewrite !loop_done by lia.
Qed.

Lemma loop_fuel_monotone (fuel fuel' : nat) (chain : Chain) (i : nat) :
  finishes (loop fuel chain i) -> (fuel <= fuel')%nat ->
  loop fuel' chain i = loop fuel chain i.
Proof.
  intros Hfin Hle. induction Hle as [| fuel' Hle IH]; [reflexivity |].
  rewrite loop_more_fuel; [exact IH | now rewrite IH].
Qed.

End ControllerLoop.

Section ControllerTermination.

Variable minimize : (R * R -> result R) -> R * R -> R * R.

Local Abbreviation loop := (fit_chain_loop minimize).

Lemma default_fit_finishes (l : list Point) :
  finishes (fit minimize default_helix l).
Proof. apply fit_finishes. simpl; lra. Qed.

(** The entries from position [i] on are the pieces [group] of a range
    being split, then [n] entries not yet reached.  If the loop leaves
    whenever it stands at the first of [n] entries not yet reached, it
    leaves from the pieces too: by induction on their weight. *)
Lemma loop_terminates_in_pieces (n : nat) :
  (forall tail chain i,
     length tail = n -> skipn i (helices chain) = tail ->
     exists fuel, finishes (loop fuel chain i)) ->
  forall (w : nat) (group tail : list Range) (a : Z) (chain : Chain) (i : nat),
    length tail = n ->
    (ranges_weight group <= w)%nat ->
    contiguous a group ->
    skipn i (helices chain) = group ++ tail ->
    exists fuel, finishes (loop fuel chain i).
Proof.
  intros Hreached.
  induction w as [| w IHw]; intros group tail a chain i Hn Hw Hc Hs;
    destruct Hc as [a | a b group' Hab Hc];
    try (now apply (Hreached tail)).
  - cbn [ranges_weight fold_right] in Hw. unfold range_weight in Hw.
    cbn [fst snd] in Hw. lia.
  - cbn [app] in Hs.
    apply nth_error_skipn_head in Hs as (E & Hs & Hi).
    cbn [ranges_weight fold_right] in Hw. fold (ranges_weight group') in Hw.
    unfold range_weight in Hw. cbn [fst snd] in Hw.
    assert (Hstep := fun fuel => loop_step minimize fuel chain i a b E).
    destruct (Z.ltb_spec (b - a) 10) as [Hshort | Hlong].
    + destruct (IHw group' tail b chain (i + 1)%nat Hn ltac:(lia) Hc)
        as [fuel Hf]; [now rewrite Nat.add_1_r |].
      exists (S fuel). now rewrite Hstep.
    + pose proof (default_fit_finishes (py_slice (nodes chain) a b)) as Hfit.
      destruct (fit minimize default_helix (py_slice (nodes chain) a b))
        as [helix_nodes | e |] eqn:Efit; [| | now contradiction Hfit].
      * set (nodes' := py_slice_assign (nodes chain) a b helix_nodes) in *.
        set (diff := (Z.of_nat (length nodes')
                      - Z.of_nat (length (nodes chain)))%Z) in *.
        destruct (contiguous_update a b diff group' Hab Hc) as [Hc' Hw'].
        destruct (IHw (map (update_range a diff) group')
                    (map (update_range a diff) tail) (b + diff)%Z
                    (mkChain nodes'
                       (update_sec_structure (sheets chain) a diff)
                       (update_sec_structure (helices chain) a diff))
                    (i + 1)%nat) as [fuel Hf].
        -- now rewrite length_map.
        -- lia.
        -- exact Hc'.
        -- cbn [helices]. unfold update_sec_structure.
           rewrite Nat.add_1_r, skipn_map, Hs. apply map_app.
        -- exists (S fuel). now rewrite Hstep.
      * destruct e;
          try (exists 1%nat; rewrite Hstep; solve [auto with finishes]).
        pose proof (split_helix_at_node_finishes node chain i) as Hsplit.
        destruct (split_helix_at_node node chain i) as [chain' | e |]
          eqn:Esplit; [| | now contradiction Hsplit].
        -- destruct (split_helix_at_node_shortens node chain i a b chain'
                       E ltac:(lia) Esplit)
             as (closest & Hcl & _ & _ & Hh).
           destruct (IHw ((a, closest) :: (closest, b) :: group') tail a
                       chain' i Hn) as [fuel Hf].
           ++ cbn [ranges_weight fold_right]. fold (ranges_weight group').
              unfold range_weight. cbn [fst snd]. lia.
           ++ constructor; [lia |]. constructor; [lia | exact Hc].
           ++ rewrite Hh, skipn_app, length_firstn.
              replace (Nat.min i (length (helices chain))) with i by lia.
              rewrite Nat.sub_diag, skipn_firstn_comm, Nat.sub_diag.
              rewrite skipn_O. cbn [firstn app]. now rewrite Hs.
           ++ exists (S fuel). rewrite Hstep. now cbn [bind].
        -- exists 1%nat. rewrite Hstep. cbn [bind]. auto with finishes.
Qed.

Lemma loop_terminates_at_entry (n : nat) :
  forall tail chain i,
    length tail = n -> skipn i (helices chain) = tail ->
    exists fuel, finishes (loop fuel chain i).
Proof.
  induction n as [| n IHn]; intros tail chain i Hn Hs.
  - destruct tail; [| discriminate]. exists 0%nat.
    rewrite loop_done; [auto with finishes | now apply skipn_nil_length].
  - destruct tail as [| [start stop] tail']; [discriminate |].
    injection Hn as Hn.
    destruct (Z_lt_dec start stop) as [Hlt | Hge].
    + apply (loop_terminates_in_pieces n IHn
               (ranges_weight [(start, stop)]) [(start, stop)] tail' start);
        try assumption; [lia |].
      constructor; [exact Hlt | constructor].
    + apply nth_error_skipn_head in Hs as (E & Hs & _).
      destruct (IHn tail' chain (i + 1)%nat Hn) as [fuel Hf];
        [now rewrite Nat.add_1_r |].
      exists (S fuel).
      now rewrite (loop_skips_short_range minimize fuel chain i start stop E)
        by lia.
Qed.

Lemma fit_chain_loop_terminates (chain : Chain) :
  exists fuel, forall fuel',
    (fuel <= fuel')%nat ->
    finishes (loop fuel' chain 0)
    /\ loop fuel' chain 0 = loop fuel chain 0.
Proof.
  destruct (loop_terminates_at_entry (length (helices chain)) (helices chain)
              chain 0 eq_refl eq_refl) as [fuel Hf].
  exists fuel. intros fuel' Hle.
  rewrite (loop_fuel_monotone minimize fuel fuel' chain 0 Hf Hle).
  now split.
Qed.

Lemma fit_helices_all_terminate (chains : list Chain) :
  exists fuel, forall fuel',
    (fuel <= fuel')%nat ->
    finishes (fit_helices minimize fuel' chains)
    /\ fit_helices minimize fuel' chains = fit_helices minimize fuel chains.
Proof.
  induction chains as [| chain rest (f1 & IH)].
  - exists 0%nat. intros fuel' _. split; [discriminate | reflexivity].
  - destruct (fit_chain_loop_terminates chain) as (f0 & H0).
    exists (Nat.max f0 f1).
    assert (Hboth : forall fuel', (Nat.max f0 f1 <= fuel')%nat ->
              loop fuel' chain 0 = loop f0 chain 0
              /\ fit_helices minimize fuel' rest = fit_helices minimize f1 rest).
    { intros fuel' Hle. split; [apply H0 | apply IH]; lia. }
    intros fuel' Hle.
    destruct (Hboth fuel' Hle) as [E0 E1].
    destruct (Hboth (Nat.max f0 f1) (Nat.le_refl _)) as [E0' E1'].
    cbn [fit_helices]. rewrite E0, E1, E0', E1'. split; [| reflexivity].
    apply bind_finishes; [apply (H0 f0); lia | intros chain' _].
    apply bind_finishes; [apply (IH f1); lia | intros; auto with finishes].
Qed.

End ControllerTermination.

(** C6.  [fit_helices] terminates on every list of chains: some number of
    loop passes is enough for it to return or raise, and any larger
    allowance changes nothing.  On the way, a range of fewer than 10 nodes is
    passed over without a fit (the index advances, the chain is unchanged),
    and a split, which the loop only asks for on a range of at least 10
    nodes, replaces the range by two pieces, each nonempty and strictly
    shorter than it. *)
Theorem fit_helices_terminates
  (minimize : (R * R -> result R) -> R * R -> R * R) (chains : list Chain) :
  (exists fuel, forall fuel',
     (fuel <= fuel')%nat ->
     finishes (fit_helices minimize fuel' chains)
     /\ fit_helices minimize fuel' chains = fit_helices minimize fuel chains)
  /\ (forall fuel chain i start stop,
        nth_error (helices chain) i = Some (start, stop) ->
        (stop - start < 10)%Z ->
        fit_chain_loop minimize (S fuel) chain i
        = fit_chain_loop minimize fuel chain (i + 1))
  /\ (forall node chain i start stop chain',
        nth_error (helices chain) i = Some (start, stop) ->
        (10 <= stop - start)%Z ->
        split_helix_at_node node chain i = Ok chain' ->
        exists closest,
          helices chain'
          = firstn i (helices chain)
              ++ [(start, closest); (closest, stop)]
              ++ skipn (S i) (helices chain)
          /\ (0 < closest - start < stop - start)%Z
          /\ (0 < stop - closest < stop - start)%Z).
Proof.
  split; [apply fit_helices_all_terminate |].
  split; [apply loop_skips_short_range |].
  intros node chain i start stop chain' E Hlong Hsplit.
  destruct (split_helix_at_node_shortens node chain i start stop chain' E
              ltac:(lia) Hsplit) as (closest & Hc & _ & _ & Hh).
  exists closest. repeat split; try assumption; lia.
Qed.

(** ** Text *)

Lemma string_length_app (a b : string) :
  String.length (a ++ b) = (String.length a + String.length b)%nat.
Proof. induction a as [| ch a IH]; simpl; [reflexivity | now rewrite IH]. Qed.

Lemma string_app_assoc (a b c : string) :
  ((a ++ b) ++ c = a ++ (b ++ c))%string.
Proof. induction a as [| ch a IH]; simpl; [reflexivity | now rewrite IH]. Qed.

Lemma string_app_nil_r (a : string) : (a ++ "")%string = a.
Proof. induction a as [| ch a IH]; simpl; [reflexivity | now rewrite IH]. Qed.

Lemma substring_app_skip (a b : string) (k m : nat) :
  substring (String.length a + k) m (a ++ b) = substring k m b.
Proof. induction a as [| ch a IH]; simpl; [reflexivity | exact IH]. Qed.

Lemma substring_app_take (a b : string) :
  substring 0 (String.length a) (a ++ b) = a.
Proof.
  induction a as [| ch a IH]; simpl; [now destruct b | now rewrite IH].
Qed.

Lemma replicate_length (ch : ascii) (n : nat) :
  String.length (replicate ch n) = n.
Proof. induction n as [| n IH]; simpl; [reflexivity | now rewrite IH]. Qed.

Lemma rjust_length (s : string) (width : nat) :
  (String.length s <= width)%nat -> String.length (rjust s width) = width.
Proof.
  intros H. unfold rjust. rewrite string_length_app, replicate_length. lia.
Qed.

Lemma string_forall_app (P : ascii -> bool) (a b : string) :
  string_forall P (a ++ b) = string_forall P a && string_forall P b.
Proof.
  induction a as [| ch a IH]; simpl; [reflexivity |].
  now rewrite IH, andb_assoc.
Qed.

Lemma string_forall_replicate (P : ascii -> bool) (ch : ascii) (n : nat) :
  P ch = true -> string_forall P (replicate ch n) = true.
Proof. intros H. induction n as [| n IH]; simpl; [reflexivity | now rewrite H]. Qed.

Lemma string_forall_impl (P Q : ascii -> bool) (s : string) :
  (forall ch, P ch = true -> Q ch = true) ->
  string_forall P s = true -> string_forall Q s = true.
Proof.
  intros HPQ. induction s as [| ch s IH]; simpl; [reflexivity |].
  rewrite !andb_true_iff. intros [H1 H2]. auto.
Qed.

Lemma uint_string_digits (d : uint) :
  string_forall is_digit (NilEmpty.string_of_uint d) = true.
Proof. induction d; simpl; auto. Qed.

Lemma str_Z_pos (p : positive) :
  str_Z (Zpos p) = NilEmpty.string_of_uint (Pos.to_uint p).
Proof.
  unfold str_Z. simpl.
  pose proof (DecimalPos.Unsigned.to_uint_nonnil p) as Hnn.
  now destruct (Pos.to_uint p).
Qed.

Lemma str_Z_digits (z : Z) :
  (0 <= z)%Z -> string_forall is_digit (str_Z z) = true.
Proof.
  destruct z as [| p | p]; intros H; [reflexivity | | lia].
  rewrite str_Z_pos. apply uint_string_digits.
Qed.

Lemma str_Z_nonempty (z : Z) : str_Z z <> EmptyString.
Proof.
  destruct z as [| p | p]; [discriminate | |].
  - rewrite str_Z_pos. pose proof (DecimalPos.Unsigned.to_uint_nonnil p).
    now destruct (Pos.to_uint p).
  - discriminate.
Qed.

Lemma digits_value_str_Z (z : Z) :
  (0 <= z)%Z -> digits_value (str_Z z) = Ok z.
Proof.
  destruct z as [| p | p]; intros H; [reflexivity | | lia].
  pose proof (str_Z_nonempty (Zpos p)) as Hne.
  rewrite str_Z_pos in *. unfold digits_value, NilZero.uint_of_string.
  destruct (NilEmpty.string_of_uint (Pos.to_uint p)) eqn:E; [contradiction |].
  rewrite <- E, NilEmpty.usu. unfold Z.of_uint.
  now rewrite DecimalPos.Unsigned.of_to.
Qed.

Lemma digit_facts (ch : ascii) :
  is_digit ch = true ->
  is_space ch = false
  /\ Ascii.eqb ch "-" = false
  /\ Ascii.eqb ch "+" = false
  /\ Ascii.eqb ch "." = false
  /\ Ascii.eqb ch "R" = false.
Proof.
  destruct ch as [[|] [|] [|] [|] [|] [|] [|] [|]];
    vm_compute; intros H; try discriminate H; repeat split.
Qed.

Lemma lstrip_blanks (k : nat) (s : string) :
  lstrip (replicate " " k ++ s) = lstrip s.
Proof. induction k as [| k IH]; simpl; [reflexivity | exact IH]. Qed.

Lemma lstrip_id (s : string) :
  string_forall (fun ch => negb (is_space ch)) s = true -> lstrip s = s.
Proof.
  destruct s as [| ch s]; simpl; [reflexivity |].
  rewrite andb_true_iff, negb_true_iff. now intros [-> _].
Qed.

Lemma rstrip_id (s : string) :
  string_forall (fun ch => negb (is_space ch)) s = true -> rstrip s = s.
Proof.
  induction s as [| ch s IH]; simpl; [reflexivity |].
  rewrite andb_true_iff, negb_true_iff. intros [Hc Hs].
  rewrite (IH Hs), Hc. now destruct s.
Qed.

Lemma strip_rjust (s : string) (width : nat) :
  string_forall (fun ch => negb (is_space ch)) s = true ->
  strip (rjust s width) = s.
Proof.
  intros H. unfold strip, rjust.
  now rewrite lstrip_blanks, (lstrip_id s H), rstrip_id.
Qed.

Lemma digits_not_blank (s : string) :
  string_forall is_digit s = true ->
  string_forall (fun ch => negb (is_space ch)) s = true.
Proof.
  apply string_forall_impl. intros ch H.
  apply digit_facts in H as (-> & _). reflexivity.
Qed.

Lemma py_int_rjust (z : Z) (width : nat) :
  (0 <= z)%Z -> py_int (rjust (str_Z z) width) = Ok z.
Proof.
  intros Hz. unfold py_int.
  rewrite strip_rjust by now apply digits_not_blank, str_Z_digits.
  pose proof (str_Z_digits z Hz) as Hd.
  pose proof (digits_value_str_Z z Hz) as Hv.
  destruct (str_Z z) as [| ch rest]; [discriminate Hv |].
  simpl in Hd. apply andb_true_iff in Hd as [Hch _].
  apply digit_facts in Hch as (_ & -> & -> & _). exact Hv.
Qed.

Lemma str_Z_width_check :
  forallb (fun n => (String.length (str_Z (Z.of_nat n)) <=? 4)%nat)
          (seq 0 (Z.to_nat 10000)) = true.
Proof. vm_compute. reflexivity. Qed.

Lemma str_Z_width (z : Z) :
  (0 <= z <= 9999)%Z -> (String.length (str_Z z) <= 4)%nat.
Proof.
  intros Hz. pose proof str_Z_width_check as H.
  rewrite forallb_forall in H.
  specialize (H (Z.to_nat z)). rewrite Z2Nat.id in H by lia.
  apply Nat.leb_le, H, in_seq. lia.
Qed.

Lemma str_Z_width3 (z : Z) :
  (0 <= z <= 999)%Z -> (String.length (str_Z z) <= 3)%nat.
Proof.
  intros Hz.
  assert (H : forallb (fun n => (String.length (str_Z (Z.of_nat n)) <=? 3)%nat)
                (seq 0 (Z.to_nat 1000)) = true) by (vm_compute; reflexivity).
  rewrite forallb_forall in H.
  specialize (H (Z.to_nat z)). rewrite Z2Nat.id in H by lia.
  apply Nat.leb_le, H, in_seq. lia.
Qed.

(** ** Decimal text of a coordinate *)

Lemma Int_part_nonneg (x : R) : (0 <= x)%R -> (0 <= Int_part x)%Z.
Proof.
  intros Hx. destruct (base_Int_part x) as [_ Hlo].
  assert (H : (-1 < IZR (Int_part x))%R) by lra.
  apply lt_IZR in H. lia.
Qed.

Lemma round_half_even_nonneg (x : R) :
  (0 <= x)%R -> (0 <= round_half_even x)%Z.
Proof.
  intros Hx. pose proof (Int_part_nonneg x Hx). unfold round_half_even.
  destruct (Rlt_dec _ _); [lia |].
  destruct (Rlt_dec _ _); [lia |].
  destruct (Z.even _); lia.
Qed.

Lemma thousandths_nonneg (x : R) : (0 <= thousandths x)%Z.
Proof.
  apply round_half_even_nonneg.
  pose proof (Rabs_pos x). lra.
Qed.

Lemma uint_of_str_Z (z : Z) :
  (0 <= z)%Z ->
  exists d, NilEmpty.uint_of_string (str_Z z) = Some d /\ Z.of_uint d = z.
Proof.
  intros Hz. pose proof (digits_value_str_Z z Hz) as H.
  pose proof (str_Z_nonempty z) as Hne.
  unfold digits_value, NilZero.uint_of_string in H.
  destruct (str_Z z) as [| ch rest]; [contradiction |].
  destruct (NilEmpty.uint_of_string (String ch rest)) as [d |];
    [| discriminate].
  exists d. split; [reflexivity | congruence].
Qed.

Lemma uint_of_zeros (k : nat) (s : string) (d : uint) :
  NilEmpty.uint_of_string s = Some d ->
  exists d', NilEmpty.uint_of_string (replicate "0" k ++ s) = Some d'
             /\ Z.of_uint d' = Z.of_uint d.
Proof.
  intros H. induction k as [| k (d' & Hd' & Hv)]; simpl.
  - eauto.
  - rewrite Hd'. simpl. exists (D0 d'). split; [reflexivity | exact Hv].
Qed.

Lemma split_point_digits (whole rest : string) :
  string_forall is_digit whole = true ->
  split_point (whole ++ String "." rest) = (whole, Some rest).
Proof.
  induction whole as [| ch whole IH]; simpl; [reflexivity |].
  rewrite andb_true_iff. intros [Hch Hw].
  apply digit_facts in Hch as (_ & _ & _ & -> & _).
  now rewrite (IH Hw).
Qed.

Lemma zfill_length (s : string) (width : nat) :
  (String.length s <= width)%nat -> String.length (zfill s width) = width.
Proof.
  intros H. unfold zfill. rewrite string_length_app, replicate_length. lia.
Qed.

Lemma unsigned_decimal_fixed (q r : Z) :
  (0 <= q)%Z -> (0 <= r <= 999)%Z ->
  unsigned_decimal (str_Z q ++ String "." (zfill (str_Z r) 3))
  = Ok (IZR q + IZR r / 1000)%R.
Proof.
  intros Hq Hr. unfold unsigned_decimal.
  rewrite split_point_digits by now apply str_Z_digits.
  destruct (uint_of_str_Z q Hq) as (dq & Eq & Vq).
  destruct (uint_of_str_Z r ltac:(lia)) as (dr & Er & Vr).
  destruct (uint_of_zeros (3 - String.length (str_Z r)) _ _ Er)
    as (dr' & Er' & Vr').
  rewrite Eq. unfold zfill at 1. rewrite Er'.
  rewrite zfill_length by (apply str_Z_width3; lia).
  pose proof (str_Z_nonempty q) as Hne.
  destruct (str_Z q) as [| ch rest]; [contradiction |].
  rewrite Vq, Vr', Vr. f_equal. simpl. lra.
Qed.

Lemma field_char_facts (ch : ascii) :
  is_field_char ch = true ->
  is_space ch = false /\ Ascii.eqb ch "R" = false
  /\ Ascii.eqb ch "010" = false.
Proof.
  destruct ch as [[|] [|] [|] [|] [|] [|] [|] [|]];
    vm_compute; intros H; try discriminate H; repeat split.
Qed.

Lemma digits_field_chars (s : string) :
  string_forall is_digit s = true -> string_forall is_field_char s = true.
Proof.
  apply string_forall_impl. intros ch H. unfold is_field_char. now rewrite H.
Qed.

Lemma format_3f_shape (x : R) :
  exists q r,
    (0 <= q)%Z /\ (0 <= r <= 999)%Z
    /\ thousandths x = (1000 * q + r)%Z
    /\ format_3f x
       = ((if Rlt_dec x 0 then "-" else "")
          ++ str_Z q ++ String "." (zfill (str_Z r) 3))%string.
Proof.
  pose proof (thousandths_nonneg x) as Hm.
  exists (thousandths x / 1000)%Z, (thousandths x mod 1000)%Z.
  pose proof (Z.mod_pos_bound (thousandths x) 1000 ltac:(lia)).
  repeat split; try lia.
  - apply Z.div_pos; lia.
  - apply Z.div_mod. lia.
Qed.

Lemma format_3f_field_chars (x : R) :
  string_forall is_field_char (format_3f x) = true.
Proof.
  destruct (format_3f_shape x) as (q & r & Hq & Hr & _ & ->).
  rewrite string_forall_app. apply andb_true_iff. split.
  - destruct (Rlt_dec x 0); reflexivity.
  - rewrite string_forall_app. apply andb_true_iff. split.
    + now apply digits_field_chars, str_Z_digits.
    + simpl. unfold zfill. rewrite string_forall_app.
      rewrite string_forall_replicate by reflexivity.
      apply digits_field_chars, str_Z_digits. lia.
Qed.

Lemma field_chars_not_blank (s : string) :
  string_forall is_field_char s = true ->
  string_forall (fun ch => negb (is_space ch)) s = true.
Proof.
  apply string_forall_impl. intros ch H.
  apply field_char_facts in H as (-> & _). reflexivity.
Qed.

Lemma py_float_format_3f (x : R) (width : nat) :
  py_float (rjust (format_3f x) width) = Ok (round_3f x).
Proof.
  unfold py_float.
  rewrite strip_rjust by apply field_chars_not_blank, format_3f_field_chars.
  destruct (format_3f_shape x) as (q & r & Hq & Hr & Hm & ->).
  pose proof (unsigned_decimal_fixed q r Hq Hr) as Hu.
  assert (Hv : (IZR q + IZR r / 1000 = IZR (thousandths x) / 1000)%R).
  { rewrite Hm, plus_IZR, mult_IZR. field. }
  unfold round_3f. destruct (Rlt_dec x 0).
  - simpl. rewrite Hu. simpl. now rewrite Hv.
  - simpl. pose proof (str_Z_digits q Hq) as Hd.
    pose proof (str_Z_nonempty q) as Hne.
    destruct (str_Z q) as [| ch rest]; [contradiction |].
    simpl in Hd. apply andb_true_iff in Hd as [Hch _].
    apply digit_facts in Hch as (_ & Hminus & Hplus & _).
    simpl. rewrite Hminus, Hplus.
    simpl in Hu. rewrite Hu. now rewrite Hv.
Qed.

(** ** Records: columns *)

Lemma str_slice_at (pre mid post : string) (a b : nat) :
  String.length pre = a -> String.length mid = (b - a)%nat ->
  str_slice (pre ++ mid ++ post) a b = mid.
Proof.
  intros <- Hmid. unfold str_slice.
  rewrite <- (Nat.add_0_r (String.length pre)) at 1.
  rewrite substring_app_skip, <- Hmid. apply substring_app_take.
Qed.

Lemma rjust_succ (s : string) (width : nat) :
  (String.length s <= width)%nat ->
  rjust s (S width) = String " " (rjust s width).
Proof.
  intros H. unfold rjust.
  now replace (S width - String.length s)%nat
    with (S (width - String.length s)) by lia.
Qed.

Lemma rjust_quiet (s : string) (width : nat) :
  string_forall is_field_char s = true ->
  string_forall is_quiet (rjust s width) = true.
Proof.
  intros H. unfold rjust. rewrite string_forall_app.
  rewrite string_forall_replicate by reflexivity.
  revert H. apply string_forall_impl. intros ch Hch.
  apply field_char_facts in Hch as (_ & HR & Hnl).
  unfold is_quiet. now rewrite HR, Hnl.
Qed.

Lemma str_Z_field_chars (z : Z) :
  (0 <= z)%Z -> string_forall is_field_char (str_Z z) = true.
Proof. intros H. now apply digits_field_chars, str_Z_digits. Qed.

Lemma index_field (z : Z) :
  (0 <= z <= 9999)%Z ->
  String.length (rjust (str_Z z) 4) = 4%nat
  /\ py_int (rjust (str_Z z) 4) = Ok z
  /\ string_forall is_quiet (rjust (str_Z z) 4) = true.
Proof.
  intros Hz. split; [| split].
  - apply rjust_length, str_Z_width. exact Hz.
  - apply py_int_rjust. lia.
  - apply rjust_quiet, str_Z_field_chars. lia.
Qed.

Ltac string_assoc :=
  repeat (progress (simpl; rewrite ?string_app_assoc)); reflexivity.

Lemma format_helix_info_columns (a b : Z) :
  (0 <= a + 1 <= 9999)%Z -> (0 <= b <= 9999)%Z ->
  let line := format_helix_info "A" a b in
  py_int (str_slice line 21 25) = Ok (a + 1)%Z
  /\ py_int (str_slice line 33 37) = Ok b
  /\ str_slice line 0 4 = "HELI"%string
  /\ str_slice line 0 5 = "HELIX"%string
  /\ is_record line.
Proof.
  intros Ha Hb line.
  destruct (index_field (a + 1) Ha) as (L1 & P1 & Q1).
  destruct (index_field b Hb) as (L2 & P2 & Q2).
  unfold line, format_helix_info.
  set (f1 := rjust (str_Z (a + 1)) 4) in *.
  set (f2 := rjust (str_Z b) 4) in *.
  split; [| split; [| split; [| split]]].
  - change ("HELIX    1   1 GLY " ++ "A" ++ " " ++ f1 ++ "  GLY " ++ "A" ++ " "
            ++ f2 ++ "  1" ++ newline)%string
      with ("HELIX    1   1 GLY A " ++ f1
            ++ ("  GLY A " ++ f2 ++ "  1" ++ newline))%string.
    now rewrite str_slice_at.
  - replace ("HELIX    1   1 GLY " ++ "A" ++ " " ++ f1 ++ "  GLY " ++ "A" ++ " "
             ++ f2 ++ "  1" ++ newline)%string
      with (("HELIX    1   1 GLY A " ++ f1 ++ "  GLY A ") ++ f2
            ++ ("  1" ++ newline))%string
      by string_assoc.
    rewrite str_slice_at; [exact P2 | | exact L2].
    rewrite !string_length_app, L1. reflexivity.
  - reflexivity.
  - reflexivity.
  - exists ("HELIX    1   1 GLY A " ++ f1 ++ "  GLY A " ++ f2 ++ "  1")%string.
    split.
    + string_assoc.
    + rewrite !string_forall_app, Q1, Q2. reflexivity.
Qed.

Lemma format_sheet_info_columns (a b : Z) :
  (0 <= a + 1 <= 9999)%Z -> (0 <= b + 1 <= 9999)%Z ->
  let line := format_sheet_info "A" a b in
  py_int (str_slice line 22 26) = Ok (a + 1)%Z
  /\ py_int (str_slice line 33 37) = Ok (b + 1)%Z
  /\ str_slice line 0 4 = "SHEE"%string
  /\ str_slice line 0 5 = "SHEET"%string
  /\ is_record line.
Proof.
  intros Ha Hb line.
  destruct (index_field (a + 1) Ha) as (L1 & P1 & Q1).
  destruct (index_field (b + 1) Hb) as (L2 & P2 & Q2).
  unfold line, format_sheet_info.
  set (f1 := rjust (str_Z (a + 1)) 4) in *.
  set (f2 := rjust (str_Z (b + 1)) 4) in *.
  split; [| split; [| split; [| split]]].
  - change ("SHEET    1   A 6 GLY " ++ "A" ++ f1 ++ "  GLY " ++ "A"
            ++ f2 ++ "  0" ++ newline)%string
      with ("SHEET    1   A 6 GLY A" ++ f1
            ++ ("  GLY A" ++ f2 ++ "  0" ++ newline))%string.
    now rewrite str_slice_at.
  - replace ("SHEET    1   A 6 GLY " ++ "A" ++ f1 ++ "  GLY " ++ "A"
             ++ f2 ++ "  0" ++ newline)%string
      with (("SHEET    1   A 6 GLY A" ++ f1 ++ "  GLY A") ++ f2
            ++ ("  0" ++ newline))%string
      by string_assoc.
    rewrite str_slice_at; [exact P2 | | exact L2].
    rewrite !string_length_app, L1. reflexivity.
  - reflexivity.
  - reflexivity.
  - exists ("SHEET    1   A 6 GLY A" ++ f1 ++ "  GLY A" ++ f2 ++ "  0")%string.
    split; [string_assoc |].
    rewrite !string_forall_app, Q1, Q2. reflexivity.
Qed.

Lemma coordinate_field (x : R) :
  (String.length (format_3f x) <= 7)%nat ->
  exists f,
    rjust (format_3f x) 8 = String " " f
    /\ String.length f = 7%nat
    /\ py_float f = Ok (round_3f x)
    /\ string_forall is_quiet f = true.
Proof.
  intros Hw. exists (rjust (format_3f x) 7). repeat split.
  - now apply rjust_succ.
  - now apply rjust_length.
  - apply py_float_format_3f.
  - apply rjust_quiet, format_3f_field_chars.
Qed.

Lemma format_node_columns (node : Point) (n : Z) :
  (0 <= n <= 9999)%Z ->
  (String.length (format_3f (px node)) <= 7)%nat ->
  (String.length (format_3f (py node)) <= 7)%nat ->
  (String.length (format_3f (pz node)) <= 7)%nat ->
  let line := format_node node "A" n in
  parse_node line = Ok (round_point node)
  /\ str_slice line 0 4 = "ATOM"%string
  /\ is_record line.
Proof.
  intros Hn Hx Hy Hz line.
  destruct (index_field n Hn) as (L & _ & Q).
  destruct (coordinate_field (px node) Hx) as (fx & Ex & Lx & Px & Qx).
  destruct (coordinate_field (py node) Hy) as (fy & Ey & Ly & Py & Qy).
  destruct (coordinate_field (pz node) Hz) as (fz & Ez & Lz & Pz & Qz).
  unfold line, format_node. rewrite Ex, Ey, Ez.
  set (f := rjust (str_Z n) 4) in *.
  set (tail := "  1.00  0.00           C  "%string).
  split; [| split].
  - unfold parse_node.
    replace (str_slice _ 31 38) with fx.
    2:{ replace ("ATOM      1  CA  GLY " ++ "A" ++ f ++ "    "
                 ++ String " " fx ++ String " " fy ++ String " " fz
                 ++ tail ++ newline)%string
          with (("ATOM      1  CA  GLY A" ++ f ++ "     ") ++ fx
                ++ (String " " fy ++ String " " fz ++ tail ++ newline))%string
          by string_assoc.
        rewrite str_slice_at; [reflexivity | | exact Lx].
        rewrite !string_length_app, L. reflexivity. }
    replace (str_slice _ 39 46) with fy.
    2:{ replace ("ATOM      1  CA  GLY " ++ "A" ++ f ++ "    "
                 ++ String " " fx ++ String " " fy ++ String " " fz
                 ++ tail ++ newline)%string
          with (("ATOM      1  CA  GLY A" ++ f ++ "     " ++ fx ++ " ") ++ fy
                ++ (String " " fz ++ tail ++ newline))%string
          by string_assoc.
        rewrite str_slice_at; [reflexivity | | exact Ly].
        rewrite !string_length_app, L, Lx. reflexivity. }
    replace (str_slice _ 47 54) with fz.
    2:{ replace ("ATOM      1  CA  GLY " ++ "A" ++ f ++ "    "
                 ++ String " " fx ++ String " " fy ++ String " " fz
                 ++ tail ++ newline)%string
          with (("ATOM      1  CA  GLY A" ++ f ++ "     " ++ fx ++ " " ++ fy
                 ++ " ") ++ fz ++ (tail ++ newline))%string
          by string_assoc.
        rewrite str_slice_at; [reflexivity | | exact Lz].
        rewrite !string_length_app, L, Lx, Ly. reflexivity. }
    rewrite Px, Py, Pz. reflexivity.
  - reflexivity.
  - exists ("ATOM      1  CA  GLY A" ++ f ++ "     " ++ fx ++ " " ++ fy ++ " "
            ++ fz ++ tail)%string.
    split; [string_assoc |].
    rewrite !string_forall_app, Q, Qx, Qy, Qz. reflexivity.
Qed.

(** ** Lines of a file *)

Lemma prefix_TER_has_R (s : string) :
  prefix "TER" s = true ->
  string_forall (fun ch => negb (Ascii.eqb ch "R")) s = false.
Proof.
  intros H. apply prefix_correct in H.
  destruct s as [| a [| b [| c s]]]; simpl in H; try discriminate H.
  injection H as _ _ ->. simpl. now rewrite !andb_false_r.
Qed.

Lemma contains_TER_no_R (s : string) :
  string_forall (fun ch => negb (Ascii.eqb ch "R")) s = true ->
  contains "TER" s = false.
Proof.
  induction s as [| ch s IH]; intros H.
  - reflexivity.
  - cbn [contains].
    destruct (prefix "TER" (String ch s)) eqn:E.
    + apply prefix_TER_has_R in E. congruence.
    + apply IH. simpl in H. now apply andb_true_iff in H as [_ H].
Qed.

Lemma record_no_TER (line : string) :
  is_record line -> contains "TER" line = false.
Proof.
  intros (body & -> & Hq). apply contains_TER_no_R.
  rewrite string_forall_app. apply andb_true_iff. split; [| reflexivity].
  revert Hq. apply string_forall_impl. intros ch H.
  unfold is_quiet in H. now apply andb_true_iff in H as [H _].
Qed.

Lemma record_is_line (line : string) : is_record line -> is_line line.
Proof.
  intros (body & -> & Hq). exists body. split; [reflexivity |].
  revert Hq. apply string_forall_impl. intros ch H.
  unfold is_quiet in H. now apply andb_true_iff in H as [_ H].
Qed.

Lemma py_lines_line (line rest : string) :
  is_line line -> py_lines (line ++ rest) = line :: py_lines rest.
Proof.
  intros (body & -> & Hq). rewrite string_app_assoc.
  induction body as [| ch body IH]; [reflexivity |].
  simpl in Hq. apply andb_true_iff in Hq as [Hnl Hq].
  apply negb_true_iff in Hnl.
  change ((String ch body ++ newline ++ rest)%string)
    with (String ch (body ++ newline ++ rest)).
  cbn [py_lines]. rewrite Hnl, (IH Hq). reflexivity.
Qed.

Lemma concat_empty_cons (line : string) (lines : list string) :
  String.concat "" (line :: lines) = (line ++ String.concat "" lines)%string.
Proof.
  destruct lines; simpl; [now rewrite string_app_nil_r | reflexivity].
Qed.

Lemma py_lines_concat (lines : list string) (rest : string) :
  Forall is_line lines ->
  py_lines (String.concat "" lines ++ rest) = lines ++ py_lines rest.
Proof.
  induction 1 as [| line lines Hl _ IH]; [reflexivity |].
  rewrite concat_empty_cons, string_app_assoc, py_lines_line by assumption.
  now rewrite IH.
Qed.

(** ** Reading one record *)

Lemma change_middle_chain (pre : list Chain) (chain : Chain)
  (post : list Chain) (change : Chain -> Chain) :
  change_chain (pre ++ chain :: post) (length pre) change
  = Ok (pre ++ change chain :: post).
Proof.
  unfold change_chain.
  rewrite nth_error_app2, Nat.sub_diag by lia. cbn [nth_error].
  rewrite firstn_app, Nat.sub_diag, firstn_all. cbn [firstn].
  rewrite app_nil_r.
  replace (S (length pre)) with (1 + length pre)%nat by lia.
  rewrite <- skipn_skipn, skipn_app, Nat.sub_diag, skipn_all. reflexivity.
Qed.

Lemma change_last_chain (done : list Chain) (cur : Chain)
  (change : Chain -> Chain) :
  change_chain (done ++ [cur]) (length (done ++ [cur]) - 1) change
  = Ok (done ++ [change cur]).
Proof.
  rewrite length_app. cbn [length].
  replace (length done + 1 - 1)%nat with (length done) by lia.
  apply change_middle_chain.
Qed.

Lemma read_line_node (done : list Chain) (cur : Chain) (node : Point) (n : Z) :
  (0 <= n <= 9999)%Z ->
  (String.length (format_3f (px node)) <= 7)%nat ->
  (String.length (format_3f (py node)) <= 7)%nat ->
  (String.length (format_3f (pz node)) <= 7)%nat ->
  read_line (done ++ [cur]) (format_node node "A" n)
  = Ok (done ++ [add_node (round_point node) cur]).
Proof.
  intros Hn Hx Hy Hz.
  destruct (format_node_columns node n Hn Hx Hy Hz) as (Hp & Hhead & Hrec).
  unfold read_line, read_record.
  rewrite (record_no_TER _ Hrec), Hhead, Hp. cbn [String.eqb Ascii.eqb bind].
  simpl String.eqb. cbn [bind].
  now rewrite change_last_chain.
Qed.

Lemma read_line_TER (chains : list Chain) :
  read_line chains ("TER" ++ newline)
  = Ok (chains ++ [mkChain [] [] []]).
Proof. reflexivity. Qed.

Lemma read_line_helix (chains : list Chain) (a b : Z) :
  (0 <= a + 1 <= 9999)%Z -> (0 <= b <= 9999)%Z ->
  read_line chains (format_helix_info "A" a b)
  = change_chain chains (snd (parse_helix_loop chains (a, b) 0))
      (add_helix (fst (parse_helix_loop chains (a, b) 0))).
Proof.
  intros Ha Hb.
  destruct (format_helix_info_columns a b Ha Hb)
    as (P1 & P2 & H4 & H5 & Hrec).
  unfold read_line, read_record, parse_helix.
  rewrite (record_no_TER _ Hrec), H4, H5, P1, P2. simpl String.eqb.
  cbn [bind]. replace (a + 1 - 1)%Z with a by lia.
  unfold change_chain. now destruct (nth_error _ _).
Qed.

Lemma read_line_sheet (chains : list Chain) (a b : Z) :
  (0 <= a + 1 <= 9999)%Z -> (0 <= b + 1 <= 9999)%Z ->
  read_line chains (format_sheet_info "A" a b)
  = change_chain chains (snd (parse_sheet_loop chains (a, b) 0))
      (add_sheet (fst (parse_sheet_loop chains (a, b) 0))).
Proof.
  intros Ha Hb.
  destruct (format_sheet_info_columns a b Ha Hb)
    as (P1 & P2 & H4 & H5 & Hrec).
  unfold read_line, read_record, parse_sheet.
  rewrite (record_no_TER _ Hrec), H4, H5, P1, P2. simpl String.eqb.
  cbn [bind]. replace (a + 1 - 1)%Z with a by lia.
  replace (b + 1 - 1)%Z with b by lia.
  unfold change_chain. now destruct (nth_error _ _).
Qed.

(** ** The blocks of the file *)

Lemma file_rows_nonneg (chains : list Chain) : (0 <= file_rows chains)%Z.
Proof. induction chains as [| c rest IH]; simpl; lia. Qed.

Lemma file_rows_app (a b : list Chain) :
  file_rows (a ++ b) = (file_rows a + file_rows b)%Z.
Proof. induction a as [| c a IH]; simpl; [reflexivity | rewrite IH; lia]. Qed.

Lemma node_lines_seq (l : list Point) (offset : Z) :
  map (fun i => format_node (node_at l i) "A" (offset + Z.of_nat i + 1))
      (seq 0 (length l))
  = node_lines l (offset + 1).
Proof.
  revert offset. induction l as [| node l IH]; intros offset; [reflexivity |].
  cbn [length seq map node_lines]. f_equal.
  - unfold node_at. simpl. f_equal. lia.
  - rewrite <- seq_shift, map_map, <- IH.
    apply map_ext. intros i. unfold node_at. simpl. f_equal. lia.
Qed.

Lemma write_records_blocks (chains : list Chain) (offset : Z) :
  write_records chains offset
  = (all_node_lines chains offset, all_helix_lines chains offset,
     all_sheet_lines chains offset).
Proof.
  revert offset. induction chains as [| c rest IH]; intros offset;
    [reflexivity |].
  cbn [write_records all_node_lines all_helix_lines all_sheet_lines].
  rewrite IH, node_lines_seq. unfold helix_lines, sheet_lines.
  now rewrite <- app_assoc.
Qed.

(** ** Reading the node block *)

Lemma read_node_lines (l : list Point) :
  forall (n : Z) (done : list Chain) (cur : Chain) (rest : list string),
    Forall node_fits l ->
    (0 <= n)%Z -> (n + Z.of_nat (length l) <= 10000)%Z ->
    read_lines (done ++ [cur]) (node_lines l n ++ rest)
    = read_lines
        (done ++ [mkChain (nodes cur ++ map round_point l) (sheets cur)
                    (helices cur)])
        rest.
Proof.
  induction l as [| node l IH]; intros n done cur rest Hfit Hn Hmax.
  - simpl. rewrite app_nil_r. now destruct cur.
  - inversion Hfit as [| ? ? (Hx & Hy & Hz) Hfit']; subst.
    cbn [node_lines app read_lines length] in *.
    rewrite read_line_node by (assumption || lia). cbn [bind].
    rewrite IH by (assumption || lia).
    unfold add_node. cbn [nodes sheets helices map].
    now rewrite <- app_assoc.
Qed.

Lemma read_all_node_lines (chains : list Chain) :
  forall (offset : Z) (done : list Chain) (rest : list string),
    Forall chain_writable chains ->
    (0 <= offset)%Z -> (offset + file_rows chains <= 9999)%Z ->
    read_lines (done ++ [mkChain [] [] []])
      (all_node_lines chains offset ++ rest)
    = read_lines (done ++ map nodes_read chains ++ [mkChain [] [] []]) rest.
Proof.
  induction chains as [| c chains IH]; intros offset done rest Hw H0 Hmax.
  - reflexivity.
  - inversion Hw as [| ? ? (Hn & _ & _) Hw']; subst.
    cbn [all_node_lines file_rows map] in *.
    pose proof (file_rows_nonneg chains).
    rewrite <- !app_assoc.
    rewrite read_node_lines by (assumption || lia).
    cbn [app read_lines nodes sheets helices].
    rewrite read_line_TER. cbn [bind].
    rewrite <- app_assoc. cbn [app].
    change (done ++ mkChain (map round_point (nodes c)) [] []
              :: [mkChain [] [] []])
      with (done ++ [nodes_read c] ++ [mkChain [] [] []]).
    rewrite app_assoc, IH by (assumption || lia).
    now rewrite <- app_assoc.
Qed.

(** ** Reading the helix and sheet blocks *)

Lemma parse_helix_loop_locate (pre : list Chain) (chain : Chain)
  (post : list Chain) (a b : Z) :
  forall i,
    (0 <= b <= Z.of_nat (length (nodes chain)))%Z ->
    parse_helix_loop (pre ++ chain :: post)
      ((a + file_rows pre)%Z, (b + file_rows pre)%Z) i
    = ((a, b), (i + length pre)%nat).
Proof.
  induction pre as [| c pre IH]; intros i Hb.
  - simpl. rewrite !Z.add_0_r, Nat.add_0_r.
    destruct (Z.leb_spec b (Z.of_nat (length (nodes chain)))); [reflexivity | lia].
  - cbn [app parse_helix_loop file_rows fst snd length].
    pose proof (file_rows_nonneg pre).
    destruct (Z.leb_spec (b + (Z.of_nat (length (nodes c)) + 1 + file_rows pre))
                (Z.of_nat (length (nodes c)))); [lia |].
    replace (a + (Z.of_nat (length (nodes c)) + 1 + file_rows pre)
             - (Z.of_nat (length (nodes c)) + 1))%Z
      with (a + file_rows pre)%Z by lia.
    replace (b + (Z.of_nat (length (nodes c)) + 1 + file_rows pre)
             - (Z.of_nat (length (nodes c)) + 1))%Z
      with (b + file_rows pre)%Z by lia.
    rewrite IH by assumption. f_equal. lia.
Qed.

Lemma parse_sheet_loop_locate (pre : list Chain) (chain : Chain)
  (post : list Chain) (a b : Z) :
  forall i,
    (0 <= b < Z.of_nat (length (nodes chain)))%Z ->
    parse_sheet_loop (pre ++ chain :: post)
      ((a + file_rows pre)%Z, (b + file_rows pre)%Z) i
    = ((a, b), (i + length pre)%nat).
Proof.
  induction pre as [| c pre IH]; intros i Hb.
  - simpl. rewrite !Z.add_0_r, Nat.add_0_r.
    destruct (Z.ltb_spec b (Z.of_nat (length (nodes chain)))); [reflexivity | lia].
  - cbn [app parse_sheet_loop file_rows fst snd length].
    pose proof (file_rows_nonneg pre).
    destruct (Z.ltb_spec (b + (Z.of_nat (length (nodes c)) + 1 + file_rows pre))
                (Z.of_nat (length (nodes c)))); [lia |].
    replace (a + (Z.of_nat (length (nodes c)) + 1 + file_rows pre)
             - (Z.of_nat (length (nodes c)) + 1))%Z
      with (a + file_rows pre)%Z by lia.
    replace (b + (Z.of_nat (length (nodes c)) + 1 + file_rows pre)
             - (Z.of_nat (length (nodes c)) + 1))%Z
      with (b + file_rows pre)%Z by lia.
    rewrite IH by assumption. f_equal. lia.
Qed.

Lemma read_helix_lines (l : list Range) :
  forall (pre : list Chain) (chain : Chain) (post : list Chain)
         (rest : list string),
    Forall (helix_in (length (nodes chain))) l ->
    (file_rows pre + Z.of_nat (length (nodes chain)) + 1 <= 9999)%Z ->
    read_lines (pre ++ chain :: post)
      (helix_lines l (file_rows pre) ++ rest)
    = read_lines
        (pre ++ mkChain (nodes chain) (sheets chain) (helices chain ++ l)
           :: post)
        rest.
Proof.
  induction l as [| [a b] l IH]; intros pre chain post rest Hin Hmax.
  - simpl. rewrite app_nil_r. now destruct chain.
  - inversion Hin as [| ? ? ((Ha & Hab) & Hb) Hin']; subst.
    cbn [fst snd] in *.
    pose proof (file_rows_nonneg pre).
    cbn [helix_lines map app read_lines fst snd].
    rewrite read_line_helix by lia.
    rewrite parse_helix_loop_locate by lia. cbn [fst snd Nat.add].
    rewrite change_middle_chain. cbn [bind].
    fold (helix_lines l (file_rows pre)).
    rewrite IH by (cbn [nodes]; assumption).
    unfold add_helix. cbn [nodes sheets helices].
    now rewrite <- app_assoc.
Qed.

Lemma read_sheet_lines (l : list Range) :
  forall (pre : list Chain) (chain : Chain) (post : list Chain)
         (rest : list string),
    Forall (sheet_in (length (nodes chain))) l ->
    (file_rows pre + Z.of_nat (length (nodes chain)) + 1 <= 9999)%Z ->
    read_lines (pre ++ chain :: post)
      (sheet_lines l (file_rows pre) ++ rest)
    = read_lines
        (pre ++ mkChain (nodes chain) (sheets chain ++ l) (helices chain)
           :: post)
        rest.
Proof.
  induction l as [| [a b] l IH]; intros pre chain post rest Hin Hmax.
  - simpl. rewrite app_nil_r. now destruct chain.
  - inversion Hin as [| ? ? ((Ha & Hab) & Hb) Hin']; subst.
    cbn [fst snd] in *.
    pose proof (file_rows_nonneg pre).
    cbn [sheet_lines map app read_lines fst snd].
    rewrite read_line_sheet by lia.
    rewrite parse_sheet_loop_locate by lia. cbn [fst snd Nat.add].
    rewrite change_middle_chain. cbn [bind].
    fold (sheet_lines l (file_rows pre)).
    rewrite IH by (cbn [nodes]; assumption).
    unfold add_sheet. cbn [nodes sheets helices].
    now rewrite <- app_assoc.
Qed.

Lemma file_rows_map_read (f : Chain -> Chain) (chains : list Chain) :
  (forall c, length (nodes (f c)) = length (nodes c)) ->
  file_rows (map f chains) = file_rows chains.
Proof.
  intros Hf. induction chains as [| c chains IH]; simpl; [reflexivity |].
  now rewrite Hf, IH.
Qed.

Lemma read_all_helix_lines (chains : list Chain) :
  forall (pre : list Chain) (tail : list Chain) (rest : list string),
    Forall chain_writable chains ->
    (file_rows pre + file_rows chains <= 9999)%Z ->
    read_lines (pre ++ map nodes_read chains ++ tail)
      (all_helix_lines chains (file_rows pre) ++ rest)
    = read_lines (pre ++ map helices_read chains ++ tail) rest.
Proof.
  induction chains as [| c chains IH]; intros pre tail rest Hw Hmax.
  - reflexivity.
  - inversion Hw as [| ? ? (_ & Hh & _) Hw']; subst.
    cbn [all_helix_lines file_rows map app] in *.
    pose proof (file_rows_nonneg chains).
    rewrite <- app_assoc.
    rewrite read_helix_lines;
      [| cbn [nodes_read nodes]; now rewrite length_map
       | cbn [nodes_read nodes]; rewrite length_map; lia ].
    cbn [nodes_read nodes sheets helices app].
    change (pre ++ mkChain (map round_point (nodes c)) [] (helices c)
              :: map nodes_read chains ++ tail)
      with (pre ++ [helices_read c] ++ map nodes_read chains ++ tail).
    rewrite app_assoc.
    replace (file_rows pre + Z.of_nat (length (nodes c)) + 1)%Z
      with (file_rows (pre ++ [helices_read c])).
    2:{ rewrite file_rows_app. cbn [file_rows helices_read nodes].
        rewrite length_map. lia. }
    rewrite IH; [now rewrite <- app_assoc | assumption |].
    rewrite file_rows_app. cbn [file_rows helices_read nodes].
    rewrite length_map. lia.
Qed.

Lemma read_all_sheet_lines (chains : list Chain) :
  forall (pre : list Chain) (tail : list Chain) (rest : list string),
    Forall chain_writable chains ->
    (file_rows pre + file_rows chains <= 9999)%Z ->
    read_lines (pre ++ map helices_read chains ++ tail)
      (all_sheet_lines chains (file_rows pre) ++ rest)
    = read_lines (pre ++ map as_read chains ++ tail) rest.
Proof.
  induction chains as [| c chains IH]; intros pre tail rest Hw Hmax.
  - reflexivity.
  - inversion Hw as [| ? ? (_ & _ & Hs) Hw']; subst.
    cbn [all_sheet_lines file_rows map app] in *.
    pose proof (file_rows_nonneg chains).
    rewrite <- app_assoc.
    rewrite read_sheet_lines;
      [| cbn [helices_read nodes]; now rewrite length_map
       | cbn [helices_read nodes]; rewrite length_map; lia ].
    cbn [helices_read nodes sheets helices app].
    change (pre ++ mkChain (map round_point (nodes c)) (sheets c) (helices c)
              :: map helices_read chains ++ tail)
      with (pre ++ [as_read c] ++ map helices_read chains ++ tail).
    rewrite app_assoc.
    replace (file_rows pre + Z.of_nat (length (nodes c)) + 1)%Z
      with (file_rows (pre ++ [as_read c])).
    2:{ rewrite file_rows_app. cbn [file_rows as_read nodes].
        rewrite length_map. lia. }
    rewrite IH; [now rewrite <- app_assoc | assumption |].
    rewrite file_rows_app. cbn [file_rows as_read nodes].
    rewrite length_map. lia.
Qed.

(** ** The written text, line by line *)

Lemma TER_is_line : is_line ("TER" ++ newline).
Proof. exists "TER"%string. split; reflexivity. Qed.

Lemma node_lines_are_lines (l : list Point) :
  forall n,
    Forall node_fits l -> (0 <= n)%Z ->
    (n + Z.of_nat (length l) <= 10000)%Z ->
    Forall is_line (node_lines l n).
Proof.
  induction l as [| node l IH]; intros n Hfit Hn Hmax; [constructor |].
  inversion Hfit as [| ? ? (Hx & Hy & Hz) Hfit']; subst.
  cbn [node_lines length] in *. constructor.
  - apply record_is_line.
    apply (format_node_columns node n); assumption || lia.
  - apply IH; assumption || lia.
Qed.

Lemma helix_lines_are_lines (l : list Range) (len : nat) (offset : Z) :
  Forall (helix_in len) l -> (0 <= offset)%Z ->
  (offset + Z.of_nat len + 1 <= 9999)%Z ->
  Forall is_line (helix_lines l offset).
Proof.
  intros Hin H0 Hmax. unfold helix_lines.
  induction Hin as [| [a b] l ((Ha & Hab) & Hb) _ IH]; [constructor |].
  cbn [map fst snd] in *. constructor; [| exact IH].
  apply record_is_line. apply format_helix_info_columns; lia.
Qed.

Lemma sheet_lines_are_lines (l : list Range) (len : nat) (offset : Z) :
  Forall (sheet_in len) l -> (0 <= offset)%Z ->
  (offset + Z.of_nat len + 1 <= 9999)%Z ->
  Forall is_line (sheet_lines l offset).
Proof.
  intros Hin H0 Hmax. unfold sheet_lines.
  induction Hin as [| [a b] l ((Ha & Hab) & Hb) _ IH]; [constructor |].
  cbn [map fst snd] in *. constructor; [| exact IH].
  apply record_is_line. apply format_sheet_info_columns; lia.
Qed.

Lemma all_lines_are_lines (chains : list Chain) :
  forall offset,
    Forall chain_writable chains -> (0 <= offset)%Z ->
    (offset + file_rows chains <= 9999)%Z ->
    Forall is_line (all_node_lines chains offset)
    /\ Forall is_line (all_helix_lines chains offset)
    /\ Forall is_line (all_sheet_lines chains offset).
Proof.
  induction chains as [| c chains IH]; intros offset Hw H0 Hmax.
  - repeat constructor.
  - inversion Hw as [| ? ? (Hn & Hh & Hs) Hw']; subst.
    cbn [all_node_lines all_helix_lines all_sheet_lines file_rows] in *.
    pose proof (file_rows_nonneg chains).
    destruct (IH (offset + Z.of_nat (length (nodes c)) + 1)%Z Hw')
      as (IHn & IHh & IHs); try lia.
    repeat split; rewrite ?Forall_app; repeat split; try assumption.
    + apply node_lines_are_lines; assumption || lia.
    + constructor; [apply TER_is_line | constructor].
    + apply (helix_lines_are_lines _ (length (nodes c))); assumption || lia.
    + apply (sheet_lines_are_lines _ (length (nodes c))); assumption || lia.
Qed.

Lemma write_pdb_lines (chains : list Chain) :
  Forall chain_writable chains -> (file_rows chains <= 9999)%Z ->
  py_lines (write_pdb chains)
  = all_node_lines chains 0 ++ all_helix_lines chains 0
      ++ all_sheet_lines chains 0.
Proof.
  intros Hw Hmax. unfold write_pdb. rewrite write_records_blocks.
  destruct (all_lines_are_lines chains 0 Hw) as (Hn & Hh & Hs); try lia.
  rewrite !py_lines_concat by assumption.
  rewrite <- (string_app_nil_r (String.concat "" (all_sheet_lines chains 0))).
  rewrite py_lines_concat by assumption.
  simpl. now rewrite app_nil_r.
Qed.

Lemma write_pdb_read_pdb (chains : list Chain) :
  Forall chain_writable chains -> (file_rows chains <= 9999)%Z ->
  read_pdb (write_pdb chains)
  = Ok (map as_read chains ++ [mkChain [] [] []]).
Proof.
  intros Hw Hmax. unfold read_pdb. rewrite write_pdb_lines by assumption.
  pose proof (read_all_node_lines chains 0 []
                (all_helix_lines chains 0 ++ all_sheet_lines chains 0) Hw
                ltac:(lia) ltac:(lia)) as H1.
  pose proof (read_all_helix_lines chains [] [mkChain [] [] []]
                (all_sheet_lines chains 0) Hw ltac:(simpl; lia)) as H2.
  pose proof (read_all_sheet_lines chains [] [mkChain [] [] []] [] Hw
                ltac:(simpl; lia)) as H3.
  cbn [app file_rows] in H1, H2, H3. rewrite app_nil_r in H3.
  now rewrite H1, H2, H3.
Qed.

(** ** Coordinates with exact thousandths *)

Lemma round_half_even_integer (m : Z) : round_half_even (IZR m) = m.
Proof.
  unfold round_half_even.
  rewrite (Int_part_interval (IZR m) m) by lra.
  destruct (Rlt_dec (IZR m - IZR m) (1 / 2)); [reflexivity | lra].
Qed.

Lemma thousandths_exact (x : R) (m : Z) :
  (Rabs x * 1000 = IZR m)%R -> thousandths x = m.
Proof. intros H. unfold thousandths. rewrite H. apply round_half_even_integer. Qed.

Lemma format_3f_nonneg (x : R) (m : Z) :
  (0 <= x)%R -> (x * 1000 = IZR m)%R ->
  format_3f x
  = (str_Z (m / 1000) ++ "." ++ zfill (str_Z (m mod 1000)) 3)%string.
Proof.
  intros H0 Hm. unfold format_3f.
  rewrite (thousandths_exact x m) by (rewrite Rabs_pos_eq; assumption).
  destruct (Rlt_dec x 0); [lra | reflexivity].
Qed.

Lemma format_3f_negative (x : R) (m : Z) :
  (x < 0)%R -> (- x * 1000 = IZR m)%R ->
  format_3f x
  = ("-" ++ str_Z (m / 1000) ++ "." ++ zfill (str_Z (m mod 1000)) 3)%string.
Proof.
  intros H0 Hm. unfold format_3f.
  rewrite (thousandths_exact x m) by (rewrite Rabs_left; assumption).
  destruct (Rlt_dec x 0); [reflexivity | lra].
Qed.

Lemma format_3f_samples :
  format_3f 0 = "0.000"%string
  /\ format_3f 1.5 = "1.500"%string
  /\ format_3f (-2.25) = "-2.250"%string
  /\ format_3f 10 = "10.000"%string
  /\ format_3f (-100) = "-100.000"%string.
Proof.
  repeat split.
  - rewrite (format_3f_nonneg 0 0) by lra. reflexivity.
  - rewrite (format_3f_nonneg 1.5 1500) by lra. reflexivity.
  - rewrite (format_3f_negative (-2.25) 2250) by lra. reflexivity.
  - rewrite (format_3f_nonneg 10 10000) by lra. reflexivity.
  - rewrite (format_3f_negative (-100) 100000) by lra. reflexivity.
Qed.

Lemma sample_chains_writable :
  Forall chain_writable sample_chains /\ (file_rows sample_chains <= 9999)%Z.
Proof.
  destruct format_3f_samples as (F0 & F1 & F2 & F3 & _).
  assert (H0 : node_fits (mkPoint 0 0 0)).
  { unfold node_fits, coordinate_fits. cbn [px py pz]. rewrite F0.
    simpl. lia. }
  assert (H1 : node_fits (mkPoint 1.5 (-2.25) 10)).
  { unfold node_fits, coordinate_fits. cbn [px py pz]. rewrite F1, F2, F3.
    simpl. lia. }
  split; [| simpl; lia].
  unfold sample_chains.
  repeat apply Forall_cons; try apply Forall_nil;
    unfold chain_writable, helix_in, sheet_in;
    cbn [nodes helices sheets length];
    (split; [| split]);
    repeat apply Forall_cons; try apply Forall_nil;
    cbn [fst snd]; try assumption; lia.
Qed.

(** C8 (as the code has it).  Take chains in which every helix entry is a
    half-open range [0 <= start <= end <= len(nodes)] of its chain, every
    sheet entry names a first and a last node
    ([0 <= start <= end < len(nodes)], the end inclusive), nodes and chain
    terminators together take at most 9999 rows, and the 3-decimal text of
    every coordinate has at most 7 characters.  Then [read_pdb] applied to
    the text [write_pdb] produces returns the same chains, helix and sheet
    boundaries unchanged and every coordinate at its 3-decimal value,
    followed by one empty chain.  A HELIX record carries [start + 1] and
    [end]; a SHEET record carries [start + 1] and [end + 1]; the two parsers
    subtract what their writer added. *)
Theorem write_read_round_trip (chains : list Chain) :
  Forall chain_writable chains ->
  (file_rows chains <= 9999)%Z ->
  read_pdb (write_pdb chains) = Ok (map as_read chains ++ [mkChain [] [] []])
  /\ (forall a b,
        (0 <= a + 1 <= 9999)%Z -> (0 <= b <= 9999)%Z ->
        py_int (str_slice (format_helix_info "A" a b) 21 25) = Ok (a + 1)%Z
        /\ py_int (str_slice (format_helix_info "A" a b) 33 37) = Ok b)
  /\ (forall a b,
        (0 <= a + 1 <= 9999)%Z -> (0 <= b + 1 <= 9999)%Z ->
        py_int (str_slice (format_sheet_info "A" a b) 22 26) = Ok (a + 1)%Z
        /\ py_int (str_slice (format_sheet_info "A" a b) 33 37)
           = Ok (b + 1)%Z).
Proof.
  intros Hw Hmax. split; [now apply write_pdb_read_pdb |]. split.
  - intros a b Ha Hb.
    destruct (format_helix_info_columns a b Ha Hb) as (P1 & P2 & _).
    now split.
  - intros a b Ha Hb.
    destruct (format_sheet_info_columns a b Ha Hb) as (P1 & P2 & _).
    now split.
Qed.

Lemma write_read_round_trip_witness :
  read_pdb (write_pdb sample_chains)
  = Ok (map as_read sample_chains ++ [mkChain [] [] []])
  /\ (forall a b,
        (0 <= a + 1 <= 9999)%Z -> (0 <= b <= 9999)%Z ->
        py_int (str_slice (format_helix_info "A" a b) 21 25) = Ok (a + 1)%Z
        /\ py_int (str_slice (format_helix_info "A" a b) 33 37) = Ok b)
  /\ (forall a b,
        (0 <= a + 1 <= 9999)%Z -> (0 <= b + 1 <= 9999)%Z ->
        py_int (str_slice (format_sheet_info "A" a b) 22 26) = Ok (a + 1)%Z
        /\ py_int (str_slice (format_sheet_info "A" a b) 33 37)
           = Ok (b + 1)%Z).
Proof.
  apply (write_read_round_trip sample_chains);
    apply sample_chains_writable.
Defined.

(** C8 as stated fails: the sheet entry [0, 1) is a valid half-open range
    of a chain of one node, yet after writing and reading the chain has no
    sheet, and the entry has gone to the chain behind it as (-2, -1). *)
Lemma sheet_to_the_end_is_misplaced :
  Forall (fun chain =>
            Forall (fun sheet =>
                      (0 <= fst sheet <= snd sheet)%Z
                      /\ (snd sheet <= Z.of_nat (length (nodes chain)))%Z)
                   (sheets chain))
         sheet_to_the_end
  /\ read_pdb (write_pdb sheet_to_the_end)
     = Ok [ mkChain [round_point (mkPoint 0 0 0)] [] [];
            mkChain [] [((-2)%Z, (-1)%Z)] [] ].
Proof.
  split.
  { repeat constructor; simpl; lia. }
  destruct format_3f_samples as (F0 & _).
  assert (H0 : (String.length (format_3f 0) <= 7)%nat)
    by (rewrite F0; simpl; lia).
  unfold read_pdb, write_pdb, sheet_to_the_end.
  rewrite write_records_blocks.
  cbn [all_node_lines all_helix_lines all_sheet_lines nodes helices sheets
       node_lines helix_lines sheet_lines map app fst snd length].
  replace (0 + 1)%Z with 1%Z by lia. replace (1 + 0)%Z with 1%Z by lia.
  replace (0 + 0)%Z with 0%Z by lia.
  assert (Hnode := format_node_columns (mkPoint 0 0 0) 1 ltac:(lia) H0 H0 H0).
  destruct Hnode as (_ & _ & Hrec).
  destruct (format_sheet_info_columns 0 1 ltac:(lia) ltac:(lia))
    as (_ & _ & _ & _ & Hsheet).
  set (ter := ("TER" ++ newline)%string).
  set (node_line := format_node (mkPoint 0 0 0) "A" 1) in *.
  set (sheet_line := format_sheet_info "A" 0 1) in *.
  assert (Hter : is_line ter) by apply TER_is_line.
  apply record_is_line in Hrec, Hsheet.
  rewrite !concat_empty_cons. cbn [String.concat].
  rewrite !string_app_nil_r, !string_app_assoc. cbn [append].
  rewrite <- (string_app_nil_r sheet_line).
  rewrite !py_lines_line by assumption.
  cbn [py_lines read_lines]. unfold node_line, ter, sheet_line.
  pose proof (read_line_node [] (mkChain [] [] []) (mkPoint 0 0 0) 1
                ltac:(lia) H0 H0 H0) as Hnode.
  cbn [app] in Hnode. rewrite Hnode.
  cbn [bind app]. rewrite read_line_TER. cbn [bind app].
  rewrite read_line_sheet by lia.
  reflexivity.
Qed.

(** The reader takes columns 31..37 of an 8-column field that starts at
    column 30: a coordinate whose text fills the field loses its first
    character.  Here -100.000 comes back as 100. *)
Lemma parse_node_drops_first_column :
  parse_node (format_node (mkPoint (-100) 0 0) "A" 1)
  = Ok (mkPoint (round_3f 100) (round_3f 0) (round_3f 0))
  /\ round_3f 100 = 100%R
  /\ round_3f (-100) = (-100)%R.
Proof.
  destruct format_3f_samples as (F0 & _ & _ & _ & F4).
  assert (F100 : format_3f 100 = "100.000"%string).
  { rewrite (format_3f_nonneg 100 100000) by lra. reflexivity. }
  split; [| split].
  - unfold parse_node, format_node. cbn [px py pz]. rewrite F0, F4.
    replace (str_slice _ 31 38) with (rjust (format_3f 100) 7)
      by (rewrite F100; reflexivity).
    replace (str_slice _ 39 46) with (rjust (format_3f 0) 7)
      by (rewrite F0; reflexivity).
    replace (str_slice _ 47 54) with (rjust (format_3f 0) 7)
      by (rewrite F0; reflexivity).
    now rewrite !py_float_format_3f.
  - unfold round_3f. rewrite (thousandths_exact 100 100000).
    + destruct (Rlt_dec 100 0); lra.
    + rewrite Rabs_pos_eq; lra.
  - unfold round_3f. rewrite (thousandths_exact (-100) 100000).
    + destruct (Rlt_dec (-100) 0); lra.
    + rewrite Rabs_left; lra.
Qed.

(** ** Vectors: length, distance, centroid, angle *)

Lemma norm_origin : norm origin = 0.
Proof.
  unfold norm, origin; cbn.
  replace (0 * 0 + 0 * 0 + 0 * 0) with 0 by ring. apply sqrt_0.
Qed.

Lemma norm_zero_iff (a : Point) : norm a = 0 <-> a = origin.
Proof.
  split; [apply norm_zero_inv | intros ->; apply norm_origin].
Qed.

Lemma norm_vscale (k : R) (a : Point) : norm (vscale k a) = Rabs k * norm a.
Proof.
  unfold norm, vscale; cbn.
  replace (k * px a * (k * px a) + k * py a * (k * py a) + k * pz a * (k * pz a))
    with (k * k * (px a * px a + py a * py a + pz a * pz a)) by ring.
  rewrite sqrt_mult_alt by nra.
  f_equal. rewrite <- sqrt_Rsqr_abs. reflexivity.
Qed.

Lemma vdiv_vscale (a : Point) (k : R) : vdiv a k = vscale (/ k) a.
Proof. unfold vdiv, vscale; cbn. f_equal; unfold Rdiv; ring. Qed.

Lemma norm_normalize (v : Point) : norm v <> 0 -> norm (normalize v) = 1.
Proof.
  intros Hv. unfold normalize.
  destruct (Req_EM_T (norm v) 0) as [E | _]; [contradiction |].
  rewrite vdiv_vscale, norm_vscale.
  pose proof (norm_nonneg v) as Hn.
  rewrite Rabs_pos_eq.
  - now apply Rinv_l.
  - left. apply Rinv_0_lt_compat. lra.
Qed.

Lemma normalize_origin : normalize origin = origin.
Proof.
  unfold normalize. destruct (Req_EM_T (norm origin) 0) as [_ | N]; [reflexivity |].
  destruct N. apply norm_origin.
Qed.

(** X1.  [normalize] returns the zero vector as it is (it never divides by
    zero) and, for every other vector, a vector of length 1 which, scaled
    back by the length of the input, is the input. *)
Theorem normalize_unit_length (v : Point) :
  (v = origin -> normalize v = v)
  /\ (v <> origin ->
        norm (normalize v) = 1 /\ vscale (norm v) (normalize v) = v).
Proof.
  split.
  - intros ->. apply normalize_origin.
  - intros Hv.
    assert (Hn : norm v <> 0) by (intros E; apply Hv; now apply norm_zero_inv).
    split; [now apply norm_normalize |].
    unfold normalize. destruct (Req_EM_T (norm v) 0) as [E | _]; [contradiction |].
    destruct v as [x y z]; unfold vscale, vdiv; cbn [px py pz].
    f_equal; field; exact Hn.
Qed.

Lemma get_distance_vector (a b : Point) :
  get_distance a b = norm (get_vector a b).
Proof.
  unfold get_distance, get_vector, vsub, norm; cbn. f_equal. ring.
Qed.

Lemma get_distance_sym (a b : Point) : get_distance a b = get_distance b a.
Proof.
  unfold get_distance, vsub, norm; cbn. f_equal. ring.
Qed.

Lemma get_distance_nonneg (a b : Point) : 0 <= get_distance a b.
Proof. apply norm_nonneg. Qed.

Lemma get_distance_zero_iff (a b : Point) : get_distance a b = 0 <-> a = b.
Proof.
  split.
  - intros H. rewrite get_distance_vector in H.
    apply norm_zero_inv in H. apply get_vector_zero_inv in H. now subst.
  - intros ->. unfold get_distance, vsub, norm; cbn.
    replace ((px b - px b) * (px b - px b) + (py b - py b) * (py b - py b)
             + (pz b - pz b) * (pz b - pz b)) with 0 by ring.
    apply sqrt_0.
Qed.

Lemma dot_le_norms (u v : Point) : dot u v <= norm u * norm v.
Proof.
  pose proof (norm_nonneg u) as Hu. pose proof (norm_nonneg v) as Hv.
  pose proof (norm_sqr u) as Su. pose proof (norm_sqr v) as Sv.
  destruct (Rle_dec (dot u v) 0) as [Neg | Pos]; [nra |].
  assert (C : dot u v * dot u v <= (norm u * norm v) * (norm u * norm v)).
  { replace (norm u * norm v * (norm u * norm v))
      with ((norm u * norm u) * (norm v * norm v)) by ring.
    rewrite Su, Sv. unfold dot.
    destruct u as [a b c], v as [x y z]; cbn [px py pz].
    pose proof (sum_squares_nonneg (b * z - c * y) (c * x - a * z) (a * y - b * x)).
    nra. }
  apply Rsqr_incr_0_var; [exact C | nra].
Qed.

Lemma norm_triangle (u v : Point) : norm (vadd u v) <= norm u + norm v.
Proof.
  pose proof (norm_nonneg u) as Hu. pose proof (norm_nonneg v) as Hv.
  pose proof (norm_nonneg (vadd u v)) as Huv.
  pose proof (norm_sqr u) as Su. pose proof (norm_sqr v) as Sv.
  pose proof (norm_sqr (vadd u v)) as Suv.
  pose proof (dot_le_norms u v) as C.
  assert (D : dot (vadd u v) (vadd u v) = dot u u + 2 * dot u v + dot v v).
  { unfold dot, vadd; cbn. ring. }
  apply Rsqr_incr_0_var; [unfold Rsqr; nra | nra].
Qed.

(** X2.  [get_distance] is a metric: it is never negative, symmetric, zero
    exactly between equal points, obeys the triangle inequality, and is the
    length of [get_vector]. *)
Theorem get_distance_metric (a b c : Point) :
  0 <= get_distance a b
  /\ get_distance a b = get_distance b a
  /\ (get_distance a b = 0 <-> a = b)
  /\ get_distance a c <= get_distance a b + get_distance b c
  /\ get_distance a b = norm (get_vector a b).
Proof.
  repeat split.
  - apply get_distance_nonneg.
  - apply get_distance_sym.
  - apply get_distance_zero_iff.
  - intros ->. now apply get_distance_zero_iff.
  - unfold get_distance.
    replace (vsub a c) with (vadd (vsub a b) (vsub b c)).
    + apply norm_triangle.
    + unfold vadd, vsub; cbn. f_equal; ring.
  - apply get_distance_vector.
Qed.

Lemma fold_sum_shift (f : Point -> R) (l : list Point) (s : R) :
  fold_left (fun s node => s + f node) l s
  = s + fold_left (fun s node => s + f node) l 0.
Proof.
  revert s. induction l as [| x l IH]; intros s; cbn.
  - ring.
  - rewrite IH, (IH (0 + f x)). ring.
Qed.

Lemma fold_sum_translate (f : Point -> R) (d : Point) (l : list Point) :
  (forall p, f (vadd d p) = f d + f p) ->
  fold_left (fun s node => s + f node) (map (vadd d) l) 0
  = INR (length l) * f d + fold_left (fun s node => s + f node) l 0.
Proof.
  intros Hf. induction l as [| x l IH].
  - cbn. ring.
  - cbn [map fold_left length].
    rewrite fold_sum_shift, IH, (fold_sum_shift f l (0 + f x)), Hf, S_INR. ring.
Qed.

Lemma fold_sum_repeat (f : Point -> R) (p : Point) (n : nat) :
  fold_left (fun s node => s + f node) (repeat p n) 0 = INR n * f p.
Proof.
  induction n as [| n IH].
  - cbn. ring.
  - cbn [repeat fold_left]. rewrite fold_sum_shift, IH, S_INR. ring.
Qed.

Lemma get_centroid_value (l : list Point) :
  l <> [] ->
  get_centroid l
  = Ok (mkPoint
          (fold_left (fun s node => s + px node) l 0 / INR (length l))
          (fold_left (fun s node => s + py node) l 0 / INR (length l))
          (fold_left (fun s node => s + pz node) l 0 / INR (length l))).
Proof.
  destruct l; [congruence | reflexivity].
Qed.

(** X3.  [get_centroid] raises [ZeroDivisionError] on the empty list and
    returns on every other list; the centroid of copies of one node is that
    node; moving every node by [d] moves the centroid by [d]. *)
Theorem get_centroid_mean :
  get_centroid [] = Raise ZeroDivisionError
  /\ (forall node nodes, exists c, get_centroid (node :: nodes) = Ok c)
  /\ (forall p n, get_centroid (repeat p (S n)) = Ok p)
  /\ (forall d nodes c,
        get_centroid nodes = Ok c ->
        get_centroid (map (vadd d) nodes) = Ok (vadd d c)).
Proof.
  split; [reflexivity |]. split; [| split].
  - intros node l. eexists. reflexivity.
  - intros p n. unfold get_centroid.
    rewrite !fold_sum_repeat, repeat_length.
    assert (H : INR (S n) <> 0) by (apply not_0_INR; discriminate).
    cbn [repeat]. f_equal. destruct p as [x y z]; cbn [px py pz].
    f_equal; field; exact H.
  - intros d l c H.
    assert (Hl : l <> []) by (intros ->; discriminate).
    rewrite (get_centroid_value l Hl) in H. injection H as <-.
    rewrite get_centroid_value by (destruct l; [congruence | discriminate]).
    rewrite (fold_sum_translate px), (fold_sum_translate py),
      (fold_sum_translate pz) by (intros; reflexivity).
    rewrite length_map.
    assert (Hn : INR (length l) <> 0).
    { apply not_0_INR. destruct l; [congruence | discriminate]. }
    unfold vadd; cbn [px py pz].
    f_equal. f_equal; field; exact Hn.
Qed.

Lemma clip_bounds (x : R) : -1 <= clip x (-1) 1 <= 1.
Proof.
  unfold clip, Rmin, Rmax.
  destruct (Rle_dec x (-1)); destruct (Rle_dec _ 1); lra.
Qed.

Lemma dot_sym (a b : Point) : dot a b = dot b a.
Proof. unfold dot. ring. Qed.

Lemma dot_origin_l (a : Point) : dot origin a = 0.
Proof. unfold dot, origin; cbn. ring. Qed.

Lemma clip_zero : clip 0 (-1) 1 = 0.
Proof. apply clip_inside. lra. Qed.

Lemma angle_between_origin_l (v : Point) : angle_between origin v = 90.
Proof.
  unfold angle_between. rewrite normalize_origin, dot_origin_l, clip_zero, acos_0.
  field. apply PI_neq0.
Qed.

(** X4.  [angle_between] answers between 0 and 180 degrees for all inputs
    and is symmetric; it is 90 whenever one of the vectors is the zero vector
    (which [normalize] leaves as it is), and 0 between a vector other than
    zero and itself. *)
Theorem angle_between_range (v1 v2 : Point) :
  0 <= angle_between v1 v2 <= 180
  /\ angle_between v1 v2 = angle_between v2 v1
  /\ angle_between origin v2 = 90
  /\ angle_between v1 origin = 90
  /\ (v1 <> origin -> angle_between v1 v1 = 0).
Proof.
  assert (Hpi : 0 < PI) by apply PI_RGT_0.
  split; [| split; [| split; [| split]]].
  - unfold angle_between.
    pose proof (acos_bound (clip (dot (normalize v1) (normalize v2)) (-1) 1))
      as [Lo Hi].
    set (a := acos _) in *.
    split.
    + apply Rmult_le_pos; [exact Lo |].
      apply Rlt_le, Rdiv_lt_0_compat; lra.
    + apply Rle_trans with (PI * (180 / PI)).
      * apply Rmult_le_compat_r; [| exact Hi].
        apply Rlt_le, Rdiv_lt_0_compat; lra.
      * right. field. lra.
  - unfold angle_between. now rewrite dot_sym.
  - apply angle_between_origin_l.
  - unfold angle_between. rewrite dot_sym. apply angle_between_origin_l.
  - intros Hv.
    assert (Hn : norm v1 <> 0) by (intros E; apply Hv; now apply norm_zero_inv).
    unfold angle_between.
    rewrite <- norm_sqr, (norm_normalize v1 Hn), Rmult_1_r.
    rewrite clip_inside by lra. rewrite acos_1. ring.
Qed.

Lemma norm_pos (v : Point) : v <> origin -> 0 < norm v.
Proof.
  intros Hv. pose proof (norm_nonneg v) as H.
  destruct H as [H | H]; [exact H |].
  destruct Hv. now apply norm_zero_inv.
Qed.

(** X5.  For a [vector2] other than zero, the projection of [vector1] onto
    it is parallel to [vector2], what is left of [vector1] is orthogonal to
    [vector2], projecting a second time changes nothing, and the projection
    is no longer than [vector1]. *)
Theorem project_vector_orthogonal (vector1 vector2 : Point) :
  vector2 <> origin ->
  dot (vsub vector1 (project_vector vector1 vector2)) vector2 = 0
  /\ cross (project_vector vector1 vector2) vector2 = origin
  /\ project_vector (project_vector vector1 vector2) vector2
     = project_vector vector1 vector2
  /\ norm (project_vector vector1 vector2) <= norm vector1.
Proof.
  intros Hv. pose proof (norm_pos vector2 Hv) as Hn.
  pose proof (norm_sqr vector2) as Sq.
  assert (P : forall w, project_vector w vector2
                        = vscale (dot w vector2 / (norm vector2 * norm vector2))
                            vector2).
  { intros w. unfold project_vector, vscale, vdiv; cbn [px py pz].
    f_equal; field; lra. }
  assert (D : dot vector2 vector2 <> 0) by (rewrite <- Sq; nra).
  split; [| split; [| split]].
  - rewrite P, Sq. unfold dot, vsub, vscale; cbn [px py pz].
    unfold dot in D. field. exact D.
  - rewrite P. unfold cross, vscale, origin; cbn [px py pz]. f_equal; ring.
  - rewrite !P, dot_vscale_left, Sq.
    unfold vscale; cbn [px py pz]. f_equal; field; exact D.
  - rewrite P, norm_vscale, Sq.
    pose proof (dot_le_norms vector1 vector2) as C1.
    pose proof (dot_le_norms (vscale (-1) vector1) vector2) as C2.
    rewrite dot_vscale_left, norm_vscale in C2.
    replace (Rabs (-1)) with 1 in C2
      by (rewrite Rabs_left by lra; ring).
    rewrite <- Sq. unfold Rdiv. rewrite Rabs_mult.
    rewrite (Rabs_pos_eq (/ _)) by (left; apply Rinv_0_lt_compat; nra).
    assert (A : Rabs (dot vector1 vector2) <= norm vector1 * norm vector2).
    { unfold Rabs. destruct (Rcase_abs _); lra. }
    pose proof (norm_nonneg vector1) as H1.
    replace (Rabs (dot vector1 vector2) * / (norm vector2 * norm vector2)
             * norm vector2)
      with (Rabs (dot vector1 vector2) / norm vector2) by (field; lra).
    apply Rmult_le_reg_r with (norm vector2); [exact Hn |].
    replace (Rabs (dot vector1 vector2) / norm vector2 * norm vector2)
      with (Rabs (dot vector1 vector2)) by (field; lra).
    exact A.
Qed.

Lemma project_vector_orthogonal_witness :
  dot (vsub (mkPoint 1 1 0) (project_vector (mkPoint 1 1 0) (mkPoint 1 0 0)))
      (mkPoint 1 0 0) = 0
  /\ cross (project_vector (mkPoint 1 1 0) (mkPoint 1 0 0)) (mkPoint 1 0 0)
     = origin
  /\ project_vector (project_vector (mkPoint 1 1 0) (mkPoint 1 0 0))
       (mkPoint 1 0 0)
     = project_vector (mkPoint 1 1 0) (mkPoint 1 0 0)
  /\ norm (project_vector (mkPoint 1 1 0) (mkPoint 1 0 0))
     <= norm (mkPoint 1 1 0).
Proof.
  apply project_vector_orthogonal.
  intros E. apply (f_equal px) in E. cbn in E. lra.
Defined.

(** ** Curve: the control points kept *)

Lemma py_slice_drop_last {A : Type} (l : list A) :
  py_slice l 0 (-1) = removelast l.
Proof.
  unfold py_slice, slice_bound.
  change (0 <? 0)%Z with false. change (-1 <? 0)%Z with true. cbv iota.
  rewrite Z.min_l by lia. cbn [Z.to_nat skipn]. rewrite Nat.sub_0_r.
  rewrite removelast_firstn_len. f_equal. lia.
Qed.

Lemma nth_last {A : Type} (l : list A) (d : A) :
  nth (length l - 1) l d = last l d.
Proof.
  induction l as [| x [| y l'] IH]; try reflexivity.
  cbn [length last] in *. rewrite <- IH.
  replace (S (S (length l')) - 1)%nat with (S (S (length l') - 1)) by lia.
  reflexivity.
Qed.

Lemma py_index_last {A : Type} (l : list A) (d : A) :
  l <> [] -> py_index l (-1) = Ok (last l d).
Proof.
  intros Hl. unfold py_index.
  change (-1 <? 0)%Z with true. cbv iota.
  assert (Hlen : (0 < length l)%nat) by (destruct l; [congruence | cbn; lia]).
  replace ((0 <=? -1 + Z.of_nat (length l))
           && (-1 + Z.of_nat (length l) <? Z.of_nat (length l)))%Z
    with true by (symmetry; apply andb_true_iff; split; lia).
  replace (Z.to_nat (-1 + Z.of_nat (length l))) with (length l - 1)%nat by lia.
  destruct (nth_error l (length l - 1)) as [x |] eqn:E.
  - f_equal. apply nth_error_nth with (d := d) in E.
    now rewrite <- E, nth_last.
  - apply nth_error_None in E. lia.
Qed.

Lemma every_nth_from_incl {A : Type} (step : nat) (l : list A) :
  forall skip, incl (every_nth_from skip step l) l.
Proof.
  induction l as [| x l IH]; intros skip; cbn; [apply incl_nil_l |].
  destruct skip.
  - apply incl_cons; [now left | apply incl_tl, IH].
  - apply incl_tl, IH.
Qed.

Lemma every_nth_from_length {A : Type} (step : nat) (l : list A) :
  (1 <= step)%nat ->
  forall skip, (skip < step)%nat ->
    length (every_nth_from skip step l)
    = ((length l - skip + (step - 1)) / step)%nat.
Proof.
  intros Hstep. induction l as [| x l IH]; intros skip Hskip.
  - cbn. symmetry. apply Nat.div_small. lia.
  - cbn [every_nth_from length]. destruct skip as [| k].
    + cbn [length]. rewrite IH by lia.
      replace (S (length l) - 0 + (step - 1))%nat
        with (length l + 1 * step)%nat by lia.
      rewrite Nat.div_add by lia.
      destruct (le_lt_dec (step - 1) (length l)) as [Hge | Hlt].
      * replace (length l - (step - 1) + (step - 1))%nat with (length l) by lia.
        lia.
      * replace (length l - (step - 1) + (step - 1))%nat with (step - 1)%nat
          by lia.
        rewrite !Nat.div_small by lia. lia.
    + rewrite IH by lia. reflexivity.
Qed.

(** X6.  [Curve.__init__]: a step [flatten] of 0 raises [ValueError], and
    an empty node list raises [IndexError]; from a nonempty list and a
    positive [flatten] the curve starts at the first node, ends at the last
    node, holds only nodes of the list, and has
    [ceil ((n - 1) / flatten) + 1] control points for [n] nodes. *)
Theorem new_Curve_keeps_ends :
  (forall nodes, new_Curve nodes 0 = Raise ValueError)
  /\ (forall flatten,
        (1 <= flatten)%nat -> new_Curve [] flatten = Raise IndexError)
  /\ (forall first rest flatten,
        (1 <= flatten)%nat ->
        exists crv,
          new_Curve (first :: rest) flatten = Ok crv
          /\ hd_error (curve_nodes crv) = Some first
          /\ last (curve_nodes crv) origin = last (first :: rest) origin
          /\ incl (curve_nodes crv) (first :: rest)
          /\ length (curve_nodes crv)
             = ((length rest + (flatten - 1)) / flatten + 1)%nat).
Proof.
  split; [| split].
  - intros l. reflexivity.
  - intros [| f] Hf; [lia | reflexivity].
  - intros first rest flatten Hf.
    unfold new_Curve. rewrite py_slice_drop_last.
    destruct flatten as [| f]; [lia |]. cbn [py_step bind].
    rewrite (py_index_last _ origin) by discriminate. cbn [bind].
    eexists. split; [reflexivity |]. cbn [curve_nodes].
    split; [| split; [| split]].
    + destruct rest as [| q rest']; reflexivity.
    + apply last_last.
    + apply incl_app.
      * eapply incl_tran; [apply every_nth_from_incl |].
        intros x Hx.
        rewrite (@app_removelast_last _ (first :: rest) origin)
          by discriminate.
        apply in_or_app. now left.
      * intros x [<- | []].
        destruct (exists_last (l := first :: rest)) as [l' [a E]];
          [discriminate |].
        rewrite E, last_last. apply in_or_app. right. now left.
    + rewrite length_app, every_nth_from_length by lia.
      rewrite removelast_firstn_len, length_firstn. cbn [length].
      replace (Nat.min (Nat.pred (S (length rest))) (S (length rest)) - 0)%nat
        with (length rest) by lia.
      reflexivity.
Qed.

(** ** Curve: the segment that holds an arc length *)

Lemma polyline_length_app_head (p q : Point) (pre tail : list Point) :
  polyline_length (p :: (q :: pre) ++ tail)
  = norm (get_vector p q) + polyline_length ((q :: pre) ++ tail).
Proof. cbn [app]. apply polyline_length_cons. Qed.

Lemma Curve_call_loop_segment (l : list Point) :
  forall t p,
    0 <= t -> Curve_call_loop l t = Some p ->
    exists pre node_i node_next post,
      l = pre ++ node_i :: node_next :: post
      /\ polyline_length (pre ++ [node_i]) <= t
      /\ t < polyline_length (pre ++ [node_i; node_next])
      /\ Curve_get_vector_loop l t = Some (get_vector node_i node_next)
      /\ p = vadd node_i
               (vscale ((t - polyline_length (pre ++ [node_i]))
                        / norm (get_vector node_i node_next))
                  (get_vector node_i node_next)).
Proof.
  induction l as [| a [| b l'] IH]; intros t p H0 Hp; try discriminate.
  rewrite Curve_call_loop_cons in Hp. rewrite Curve_get_vector_loop_cons.
  destruct (Rlt_dec t (norm (get_vector a b))) as [Hlt | Hge].
  - injection Hp as <-. exists [], a, b, l'. cbn [app].
    rewrite polyline_length_cons. cbn [polyline_length].
    repeat split; try lra. now rewrite Rminus_0_r.
  - destruct (IH (t - norm (get_vector a b)) p ltac:(lra) Hp)
      as (pre & ni & nn & post & E & Lo & Hi & V & P).
    assert (Hhead : exists pre', pre ++ [ni] = b :: pre'
                                 /\ pre ++ [ni; nn] = b :: pre' ++ [nn]).
    { destruct pre as [| x pre0]; cbn [app] in E; injection E as -> E.
      - exists []. split; reflexivity.
      - exists (pre0 ++ [ni]). split; [reflexivity |].
        cbn [app]. now rewrite <- app_assoc. }
    destruct Hhead as (pre' & E1 & E2).
    exists (a :: pre), ni, nn, post. cbn [app].
    rewrite E1, E2, !polyline_length_cons.
    rewrite E1 in Lo, P. rewrite E2 in Hi.
    split; [now rewrite E |]. repeat split; try lra; try exact V.
    rewrite P. f_equal. f_equal. f_equal. lra.
Qed.

Lemma polyline_length_snoc (pre : list Point) (p q : Point) :
  polyline_length (pre ++ [p; q])
  = polyline_length (pre ++ [p]) + norm (get_vector p q).
Proof.
  induction pre as [| x pre IH].
  - cbn [app]. rewrite polyline_length_cons. cbn [polyline_length]. ring.
  - destruct pre as [| y pre'].
    + cbn [app] in *. rewrite !polyline_length_cons. cbn [polyline_length].
      ring.
    + cbn [app] in *. rewrite (polyline_length_cons x y).
      rewrite (polyline_length_cons x y). rewrite IH. ring.
Qed.

(** X7.  Where the curve answers a position for [t >= 0], the position lies
    on the segment from [node_i] to [node_next] whose stretch of arc length
    holds [t], at the distance from [node_i] that [t] exceeds the arc length
    up to [node_i]; [get_vector] answers the vector of that same segment. *)
Theorem Curve_call_on_segment (crv : Curve) (t : R) (p : Point) :
  0 <= t ->
  Curve_call crv t = Some p ->
  exists pre node_i node_next post,
    curve_nodes crv = pre ++ node_i :: node_next :: post
    /\ polyline_length (pre ++ [node_i]) <= t
       < polyline_length (pre ++ [node_i; node_next])
    /\ Curve_get_vector crv t = Some (get_vector node_i node_next)
    /\ p = vadd node_i
             (vscale ((t - polyline_length (pre ++ [node_i]))
                      / norm (get_vector node_i node_next))
                (get_vector node_i node_next))
    /\ get_distance node_i p = t - polyline_length (pre ++ [node_i]).
Proof.
  intros H0 Hp.
  destruct (Curve_call_loop_segment (curve_nodes crv) t p H0 Hp)
    as (pre & ni & nn & post & E & Lo & Hi & V & P).
  exists pre, ni, nn, post. repeat split; try assumption.
  assert (Hd : 0 < norm (get_vector ni nn)).
  { rewrite polyline_length_snoc in Hi. lra. }
  rewrite get_distance_sym, P. unfold get_distance.
  set (s := (t - polyline_length (pre ++ [ni])) / norm (get_vector ni nn)).
  replace (vsub (vadd ni (vscale s (get_vector ni nn))) ni)
    with (vscale s (get_vector ni nn))
    by (unfold vsub, vadd, vscale; cbn; f_equal; ring).
  rewrite norm_vscale. unfold s.
  rewrite Rabs_pos_eq.
  - field. lra.
  - apply Rmult_le_pos; [lra |]. left. now apply Rinv_0_lt_compat.
Qed.

Lemma Curve_call_on_segment_witness :
  exists pre node_i node_next post,
    curve_nodes unit_segment = pre ++ node_i :: node_next :: post
    /\ polyline_length (pre ++ [node_i]) <= 0
       < polyline_length (pre ++ [node_i; node_next])
    /\ Curve_get_vector unit_segment 0 = Some (get_vector node_i node_next)
    /\ mkPoint 0 0 0
       = vadd node_i
           (vscale ((0 - polyline_length (pre ++ [node_i]))
                    / norm (get_vector node_i node_next))
              (get_vector node_i node_next))
    /\ get_distance node_i (mkPoint 0 0 0)
       = 0 - polyline_length (pre ++ [node_i]).
Proof.
  apply (Curve_call_on_segment unit_segment 0 (mkPoint 0 0 0)); [lra |].
  apply (Curve_call_loop_start _ (mkPoint 0 0 0) [mkPoint 1 0 0]);
    [reflexivity |].
  change (0 < total_length unit_segment). rewrite unit_segment_length. lra.
Defined.

(** ** Helix generation: the nodes, one per step of [gap] *)

Lemma set_nodes_loop_nodes (h : Helix) (crv : Curve) (shift rotation : R)
  (fuel : nat) :
  0 < gap h ->
  forall t acc,
    total_length crv - t <= INR fuel * gap h ->
    exists l,
      set_nodes_loop h crv shift rotation fuel t acc = Ok (acc ++ l)
      /\ (forall i, (i < length l)%nat ->
            exists p v,
              Curve_call crv (t + INR i * gap h) = Some p
              /\ Curve_get_vector crv (t + INR i * gap h) = Some v
              /\ nth_error l i
                 = Some (helix_node h shift rotation (t + INR i * gap h) p v))
      /\ Curve_call crv (t + INR (length l) * gap h) = None.
Proof.
  intros Hgap. induction fuel as [| fuel IH]; intros t acc Hfuel.
  - assert (HN : Curve_call crv t = None).
    { apply Curve_call_loop_beyond. unfold total_length in Hfuel.
      cbn in Hfuel. lra. }
    exists []. cbn [set_nodes_loop]. rewrite HN, app_nil_r.
    split; [reflexivity |]. split.
    + intros i Hi. cbn in Hi. lia.
    + cbn [length INR]. now rewrite Rmult_0_l, Rplus_0_r.
  - cbn [set_nodes_loop].
    destruct (Curve_call crv t) as [axis_point |] eqn:Hp.
    + destruct (Curve_get_vector crv t) as [axis_vector |] eqn:Hv.
      * rewrite S_INR in Hfuel.
        destruct (IH (t + gap h)
                    (acc ++ [helix_node h shift rotation t axis_point
                               axis_vector])) as (l & Hl & Hnth & Hend);
          [lra |].
        exists (helix_node h shift rotation t axis_point axis_vector :: l).
        rewrite Hl, <- app_assoc. split; [reflexivity |]. split.
        -- intros [| i] Hi.
           ++ exists axis_point, axis_vector. cbn [INR nth_error].
              rewrite Rmult_0_l, Rplus_0_r. auto.
           ++ cbn [length] in Hi.
              destruct (Hnth i ltac:(lia)) as (p & v & Cp & Cv & N).
              exists p, v. rewrite S_INR. cbn [nth_error].
              replace (t + (INR i + 1) * gap h)
                with (t + gap h + INR i * gap h) by ring.
              auto.
        -- cbn [length]. rewrite S_INR.
           replace (t + (INR (length l) + 1) * gap h)
             with (t + gap h + INR (length l) * gap h) by ring.
           exact Hend.
      * apply Curve_vector_defined_iff in Hv.
        unfold Curve_call in Hp. congruence.
    + exists []. rewrite app_nil_r. split; [reflexivity |]. split.
      * intros i Hi. cbn in Hi. lia.
      * cbn [length INR]. now rewrite Rmult_0_l, Rplus_0_r.
Qed.

(** X8.  With a positive [gap], [_set_nodes] returns; its node number [i] is
    the helix node built at arc length [shift + i * gap] from the position
    and the direction of the axis there, and the list stops at the first such
    arc length where the axis has no position. *)
Theorem _set_nodes_spacing (h : Helix) (crv : Curve) (shift rotation : R) :
  0 < gap h ->
  exists l,
    _set_nodes h crv shift rotation = Ok l
    /\ (forall i, (i < length l)%nat ->
          exists p v,
            Curve_call crv (shift + INR i * gap h) = Some p
            /\ Curve_get_vector crv (shift + INR i * gap h) = Some v
            /\ nth_error l i
               = Some (helix_node h shift rotation (shift + INR i * gap h)
                         p v))
    /\ Curve_call crv (shift + INR (length l) * gap h) = None.
Proof.
  intros Hgap.
  destruct (set_nodes_loop_nodes h crv shift rotation
              (set_nodes_fuel h crv shift) Hgap shift []
              (set_nodes_fuel_enough h crv shift Hgap)) as (l & Hl & H).
  exists l. split; [exact Hl | exact H].
Qed.

Lemma _set_nodes_spacing_witness :
  exists l,
    _set_nodes default_helix unit_segment 0 0 = Ok l
    /\ (forall i, (i < length l)%nat ->
          exists p v,
            Curve_call unit_segment (0 + INR i * gap default_helix) = Some p
            /\ Curve_get_vector unit_segment (0 + INR i * gap default_helix)
               = Some v
            /\ nth_error l i
               = Some (helix_node default_helix 0 0
                         (0 + INR i * gap default_helix) p v))
    /\ Curve_call unit_segment (0 + INR (length l) * gap default_helix) = None.
Proof.
  apply (_set_nodes_spacing default_helix unit_segment 0 0).
  cbn. lra.
Defined.

Lemma Curve_call_loop_earlier (l : list Point) :
  forall t t',
    t' <= t -> Curve_call_loop l t <> None -> Curve_call_loop l t' <> None.
Proof.
  induction l as [| a [| b l'] IH]; intros t t' Hle Hdef; try exact Hdef.
  rewrite Curve_call_loop_cons in *.
  destruct (Rlt_dec t' (norm (get_vector a b))) as [_ | Hge'];
    [discriminate |].
  destruct (Rlt_dec t (norm (get_vector a b))) as [Hlt | Hge]; [lra |].
  apply (IH (t - norm (get_vector a b))); [lra | exact Hdef].
Qed.

(** X9.  With a [gap] that is zero or negative and a [shift] where the axis
    has a position, the loop of [_set_nodes] never leaves: whatever the fuel,
    it runs out. *)
Theorem set_nodes_loop_never_leaves (h : Helix) (crv : Curve)
  (shift rotation : R) :
  gap h <= 0 ->
  Curve_call crv shift <> None ->
  (forall fuel acc,
     set_nodes_loop h crv shift rotation fuel shift acc = OutOfFuel)
  /\ _set_nodes h crv shift rotation = OutOfFuel.
Proof.
  intros Hgap Hdef.
  assert (L : forall fuel t acc,
             t <= shift ->
             set_nodes_loop h crv shift rotation fuel t acc = OutOfFuel).
  { induction fuel as [| fuel IH]; intros t acc Ht;
      assert (Hd : Curve_call crv t <> None)
        by (apply (Curve_call_loop_earlier _ shift); assumption);
      cbn [set_nodes_loop];
      destruct (Curve_call crv t) as [axis_point |] eqn:Hp; try congruence.
    destruct (Curve_get_vector crv t) as [axis_vector |] eqn:Hv.
    - apply IH. lra.
    - apply Curve_vector_defined_iff in Hv. unfold Curve_call in Hp.
      congruence. }
  split.
  - intros fuel acc. apply L. lra.
  - apply L. lra.
Qed.

Lemma set_nodes_loop_never_leaves_witness :
  (forall fuel acc,
     set_nodes_loop (mkHelix 9 3 2.11 1.149 0 4) unit_segment 0 0 fuel 0 acc
     = OutOfFuel)
  /\ _set_nodes (mkHelix 9 3 2.11 1.149 0 4) unit_segment 0 0 = OutOfFuel.
Proof.
  apply (set_nodes_loop_never_leaves (mkHelix 9 3 2.11 1.149 0 4)
           unit_segment 0 0).
  - cbn. lra.
  - apply Curve_call_loop_within; [lra |].
    change (0 < total_length unit_segment). rewrite unit_segment_length. lra.
Defined.

(** ** Helix generation: the radius *)

Lemma norm_opp (a : Point) : norm (vscale (-1) a) = norm a.
Proof.
  rewrite norm_vscale. rewrite Rabs_left by lra. ring.
Qed.

Lemma dot_cross_left (a b : Point) : dot (cross a b) a = 0.
Proof. unfold dot, cross; cbn. ring. Qed.

Lemma dot_cross_right (a b : Point) : dot (cross a b) b = 0.
Proof. unfold dot, cross; cbn. ring. Qed.

Lemma dot_cross_cross (a b : Point) :
  dot (cross a b) (cross a b) = dot a a * dot b b - dot a b * dot a b.
Proof. unfold dot, cross; cbn. ring. Qed.

Lemma norm_one_dot (a : Point) : norm a = 1 -> dot a a = 1.
Proof. intros H. rewrite <- norm_sqr, H. ring. Qed.

Lemma dot_one_norm (a : Point) : dot a a = 1 -> norm a = 1.
Proof.
  intros H. unfold norm. unfold dot in H. rewrite H. apply sqrt_1.
Qed.

Lemma dot_vscale_right (k : R) (a b : Point) :
  dot a (vscale k b) = k * dot a b.
Proof. unfold dot, vscale; cbn. ring. Qed.

Lemma normalize_scaling_nonzero (w : Point) :
  normalize w = vscale (if Req_EM_T (norm w) 0 then 1 else / norm w) w.
Proof.
  unfold normalize. destruct (Req_EM_T (norm w) 0).
  - apply point_eq; cbn; ring.
  - apply vdiv_vscale.
Qed.

(** An orthonormal pair spans vectors of length sqrt(a^2 + b^2). *)
Lemma norm_in_orthonormal_pair (a b : R) (x y z : Point) :
  norm x = 1 -> norm y = 1 -> dot x y = 0 ->
  norm (vec_mat (mkPoint a b 0) x y z) = sqrt (a * a + b * b).
Proof.
  intros Hx Hy Hxy. apply norm_one_dot in Hx, Hy.
  unfold norm at 1. f_equal.
  transitivity (a * a * dot x x + b * b * dot y y + 2 * (a * b) * dot x y).
  - unfold dot, vec_mat, vadd, vscale; cbn [px py pz]. ring.
  - rewrite Hx, Hy, Hxy. ring.
Qed.

Lemma helix_node_frame (v : Point) :
  py v <> 0 \/ pz v <> 0 ->
  let z_axis := vscale (-1) (normalize v) in
  let y_axis := vscale (-1) (normalize (cross z_axis (mkPoint 1 0 0))) in
  let x_axis := vscale (-1) (normalize (cross z_axis y_axis)) in
  norm x_axis = 1 /\ norm y_axis = 1 /\ dot x_axis y_axis = 0.
Proof.
  intros Hv z_axis y_axis x_axis.
  assert (Hv0 : v <> origin).
  { intros ->. cbn in Hv. lra. }
  pose proof (norm_pos v Hv0) as Hn.
  assert (Hz : norm z_axis = 1).
  { unfold z_axis. rewrite norm_opp. apply norm_normalize. lra. }
  assert (Ez : z_axis = vscale (- / norm v) v).
  { unfold z_axis. rewrite normalize_scaling_nonzero.
    destruct (Req_EM_T (norm v) 0); [lra |].
    apply point_eq; cbn; ring. }
  set (w := cross z_axis (mkPoint 1 0 0)) in *.
  assert (Hw : w <> origin).
  { intros E. unfold w in E. rewrite Ez in E.
    assert (Ey := f_equal py E). assert (Ep := f_equal pz E).
    cbn in Ey, Ep.
    assert (Hi : / norm v <> 0) by (apply Rinv_neq_0_compat; lra).
    destruct Hv as [Hv | Hv]; [apply Hv | apply Hv].
    - apply (Rmult_eq_reg_l (/ norm v)); [lra | exact Hi].
    - apply (Rmult_eq_reg_l (/ norm v)); [lra | exact Hi]. }
  pose proof (norm_pos w Hw) as Hnw.
  assert (Hy : norm y_axis = 1).
  { unfold y_axis. rewrite norm_opp. apply norm_normalize. lra. }
  assert (Hzy : dot z_axis y_axis = 0).
  { unfold y_axis. rewrite normalize_scaling_nonzero, !dot_vscale_right.
    rewrite dot_sym. unfold w. rewrite dot_cross_left. ring. }
  set (u := cross z_axis y_axis) in *.
  assert (Hu : norm u = 1).
  { apply dot_one_norm. unfold u. rewrite dot_cross_cross.
    rewrite (norm_one_dot _ Hz), (norm_one_dot _ Hy), Hzy. ring. }
  split; [| split].
  - unfold x_axis. rewrite norm_opp, (normalize_unit u Hu). exact Hu.
  - exact Hy.
  - unfold x_axis. rewrite (normalize_unit u Hu), dot_vscale_left.
    unfold u. rewrite dot_cross_right. ring.
Qed.

Lemma vsub_vadd_cancel (p w : Point) : vsub (vadd p w) p = w.
Proof. apply point_eq; cbn; ring. Qed.

(** X10.  A node generated by [_set_nodes] lies at distance [|r|] from its
    axis point when the axis direction is not parallel to the x axis.  When
    the direction is parallel to the x axis (or zero) the cross product with
    (1, 0, 0) vanishes, and the node is the axis point itself. *)
Theorem helix_node_radius (h : Helix) (shift rotation t : R)
  (axis_point axis_vector : Point) :
  (py axis_vector <> 0 \/ pz axis_vector <> 0 ->
   get_distance (helix_node h shift rotation t axis_point axis_vector)
     axis_point = Rabs (r h))
  /\ (py axis_vector = 0 -> pz axis_vector = 0 ->
      helix_node h shift rotation t axis_point axis_vector = axis_point).
Proof.
  split.
  - intros Hv.
    destruct (helix_node_frame axis_vector Hv) as (Hx & Hy & Hxy).
    unfold helix_node, get_distance.
    rewrite vsub_vadd_cancel.
    rewrite (norm_in_orthonormal_pair _ _ _ _ _ Hx Hy Hxy).
    set (a := c h * t - shift + rotation).
    replace (r h * sin a * (r h * sin a) + r h * cos a * (r h * cos a))
      with (r h * r h * ((sin a)² + (cos a)²)) by (unfold Rsqr; ring).
    rewrite sin2_cos2, Rmult_1_r. fold (Rsqr (r h)). apply sqrt_Rsqr_abs.
  - intros Hy Hz. unfold helix_node.
    assert (Ez : cross (vscale (-1) (normalize axis_vector)) (mkPoint 1 0 0)
                 = origin).
    { rewrite normalize_scaling_nonzero.
      unfold cross, vscale, origin; cbn [px py pz]. rewrite Hy, Hz.
      f_equal; ring. }
    rewrite Ez, normalize_origin.
    replace (vscale (-1) origin) with origin
      by (unfold vscale, origin; cbn; f_equal; ring).
    replace (cross (vscale (-1) (normalize axis_vector)) origin) with origin
      by (unfold cross, origin; cbn; f_equal; ring).
    rewrite normalize_origin.
    replace (vscale (-1) origin) with origin
      by (unfold vscale, origin; cbn; f_equal; ring).
    unfold vec_mat, vadd, vscale, origin; cbn [px py pz].
    destruct axis_point as [x y z]; cbn [px py pz]. f_equal; ring.
Qed.

(** ** Curvature screen: what is reported *)

Lemma node_at_In (l : list Point) (i : nat) :
  (i < length l)%nat -> In (node_at l i) l.
Proof. intros H. unfold node_at. now apply nth_In. Qed.

Lemma get_node_max_angle_loop_In (l : list Point) (max_angle : R)
  (size : nat) (indices : list nat) :
  forall current node,
    Forall (fun i => (i < length l)%nat) indices ->
    get_node_max_angle_loop l max_angle size indices current
    = Ok (Some node) ->
    In node l.
Proof.
  induction indices as [| i rest IH]; intros current node Hall H;
    [discriminate |].
  cbn [get_node_max_angle_loop] in H.
  destruct size as [| k]; [discriminate |].
  inversion Hall as [| ? ? Hi Hrest]; subst.
  destruct (Rlt_dec _ _) in H.
  - injection H as <-. apply node_at_In. lia.
  - now apply (IH _ _ Hrest H).
Qed.

(** X11.  [get_node_max_angle] answers [None] for a curve of at most two
    control points, whatever the window; for three or more control points a
    window of size 0 raises [ZeroDivisionError]; and a node it reports is a
    control point of the curve. *)
Theorem get_node_max_angle_reports_control_point (crv : Curve)
  (max_angle : R) (interval_size : nat) :
  ((length (curve_nodes crv) <= 2)%nat ->
   get_node_max_angle crv max_angle interval_size = Ok None)
  /\ ((3 <= length (curve_nodes crv))%nat ->
      get_node_max_angle crv max_angle 0 = Raise ZeroDivisionError)
  /\ (forall node,
        get_node_max_angle crv max_angle interval_size = Ok (Some node) ->
        In node (curve_nodes crv)).
Proof.
  unfold get_node_max_angle. split; [| split].
  - intros H. replace (length (curve_nodes crv) - 2)%nat with 0%nat by lia.
    reflexivity.
  - intros H.
    destruct (length (curve_nodes crv) - 2)%nat as [| k] eqn:E; [lia |].
    reflexivity.
  - intros node H.
    apply (get_node_max_angle_loop_In _ _ _ _ _ _ ) in H; [exact H |].
    apply Forall_forall. intros i Hi. apply in_seq in Hi. lia.
Qed.

Lemma float_to_int_90 : float_to_int 90 = 90%Z.
Proof. apply float_to_int_interval; lra. Qed.

(** X12.  A segment of length zero counts as a turn of 90 degrees: when
    the first or the second segment of the curve has equal ends, and the
    threshold is below 90, the curve is reported at its first control point
    (window 3, as [fit] calls it). *)
Theorem get_node_max_angle_zero_segment (crv : Curve) (max_angle : R)
  (p0 p1 p2 : Point) (rest : list Point) :
  curve_nodes crv = p0 :: p1 :: p2 :: rest ->
  p0 = p1 \/ p1 = p2 ->
  max_angle < 90 ->
  get_node_max_angle crv max_angle 3 = Ok (Some p0).
Proof.
  intros E Hdup Hmax. unfold get_node_max_angle. rewrite E.
  cbn [length Nat.sub seq get_node_max_angle_loop].
  assert (Hangle : angle_between (get_vector p0 p1) (get_vector p1 p2) = 90).
  { assert (Z : forall p, get_vector p p = origin).
    { intros p. unfold get_vector, origin. f_equal; ring. }
    destruct Hdup as [<- | <-]; rewrite Z.
    - apply angle_between_origin_l.
    - unfold angle_between. rewrite dot_sym. apply angle_between_origin_l. }
  cbn [node_at nth Nat.add].
  rewrite Hangle, float_to_int_90.
  change (1 mod 3)%nat with 1%nat. cbn [repeat set_item].
  change (sum_Z [0%Z; 90%Z; 0%Z]) with 90%Z.
  destruct (Rlt_dec max_angle 90) as [_ | N]; [| contradiction].
  reflexivity.
Qed.

Lemma get_node_max_angle_zero_segment_witness :
  get_node_max_angle
    (mkCurve [mkPoint 0 0 0; mkPoint 1 0 0; mkPoint 1 0 0; mkPoint 2 0 0])
    80 3
  = Ok (Some (mkPoint 0 0 0)).
Proof.
  apply (get_node_max_angle_zero_segment _ 80 (mkPoint 0 0 0) (mkPoint 1 0 0)
           (mkPoint 1 0 0) [mkPoint 2 0 0]).
  - reflexivity.
  - right. reflexivity.
  - lra.
Defined.

(** ** Average offset: the nearest node *)

Lemma closest_distance_fold (node1 : Point) (nodes2 : list Point) :
  forall cd,
    0 <= cd ->
    let res := fold_left (closest_distance_step node1) nodes2 cd in
    0 <= res <= cd
    /\ (forall node2, In node2 nodes2 -> res <= get_distance node1 node2)
    /\ (res = cd
        \/ exists node2, In node2 nodes2 /\ res = get_distance node1 node2).
Proof.
  induction nodes2 as [| n l IH]; intros cd Hcd res.
  - cbn in res. subst res. split; [lra |]. split; [intros ? [] | now left].
  - cbn [fold_left] in res.
    pose proof (get_distance_nonneg node1 n) as Hd.
    set (cd' := closest_distance_step node1 cd n) in *.
    assert (Hcd' : 0 <= cd' <= cd /\ cd' <= get_distance node1 n
                   /\ (cd' = cd \/ cd' = get_distance node1 n)).
    { unfold cd', closest_distance_step.
      destruct (Rlt_dec (get_distance node1 n) cd); [lra |].
      destruct (Req_EM_T cd (-1)); lra. }
    destruct Hcd' as (B & Le & Which).
    destruct (IH cd' ltac:(lra)) as (B' & Least & Att). fold res in B', Least, Att.
    split; [lra |]. split.
    + intros node2 [<- | Hin]; [lra | now apply Least].
    + destruct Att as [E | (node2 & Hin & E)].
      * destruct Which as [W | W].
        -- left. lra.
        -- right. exists n. split; [now left | lra].
      * right. exists node2. split; [now right | exact E].
Qed.

Lemma closest_distance_to_spec (node1 : Point) (nodes2 : list Point) :
  nodes2 <> [] ->
  (exists node2,
     In node2 nodes2
     /\ closest_distance_to node1 nodes2 = get_distance node1 node2)
  /\ (forall node2,
        In node2 nodes2 ->
        closest_distance_to node1 nodes2 <= get_distance node1 node2).
Proof.
  destruct nodes2 as [| n l]; [congruence |]. intros _.
  unfold closest_distance_to. cbn [fold_left].
  pose proof (get_distance_nonneg node1 n) as Hd.
  assert (E : closest_distance_step node1 (-1) n = get_distance node1 n).
  { unfold closest_distance_step.
    destruct (Rlt_dec (get_distance node1 n) (-1)); [reflexivity |].
    destruct (Req_EM_T (-1) (-1)); [reflexivity | congruence]. }
  rewrite E.
  destruct (closest_distance_fold node1 l (get_distance node1 n) Hd)
    as (B & Least & Att).
  split.
  - destruct Att as [Eq | (node2 & Hin & Eq)].
    + exists n. split; [now left | exact Eq].
    + exists node2. split; [now right | exact Eq].
  - intros node2 [<- | Hin]; [lra | now apply Least].
Qed.

Lemma closest_distance_to_zero_iff (node1 : Point) (nodes2 : list Point) :
  nodes2 <> [] ->
  0 <= closest_distance_to node1 nodes2
  /\ (closest_distance_to node1 nodes2 = 0 <-> In node1 nodes2).
Proof.
  intros H. destruct (closest_distance_to_spec node1 nodes2 H)
    as ((node2 & Hin & E) & L).
  split.
  - rewrite E. apply get_distance_nonneg.
  - split.
    + intros Z. rewrite Z in E. symmetry in E.
      apply get_distance_zero_iff in E. now subst.
    + intros Hin1. pose proof (L node1 Hin1) as Le.
      assert (Z : get_distance node1 node1 = 0)
        by now apply get_distance_zero_iff.
      pose proof (get_distance_nonneg node1 node2). lra.
Qed.

Lemma sum_offsets_zero_iff (nodes2 : list Point) (nodes1 : list Point) :
  nodes2 <> [] ->
  forall s,
    0 <= s ->
    let total :=
      fold_left (fun s node1 => s + closest_distance_to node1 nodes2) nodes1 s
    in
    s <= total /\ (total = 0 <-> s = 0 /\ incl nodes1 nodes2).
Proof.
  intros H2. induction nodes1 as [| n l IH]; intros s Hs total.
  - cbn in total. subst total. split; [lra |].
    split; [intros ->; split; [reflexivity | apply incl_nil_l] | tauto].
  - cbn [fold_left] in total.
    destruct (closest_distance_to_zero_iff n nodes2 H2) as (Hc & Hz).
    destruct (IH (s + closest_distance_to n nodes2) ltac:(lra)) as (Le & Iff).
    fold total in Le, Iff. split; [lra |]. split.
    + intros Z. apply Iff in Z. destruct Z as (Z & Hincl).
      split; [lra |]. apply incl_cons; [apply Hz; lra | exact Hincl].
    + intros (-> & Hincl). apply Iff. split.
      * assert (In n nodes2) by (apply Hincl; now left).
        apply Hz in H. lra.
      * intros x Hx. apply Hincl. now right.
Qed.

(** X13.  For a nonempty [nodes2], the inner loop of [get_avg_offset]
    finds the least of the distances to the nodes of [nodes2] (the start
    value -1 never survives); for a nonempty [nodes1] the average is
    returned, is not negative, and is 0 exactly when every node of [nodes1]
    occurs in [nodes2]. *)
Theorem get_avg_offset_nearest (nodes1 nodes2 : list Point) :
  nodes1 <> [] -> nodes2 <> [] ->
  (forall node1,
     (exists node2,
        In node2 nodes2
        /\ closest_distance_to node1 nodes2 = get_distance node1 node2)
     /\ (forall node2,
           In node2 nodes2 ->
           closest_distance_to node1 nodes2 <= get_distance node1 node2))
  /\ exists d,
       get_avg_offset nodes1 nodes2 = Ok d
       /\ 0 <= d
       /\ (d = 0 <-> incl nodes1 nodes2).
Proof.
  intros H1 H2. split.
  { intros node1. now apply closest_distance_to_spec. }
  unfold get_avg_offset.
  destruct (sum_offsets_zero_iff nodes2 nodes1 H2 0 (Rle_refl 0))
    as (Le & Iff).
  set (total := fold_left _ nodes1 0) in *.
  assert (Hn : 0 < INR (length nodes1)).
  { apply lt_0_INR. destruct nodes1; [congruence | cbn; lia]. }
  destruct (length nodes1) as [| k] eqn:El; [cbn in Hn; lra |].
  eexists. split; [reflexivity |]. split.
  - apply Rmult_le_pos; [exact Le |]. left. now apply Rinv_0_lt_compat.
  - split.
    + intros Z.
      apply (Rmult_eq_compat_r (INR (S k))) in Z.
      unfold Rdiv in Z. rewrite Rmult_assoc, Rinv_l, Rmult_1_r, Rmult_0_l in Z
        by lra.
      apply (proj1 Iff) in Z. exact (proj2 Z).
    + intros Hincl. assert (Z : total = 0) by (apply Iff; split; auto).
      rewrite Z. unfold Rdiv. ring.
Qed.

Lemma get_avg_offset_nearest_witness :
  (forall node1,
     (exists node2,
        In node2 [mkPoint 1 0 0; origin]
        /\ closest_distance_to node1 [mkPoint 1 0 0; origin]
           = get_distance node1 node2)
     /\ (forall node2,
           In node2 [mkPoint 1 0 0; origin] ->
           closest_distance_to node1 [mkPoint 1 0 0; origin]
           <= get_distance node1 node2))
  /\ exists d,
       get_avg_offset [origin] [mkPoint 1 0 0; origin] = Ok d
       /\ 0 <= d
       /\ (d = 0 <-> incl [origin] [mkPoint 1 0 0; origin]).
Proof.
  apply get_avg_offset_nearest; discriminate.
Defined.

(** ** Screw axis: how many centroids *)

Lemma screw_axis_scan_count (h : Helix) (l : list Point) :
  (1 <= min_interval_size h)%nat ->
  (min_interval_size h <= interval_size h)%nat ->
  forall interval centroids res,
    (length interval <= interval_size h)%nat ->
    screw_axis_scan h l interval centroids = Ok res ->
    length (snd res)
    = (length centroids
       + (length l - (min_interval_size h - 1 - length interval)))%nat.
Proof.
  intros Hmin Hsize.
  induction l as [| node rest IH]; intros interval centroids res Hlen H.
  - cbn in H. injection H as <-. cbn. lia.
  - cbn [screw_axis_scan] in H.
    set (interval1 := interval ++ [node]) in *.
    set (interval2 := if (interval_size h <? length interval1)%nat
                      then tl interval1 else interval1) in *.
    assert (Hlen1 : length interval1 = S (length interval))
      by (unfold interval1; rewrite length_app; simpl; lia).
    assert (Hlen2 : length interval2
                    = Nat.min (S (length interval)) (interval_size h)).
    { unfold interval2.
      destruct (Nat.ltb_spec (interval_size h) (length interval1)).
      - destruct interval1; cbn [length tl] in *; lia.
      - lia. }
    destruct (Nat.leb_spec (min_interval_size h) (length interval2)).
    + destruct (get_centroid interval2) as [p | e |] eqn:Hp;
        cbn [bind] in H; try discriminate.
      apply IH in H; [| lia]. rewrite H, length_app. cbn [length]. lia.
    + apply IH in H; [| lia]. rewrite H. cbn [length]. lia.
Qed.

Lemma screw_axis_shrink_count (h : Helix) (interval : list Point) :
  (2 <= min_interval_size h)%nat ->
  forall centroids,
    exists more,
      screw_axis_shrink h interval centroids = Ok (centroids ++ more)
      /\ length more = (length interval + 1 - min_interval_size h)%nat.
Proof.
  intros Hmin. induction interval as [| x interval IH]; intros centroids.
  - cbn [screw_axis_shrink].
    destruct (Nat.leb_spec (min_interval_size h) 0); [lia |].
    exists []. rewrite app_nil_r. split; [reflexivity | cbn [length]; lia].
  - cbn [screw_axis_shrink].
    destruct (Nat.leb_spec (min_interval_size h) (length (x :: interval))).
    + cbn [length] in *.
      destruct (get_centroid_nonempty interval) as [p Hp].
      { intros E. rewrite E in *. simpl in *. lia. }
      rewrite Hp. cbn [bind].
      destruct (IH (centroids ++ [p])) as (more & Hs & Hl).
      exists (p :: more). rewrite Hs, <- app_assoc.
      split; [reflexivity | cbn [length]; lia].
    + exists []. rewrite app_nil_r. split; [reflexivity |].
      cbn [length] in *. lia.
Qed.

Lemma screw_axis_shrink_single (h : Helix) (interval : list Point) :
  min_interval_size h = 1%nat ->
  interval <> [] ->
  forall centroids,
    screw_axis_shrink h interval centroids = Raise ZeroDivisionError.
Proof.
  intros Hmin. induction interval as [| x interval IH]; intros Hne centroids;
    [congruence |].
  cbn [screw_axis_shrink]. rewrite Hmin.
  destruct (Nat.leb_spec 1 (length (x :: interval))); [| cbn in *; lia].
  destruct interval as [| y interval']; [reflexivity |].
  destruct (get_centroid_nonempty (y :: interval')) as [p Hp];
    [discriminate |].
  rewrite Hp. cbn [bind]. apply IH. discriminate.
Qed.

(** X14.  With [2 <= min_interval_size <= interval_size],
    [_set_screw_axis] builds [(n + 1 - min_interval_size)
    + (min n interval_size + 1 - min_interval_size)] centroids from [n]
    nodes (a difference below 0 counts as 0).  With [min_interval_size = 1]
    the shrinking loop ends on the centroid of an empty window: every
    nonempty input raises [ZeroDivisionError]. *)
Theorem screw_axis_centroid_count (h : Helix) (input : list Point) :
  ((2 <= min_interval_size h)%nat ->
   (min_interval_size h <= interval_size h)%nat ->
   exists centroids,
     screw_axis_centroids h input = Ok centroids
     /\ length centroids
        = ((length input + 1 - min_interval_size h)
           + (Nat.min (length input) (interval_size h) + 1
              - min_interval_size h))%nat)
  /\ (min_interval_size h = 1%nat ->
      (1 <= interval_size h)%nat ->
      input <> [] ->
      screw_axis_centroids h input = Raise ZeroDivisionError).
Proof.
  split.
  - intros Hmin Hsize. unfold screw_axis_centroids.
    destruct (screw_axis_scan_interval h ltac:(lia) input [] [])
      as [cs Hscan]; [simpl; lia |].
    pose proof (screw_axis_scan_count h input ltac:(lia) Hsize [] [] _
                  ltac:(simpl; lia) Hscan) as Hcount.
    rewrite Hscan. cbn [bind fst snd app length] in *.
    destruct (screw_axis_shrink_count h (lastn (interval_size h) input) Hmin cs)
      as (more & Hs & Hl).
    exists (cs ++ more). split; [exact Hs |].
    rewrite length_app, Hl, Hcount, lastn_length. lia.
  - intros Hmin Hsize Hne. unfold screw_axis_centroids.
    destruct (screw_axis_scan_interval h ltac:(lia) input [] [])
      as [cs Hscan]; [simpl; lia |].
    rewrite Hscan. cbn [bind fst snd app].
    apply screw_axis_shrink_single; [exact Hmin |].
    intros E. apply (f_equal (@length Point)) in E.
    rewrite lastn_length in E. cbn in E.
    destruct input; [congruence | cbn in E; lia].
Qed.

(** ** The edge nodes *)

Lemma edge_length_formula (h : Helix) :
  edge_length h = ((min_interval_size h - 1) / 2)%nat.
Proof.
  unfold edge_length. set (m := min_interval_size h).
  destruct m as [| k].
  - cbn [INR]. unfold float_to_int.
    destruct (Rle_dec 0 (0 / 2 - 0.1)) as [H | _]; [lra |].
    rewrite (Int_part_interval _ 0); [reflexivity | lra].
  - replace (S k - 1)%nat with k by lia.
    assert (Hk : k = (2 * (k / 2) + k mod 2)%nat) by apply Nat.div_mod_eq.
    assert (Hm : (k mod 2 < 2)%nat) by (apply Nat.mod_upper_bound; lia).
    rewrite (float_to_int_interval _ (Z.of_nat (k / 2))).
    + lia.
    + rewrite S_INR. pose proof (pos_INR k). lra.
    + rewrite S_INR, <- INR_IZR_INZ.
      assert (E : INR k = 2 * INR (k / 2) + INR (k mod 2)).
      { rewrite Hk at 1. rewrite plus_INR, mult_INR. cbn [INR]. ring. }
      assert (B : 0 <= INR (k mod 2) <= 1).
      { split; [apply pos_INR |].
        change 1 with (INR 1). apply le_INR. lia. }
      lra.
Qed.

(** X15.  The edge length [int(min_interval_size / 2 - 0.1)] is
    [(min_interval_size - 1) / 2] rounded down.  Up to [min_interval_size = 2]
    it is 0 and, [original_nodes[-0:]] being the whole list, [_set_edges]
    answers the generated nodes followed by all the original ones; from 3 on
    it answers the first and the last [edge_length] original nodes around the
    generated ones. *)
Theorem _set_edges_by_edge_length (h : Helix)
  (original generated : list Point) :
  edge_length h = ((min_interval_size h - 1) / 2)%nat
  /\ ((min_interval_size h <= 2)%nat ->
      _set_edges h original generated = generated ++ original)
  /\ ((3 <= min_interval_size h)%nat ->
      _set_edges h original generated
      = firstn (edge_length h) original ++ generated
          ++ lastn (edge_length h) original).
Proof.
  pose proof (edge_length_formula h) as E.
  split; [exact E |]. split.
  - intros Hm. unfold _set_edges.
    assert (Z : edge_length h = 0%nat).
    { rewrite E. apply Nat.div_small. lia. }
    rewrite Z. unfold py_prefix. rewrite py_suffix_neg_zero. reflexivity.
  - intros Hm. unfold _set_edges, py_prefix.
    assert (P : (1 <= edge_length h)%nat).
    { rewrite E. apply (Nat.div_le_lower_bound _ 2 1); lia. }
    rewrite py_suffix_neg_last by exact P. reflexivity.
Qed.

(** ** The parameter search *)

(** X16.  The parameter search of [fit] answers the result of the one of
    its three starts whose offset, evaluated again, is least; among equal
    offsets the earlier start wins, the sort being stable. *)
Theorem fit_search_least_offset
  (minimize : (R * R -> result R) -> R * R -> R * R) (h : Helix)
  (screw_axis : Curve) (nodes : list Point) (best : R * R) :
  fit_search minimize h screw_axis nodes = Ok best ->
  let f := evaluate_params h screw_axis nodes in
  let r0 := minimize f (- gap h, - 2 * PI) in
  let r1 := minimize f (0, 0) in
  let r2 := minimize f (gap h, 2 * PI) in
  exists k0 k1 k2,
    f r0 = Ok k0 /\ f r1 = Ok k1 /\ f r2 = Ok k2
    /\ ((best = r0 /\ k0 <= k1 /\ k0 <= k2)
        \/ (best = r1 /\ k1 < k0 /\ k1 <= k2)
        \/ (best = r2 /\ k2 < k0 /\ k2 < k1)).
Proof.
  intros H. cbv zeta. unfold fit_search in H. cbn [nth] in H.
  set (f := evaluate_params h screw_axis nodes) in *.
  set (r0 := minimize f (- gap h, - 2 * PI)) in *.
  set (r1 := minimize f (0, 0)) in *.
  set (r2 := minimize f (gap h, 2 * PI)) in *.
  destruct (f r0) as [k0 | |]; cbn [bind] in H; try discriminate.
  destruct (f r1) as [k1 | |]; cbn [bind] in H; try discriminate.
  destruct (f r2) as [k2 | |]; cbn [bind] in H; try discriminate.
  exists k0, k1, k2. repeat split.
  injection H as <-.
  cbn [combine sort_by_key fold_right insert_by_key fst snd].
  destruct (Rlt_dec k2 k1);
    cbn [insert_by_key fst snd];
    repeat (match goal with
            | |- context [Rlt_dec ?a ?b] =>
                destruct (Rlt_dec a b); cbn [insert_by_key fst snd map nth]
            end);
    cbn [map nth snd];
    first [ left; repeat split; (reflexivity || lra)
          | right; left; repeat split; (reflexivity || lra)
          | right; right; repeat split; (reflexivity || lra) ].
Qed.

Lemma fit_search_least_offset_witness :
  let f := evaluate_params default_helix bent_axis bent_nodes in
  let r0 := far_minimize f (- gap default_helix, - 2 * PI) in
  let r1 := far_minimize f (0, 0) in
  let r2 := far_minimize f (gap default_helix, 2 * PI) in
  exists k0 k1 k2,
    f r0 = Ok k0 /\ f r1 = Ok k1 /\ f r2 = Ok k2
    /\ (((1000, 0) = r0 /\ k0 <= k1 /\ k0 <= k2)
        \/ ((1000, 0) = r1 /\ k1 < k0 /\ k1 <= k2)
        \/ ((1000, 0) = r2 /\ k2 < k0 /\ k2 < k1)).
Proof.
  apply (fit_search_least_offset far_minimize default_helix bent_axis
           bent_nodes (1000, 0)).
  apply far_search_on_bent_axis.
Defined.

(** ** Fitting: short inputs and end nodes *)

Lemma _set_screw_axis_short (h : Helix) (input : list Point) :
  (1 <= flatten h)%nat ->
  (1 <= min_interval_size h)%nat ->
  (min_interval_size h <= interval_size h)%nat ->
  (length input < min_interval_size h)%nat ->
  _set_screw_axis h input = Raise IndexError.
Proof.
  intros Hf Hmin Hsize Hlen. unfold _set_screw_axis, screw_axis_centroids.
  destruct (screw_axis_scan_interval h Hmin input [] [])
    as [cs Hscan]; [simpl; lia |].
  pose proof (screw_axis_scan_count h input Hmin Hsize [] [] _
                ltac:(simpl; lia) Hscan) as Hcount.
  rewrite Hscan. cbn [bind fst snd app length] in *.
  assert (Hcs : cs = []) by (destruct cs; [reflexivity | cbn in Hcount; lia]).
  subst cs.
  assert (Hs : screw_axis_shrink h (lastn (interval_size h) input) [] = Ok []).
  { pose proof (lastn_length (interval_size h) input) as Hl.
    destruct (lastn (interval_size h) input) as [| x l'] eqn:E.
    - cbn [screw_axis_shrink].
      destruct (Nat.leb_spec (min_interval_size h) 0); [lia | reflexivity].
    - cbn [screw_axis_shrink].
      destruct (Nat.leb_spec (min_interval_size h) (length (x :: l')));
        [lia | reflexivity]. }
  rewrite Hs. cbn [bind].
  destruct (flatten h) as [| f]; [lia | reflexivity].
Qed.

Lemma fit_short_input
  (minimize : (R * R -> result R) -> R * R -> R * R) (h : Helix)
  (input : list Point) :
  (1 <= flatten h)%nat ->
  (1 <= min_interval_size h)%nat ->
  (min_interval_size h <= interval_size h)%nat ->
  (length input < min_interval_size h)%nat ->
  fit minimize h input = Raise IndexError.
Proof.
  intros Hf Hmin Hsize Hlen. unfold fit.
  now rewrite (_set_screw_axis_short h input Hf Hmin Hsize Hlen).
Qed.

(** X17.  With fewer input nodes than [min_interval_size] no centroid is
    built, the curve is made of an empty list, and [_set_screw_axis] and
    [fit] raise [IndexError]. *)
Theorem fit_raises_on_short_input
  (minimize : (R * R -> result R) -> R * R -> R * R) (h : Helix)
  (input : list Point) :
  (1 <= flatten h)%nat ->
  (1 <= min_interval_size h)%nat ->
  (min_interval_size h <= interval_size h)%nat ->
  (length input < min_interval_size h)%nat ->
  _set_screw_axis h input = Raise IndexError
  /\ fit minimize h input = Raise IndexError.
Proof.
  intros Hf Hmin Hsize Hlen. split.
  - now apply _set_screw_axis_short.
  - now apply fit_short_input.
Qed.

Lemma fit_raises_on_short_input_witness :
  _set_screw_axis default_helix [origin; origin] = Raise IndexError
  /\ fit far_minimize default_helix [origin; origin] = Raise IndexError.
Proof.
  apply fit_raises_on_short_input; cbn; lia.
Defined.

Lemma last_app_nonempty {A : Type} (a b : list A) (d : A) :
  b <> [] -> last (a ++ b) d = last b d.
Proof.
  intros Hb. destruct (exists_last Hb) as (b' & x & ->).
  now rewrite app_assoc, !last_last.
Qed.

Lemma lastn_nonempty {A : Type} (k : nat) (l : list A) :
  (1 <= k)%nat -> l <> [] -> lastn k l <> [].
Proof.
  intros Hk Hl E. apply (f_equal (@length A)) in E.
  rewrite lastn_length in E. destruct l; [congruence | cbn in E; lia].
Qed.

Lemma last_lastn {A : Type} (k : nat) (l : list A) (d : A) :
  (1 <= k)%nat -> last (lastn k l) d = last l d.
Proof.
  intros Hk. destruct l as [| x l']; [reflexivity |].
  pose proof (firstn_skipn (length (x :: l') - k) (x :: l')) as E.
  rewrite <- E at 2. unfold lastn.
  symmetry. apply last_app_nonempty.
  apply (lastn_nonempty k (x :: l') Hk). discriminate.
Qed.

Lemma fit_far_minimize_bent_nodes :
  fit far_minimize default_helix bent_nodes = Ok bent_nodes.
Proof.
  unfold fit. rewrite bent_axis_built. cbn [bind].
  rewrite bent_axis_not_flagged. cbn [bind].
  rewrite far_search_on_bent_axis. cbn [bind].
  unfold fit_accept. cbn [fst snd].
  rewrite _set_nodes_empty by (rewrite bent_axis_length; lra).
  cbn [bind]. rewrite get_avg_offset_empty_right by discriminate.
  cbn [bind]. destruct (Rlt_dec 0.8 (-1)); [lra | reflexivity].
Qed.

(** X18.  With [min_interval_size >= 3], whenever [fit] returns, the input
    was not empty and the result starts with the first input node and ends
    with the last one. *)
Theorem fit_keeps_end_nodes
  (minimize : (R * R -> result R) -> R * R -> R * R) (h : Helix)
  (input res : list Point) :
  (3 <= min_interval_size h)%nat ->
  fit minimize h input = Ok res ->
  input <> []
  /\ hd_error res = hd_error input
  /\ last res origin = last input origin.
Proof.
  intros Hm H.
  destruct (fit_Ok_inv minimize h input res H)
    as (crv & best & Ha & _ & _ & Hacc).
  pose proof (_set_screw_axis_nonempty h input crv Ha) as Hne.
  split; [exact Hne |].
  destruct (fit_accept_inv h crv input best res Hacc)
    as (generated & d & _ & _ & Hin & Hout).
  destruct (Rlt_dec 0.8 d) as [Hlo | Hlo];
    [destruct (Rle_dec d 1.7) as [Hhi | Hhi] |];
    try (rewrite Hout by lra; split; reflexivity).
  rewrite Hin by lra.
  destruct (_set_edges_by_edge_length h input generated) as (E & _ & Hedge).
  rewrite (Hedge Hm).
  assert (P : (1 <= edge_length h)%nat).
  { rewrite E. apply (Nat.div_le_lower_bound _ 2 1); lia. }
  split.
  - destruct input as [| x l]; [congruence |].
    destruct (edge_length h) as [| e]; [lia | reflexivity].
  - rewrite app_assoc, last_app_nonempty
      by (apply lastn_nonempty; assumption).
    now apply last_lastn.
Qed.

Lemma fit_keeps_end_nodes_witness :
  bent_nodes <> []
  /\ hd_error bent_nodes = hd_error bent_nodes
  /\ last bent_nodes origin = last bent_nodes origin.
Proof.
  apply (fit_keeps_end_nodes far_minimize default_helix bent_nodes bent_nodes).
  - cbn. lia.
  - exact fit_far_minimize_bent_nodes.
Defined.

(** ** The controller: helices left alone *)

Lemma fit_chain_loop_short (minimize : (R * R -> result R) -> R * R -> R * R)
  (chain : Chain) :
  Forall short_helix (helices chain) ->
  forall fuel i,
    (length (helices chain) - i <= fuel)%nat ->
    fit_chain_loop minimize fuel chain i = Ok chain.
Proof.
  intros Hshort. induction fuel as [| fuel IH]; intros i Hfuel.
  - apply loop_done. lia.
  - destruct (le_lt_dec (length (helices chain)) i) as [Hdone | Hin].
    + apply loop_done. exact Hdone.
    + destruct (nth_error (helices chain) i) as [[start stop] |] eqn:E.
      * rewrite (loop_skips_short_range minimize fuel chain i start stop E).
        -- apply IH. lia.
        -- apply nth_error_In in E.
           rewrite Forall_forall in Hshort. apply (Hshort _ E).
      * apply nth_error_None in E. lia.
Qed.

Lemma fit_helices_short
  (minimize : (R * R -> result R) -> R * R -> R * R) (fuel : nat)
  (chains : list Chain) :
  Forall (fun chain =>
            Forall (fun helix => (snd helix - fst helix < 10)%Z)
                   (helices chain)
            /\ (length (helices chain) <= fuel)%nat) chains ->
  fit_helices minimize fuel chains = Ok chains.
Proof.
  induction chains as [| chain rest IH]; intros H; [reflexivity |].
  inversion H as [| ? ? [Hshort Hfuel] Hrest]; subst.
  cbn [fit_helices].
  rewrite (fit_chain_loop_short minimize chain Hshort fuel 0) by lia.
  cbn [bind]. rewrite (IH Hrest). reflexivity.
Qed.

(** X19.  [fit_helices] returns the chains as they are when every helix
    range is shorter than 10 nodes: one pass of the loop for each helix entry
    is enough, and more fuel changes nothing. *)
Theorem fit_helices_skips_short_helices
  (minimize : (R * R -> result R) -> R * R -> R * R) (fuel : nat)
  (chains : list Chain) :
  Forall (fun chain =>
            Forall (fun helix => (snd helix - fst helix < 10)%Z)
                   (helices chain)
            /\ (length (helices chain) <= fuel)%nat) chains ->
  fit_helices minimize fuel chains = Ok chains
  /\ forall fuel',
       (fuel <= fuel')%nat -> fit_helices minimize fuel' chains = Ok chains.
Proof.
  intros H. split; [now apply fit_helices_short |].
  intros fuel' Hle. apply fit_helices_short.
  eapply Forall_impl; [| exact H]. intros chain [Hs Hl]. split; [exact Hs | lia].
Qed.

Lemma fit_helices_skips_short_helices_witness :
  fit_helices far_minimize 1 [three_node_chain; mkChain [] [] []]
  = Ok [three_node_chain; mkChain [] [] []]
  /\ forall fuel',
       (1 <= fuel')%nat ->
       fit_helices far_minimize fuel' [three_node_chain; mkChain [] [] []]
       = Ok [three_node_chain; mkChain [] [] []].
Proof.
  apply fit_helices_skips_short_helices.
  repeat constructor; cbn; lia.
Defined.

(** ** The controller: ranges after a helix has been replaced *)

Lemma slice_bound_nonneg (len : nat) (a : Z) :
  (0 <= a)%Z -> slice_bound len a = Nat.min (Z.to_nat a) len.
Proof.
  intros H. unfold slice_bound.
  destruct (Z.ltb_spec a 0); lia.
Qed.

Lemma firstn_min_length {A : Type} (k : nat) (l : list A) :
  firstn (Nat.min k (length l)) l = firstn k l.
Proof.
  destruct (le_lt_dec k (length l)).
  - now rewrite Nat.min_l.
  - rewrite Nat.min_r by lia. now rewrite firstn_all, firstn_all2 by lia.
Qed.

Lemma py_slice_nat {A : Type} (l : list A) (a b : Z) :
  (0 <= a)%Z -> (0 <= b)%Z ->
  py_slice l a b = firstn (Z.to_nat b - Z.to_nat a) (skipn (Z.to_nat a) l).
Proof.
  intros Ha Hb. unfold py_slice. rewrite !slice_bound_nonneg by assumption.
  destruct (le_lt_dec (Z.to_nat a) (length l)) as [Hin | Hout].
  - rewrite (Nat.min_l (Z.to_nat a)) by lia.
    rewrite <- (firstn_min_length (Z.to_nat b - Z.to_nat a)).
    rewrite length_skipn. f_equal. lia.
  - rewrite (Nat.min_r (Z.to_nat a)) by lia.
    rewrite skipn_all, (skipn_all2 l) by lia. now rewrite !firstn_nil.
Qed.

Lemma py_slice_assign_nat {A : Type} (l new : list A) (a b : Z) :
  (0 <= a <= b)%Z -> (b <= Z.of_nat (length l))%Z ->
  py_slice_assign l a b new
  = firstn (Z.to_nat a) l ++ new ++ skipn (Z.to_nat b) l.
Proof.
  intros Ha Hb. unfold py_slice_assign.
  rewrite !slice_bound_nonneg by lia.
  rewrite !Nat.min_l by lia. now rewrite Nat.max_r by lia.
Qed.

Lemma skipn_app_exact {A : Type} (a b : list A) (k : nat) :
  skipn (length a + k) (a ++ b) = skipn k b.
Proof.
  rewrite skipn_app, skipn_all2 by lia. cbn [app]. f_equal. lia.
Qed.

(** X20.  After [chain.nodes[helix_start:helix_end] = helix.nodes], with
    [diff] the change of length: the range of the helix itself, moved as
    [update_sec_structure] moves it, covers exactly the new helix nodes; a
    range behind the helix, moved, covers the nodes it covered before; a
    range before the helix is not moved and covers the same nodes. *)
Theorem rebased_ranges_keep_their_nodes (chain_nodes helix_nodes : list Point)
  (helix_start helix_end : Z) :
  (0 <= helix_start < helix_end)%Z ->
  (helix_end <= Z.of_nat (length chain_nodes))%Z ->
  let nodes' :=
    py_slice_assign chain_nodes helix_start helix_end helix_nodes in
  let diff := (Z.of_nat (length nodes') - Z.of_nat (length chain_nodes))%Z in
  let moved := update_range helix_start diff in
  diff = (Z.of_nat (length helix_nodes) - (helix_end - helix_start))%Z
  /\ py_slice nodes' (fst (moved (helix_start, helix_end)))
       (snd (moved (helix_start, helix_end))) = helix_nodes
  /\ (forall a b,
        (helix_end <= a <= b)%Z ->
        py_slice nodes' (fst (moved (a, b))) (snd (moved (a, b)))
        = py_slice chain_nodes a b)
  /\ (forall a b,
        (0 <= a <= b)%Z -> (b <= helix_start)%Z ->
        py_slice nodes' (fst (moved (a, b))) (snd (moved (a, b)))
        = py_slice chain_nodes a b).
Proof.
  intros Hs He nodes' diff moved.
  assert (E' : nodes' = firstn (Z.to_nat helix_start) chain_nodes
                        ++ helix_nodes
                        ++ skipn (Z.to_nat helix_end) chain_nodes).
  { unfold nodes'. apply py_slice_assign_nat; lia. }
  assert (Hf : length (firstn (Z.to_nat helix_start) chain_nodes)
               = Z.to_nat helix_start)
    by (rewrite length_firstn; lia).
  assert (Hd : diff
               = (Z.of_nat (length helix_nodes) - (helix_end - helix_start))%Z).
  { unfold diff. rewrite E', !length_app, Hf, length_skipn. lia. }
  split; [exact Hd |].
  assert (M : forall a b,
             moved (a, b)
             = ((if Z_lt_dec helix_start a then a + diff else a)%Z,
                (if Z_lt_dec helix_start b then b + diff else b)%Z))
    by (intros; apply update_range_spec).
  split; [| split].
  - rewrite M. cbn [fst snd].
    destruct (Z_lt_dec helix_start helix_start) as [? | _]; [lia |].
    destruct (Z_lt_dec helix_start helix_end) as [_ | ?]; [| lia].
    rewrite py_slice_nat by lia. rewrite E'.
    rewrite <- Hf at 2. rewrite <- (Nat.add_0_r (length (firstn _ _))).
    rewrite skipn_app_exact. cbn [skipn].
    replace (Z.to_nat (helix_end + diff) - Z.to_nat helix_start)%nat
      with (length helix_nodes + 0)%nat by lia.
    rewrite firstn_app_2. cbn [firstn]. apply app_nil_r.
  - intros a b Hab. rewrite M. cbn [fst snd].
    destruct (Z_lt_dec helix_start a) as [_ | ?]; [| lia].
    destruct (Z_lt_dec helix_start b) as [_ | ?]; [| lia].
    rewrite !py_slice_nat by lia. rewrite E'.
    replace (Z.to_nat (b + diff) - Z.to_nat (a + diff))%nat
      with (Z.to_nat b - Z.to_nat a)%nat by lia.
    f_equal.
    replace (Z.to_nat (a + diff))
      with (length (firstn (Z.to_nat helix_start) chain_nodes)
            + (length helix_nodes + (Z.to_nat a - Z.to_nat helix_end)))%nat
      by lia.
    rewrite skipn_app_exact, skipn_app_exact, skipn_skipn. f_equal. lia.
  - intros a b Hab Hb. rewrite M. cbn [fst snd].
    destruct (Z_lt_dec helix_start a) as [? | _]; [lia |].
    destruct (Z_lt_dec helix_start b) as [? | _]; [lia |].
    rewrite !py_slice_nat by lia. rewrite E'.
    rewrite skipn_app, firstn_app.
    replace (Z.to_nat b - Z.to_nat a
             - length (skipn (Z.to_nat a)
                         (firstn (Z.to_nat helix_start) chain_nodes)))%nat
      with 0%nat by (rewrite length_skipn, Hf; lia).
    cbn [firstn]. rewrite app_nil_r.
    rewrite skipn_firstn_comm, firstn_firstn. f_equal. lia.
Qed.

Lemma rebased_ranges_keep_their_nodes_witness :
  let nodes' := py_slice_assign [origin; origin; origin] 0 2 [origin] in
  let diff := (Z.of_nat (length nodes') - Z.of_nat 3)%Z in
  let moved := update_range 0 diff in
  diff = (Z.of_nat 1 - (2 - 0))%Z
  /\ py_slice nodes' (fst (moved (0, 2)%Z)) (snd (moved (0, 2)%Z)) = [origin]
  /\ (forall a b,
        (2 <= a <= b)%Z ->
        py_slice nodes' (fst (moved (a, b))) (snd (moved (a, b)))
        = py_slice [origin; origin; origin] a b)
  /\ (forall a b,
        (0 <= a <= b)%Z -> (b <= 0)%Z ->
        py_slice nodes' (fst (moved (a, b))) (snd (moved (a, b)))
        = py_slice [origin; origin; origin] a b).
Proof.
  apply (rebased_ranges_keep_their_nodes [origin; origin; origin] [origin] 0 2);
    cbn; lia.
Defined.

(** ** The controller: ranges that reach beyond the nodes *)

(** X21.  A helix entry of 10 or more indices that starts fewer than 3
    nodes before the end of the chain makes the controller raise
    [IndexError]: the slice handed to [fit] is too short for a centroid, and
    only [CurvedScrewAxisError] is caught. *)
Theorem fit_chain_loop_raises_beyond_nodes
  (minimize : (R * R -> result R) -> R * R -> R * R) (fuel : nat)
  (chain : Chain) (i : nat) (start stop : Z) :
  nth_error (helices chain) i = Some (start, stop) ->
  (10 <= stop - start)%Z ->
  (0 <= start)%Z ->
  (Z.of_nat (length (nodes chain)) < start + 3)%Z ->
  fit_chain_loop minimize (S fuel) chain i = Raise IndexError
  /\ (i = 0%nat ->
      forall rest,
        fit_helices minimize (S fuel) (chain :: rest) = Raise IndexError).
Proof.
  intros E Hlong Hstart Hshort.
  assert (L : fit_chain_loop minimize (S fuel) chain i = Raise IndexError).
  { rewrite (loop_step minimize fuel chain i start stop E).
    destruct (Z.ltb_spec (stop - start) 10) as [? | _]; [lia |].
    assert (F : fit minimize default_helix (py_slice (nodes chain) start stop)
                = Raise IndexError).
    { apply fit_short_input; cbn [default_helix flatten
        min_interval_size interval_size]; try lia.
      rewrite py_slice_nat by lia.
      rewrite length_firstn, length_skipn. lia. }
    rewrite F. reflexivity. }
  split; [exact L |].
  intros -> rest. cbn [fit_helices]. rewrite L. reflexivity.
Qed.

Lemma fit_chain_loop_raises_beyond_nodes_witness :
  fit_chain_loop far_minimize 1
    (mkChain [origin; origin] [] [(0, 10)%Z]) 0 = Raise IndexError
  /\ (0%nat = 0%nat ->
      forall rest,
        fit_helices far_minimize 1
          (mkChain [origin; origin] [] [(0, 10)%Z] :: rest)
        = Raise IndexError).
Proof.
  apply (fit_chain_loop_raises_beyond_nodes far_minimize 0
           (mkChain [origin; origin] [] [(0, 10)%Z]) 0 0 10);
    cbn; try reflexivity; lia.
Defined.

Lemma py_index_outcomes {A : Type} (l : list A) (j : Z) :
  (exists x, py_index l j = Ok x) \/ py_index l j = Raise IndexError.
Proof.
  unfold py_index.
  destruct (_ && _)%bool; [| now right].
  destruct (nth_error l _); [left; eauto | now right].
Qed.

Lemma py_index_beyond {A : Type} (l : list A) (j : Z) :
  (Z.of_nat (length l) <= j)%Z -> py_index l j = Raise IndexError.
Proof.
  intros H. unfold py_index.
  destruct (Z.ltb_spec j 0); [lia |].
  destruct (Z.leb_spec 0 j); destruct (Z.ltb_spec j (Z.of_nat (length l)));
    cbn [andb]; try lia; reflexivity.
Qed.

Lemma closest_node_loop_beyond (node : Point) (chain_nodes : list Point)
  (js : list Z) :
  forall cn md,
    (exists j, In j js /\ (Z.of_nat (length chain_nodes) <= j)%Z) ->
    closest_node_loop node chain_nodes js cn md = Raise IndexError.
Proof.
  induction js as [| j rest IH]; intros cn md (k & Hin & Hk);
    [destruct Hin |].
  cbn [closest_node_loop].
  destruct (py_index_outcomes chain_nodes j) as [[x Hx] | Hx];
    rewrite Hx; cbn [bind]; [| reflexivity].
  destruct Hin as [-> | Hin].
  - rewrite py_index_beyond in Hx by exact Hk. discriminate.
  - destruct md as [m |]; [destruct (Rlt_dec _ m) |];
      apply IH; exists k; auto.
Qed.

Lemma py_range_In (a b j : Z) : (a <= j < b)%Z -> In j (py_range a b).
Proof.
  intros H. unfold py_range. apply in_map_iff.
  exists (Z.to_nat (j - a)). split; [lia |]. apply in_seq. lia.
Qed.

(** X22.  [split_helix_at_node] raises [IndexError] when the range of the
    helix ends beyond the nodes of the chain: the search reads [chain.nodes]
    at every index of the range. *)
Theorem split_helix_at_node_raises_beyond_nodes (node : Point) (chain : Chain)
  (i : nat) (start stop : Z) :
  nth_error (helices chain) i = Some (start, stop) ->
  (start < stop)%Z ->
  (Z.of_nat (length (nodes chain)) < stop)%Z ->
  split_helix_at_node node chain i = Raise IndexError.
Proof.
  intros E Hne Hbeyond. unfold split_helix_at_node.
  rewrite (py_index_nat _ _ _ E). cbn [bind fst snd].
  rewrite closest_node_loop_beyond; [reflexivity |].
  exists (stop - 1)%Z. split; [apply py_range_In |]; lia.
Qed.

Lemma split_helix_at_node_raises_beyond_nodes_witness :
  split_helix_at_node origin (mkChain [origin] [] [(0, 2)%Z]) 0
  = Raise IndexError.
Proof.
  apply (split_helix_at_node_raises_beyond_nodes origin
           (mkChain [origin] [] [(0, 2)%Z]) 0 0 2);
    cbn; try reflexivity; lia.
Defined.

(** ** Coordinates: what three decimals keep *)

Lemma round_half_even_near (x : R) :
  (- (1 / 2) <= IZR (round_half_even x) - x <= 1 / 2)%R.
Proof.
  unfold round_half_even. destruct (base_Int_part x) as [Hlo Hhi].
  set (f := Int_part x) in *.
  destruct (Rlt_dec (x - IZR f) (1 / 2)) as [A | A]; [lra |].
  destruct (Rlt_dec (1 / 2) (x - IZR f)) as [B | B].
  - rewrite plus_IZR. lra.
  - destruct (Z.even f); [| rewrite plus_IZR]; lra.
Qed.

Lemma round_3f_near (x : R) : (Rabs (round_3f x - x) <= 1 / 2000)%R.
Proof.
  unfold round_3f, thousandths.
  pose proof (round_half_even_near (Rabs x * 1000)) as H.
  set (m := IZR (round_half_even (Rabs x * 1000))) in *.
  apply Rabs_le.
  destruct (Rlt_dec x 0) as [Neg | Pos].
  - rewrite (Rabs_left x) in H by exact Neg. lra.
  - rewrite (Rabs_pos_eq x) in H by lra. lra.
Qed.

Lemma thousandths_round_3f (x : R) : thousandths (round_3f x) = thousandths x.
Proof.
  pose proof (thousandths_nonneg x) as Hm. apply IZR_le in Hm.
  apply thousandths_exact. unfold round_3f.
  destruct (Rlt_dec x 0).
  - rewrite Rabs_left1 by lra. field.
  - rewrite Rabs_pos_eq by lra. field.
Qed.

Lemma round_3f_idempotent (x : R) : round_3f (round_3f x) = round_3f x.
Proof.
  pose proof (thousandths_nonneg x) as Hm. apply IZR_le in Hm.
  unfold round_3f at 1. rewrite thousandths_round_3f.
  unfold round_3f. destruct (Rlt_dec x 0).
  - destruct (Rlt_dec (- (IZR (thousandths x) / 1000)) 0); lra.
  - destruct (Rlt_dec (IZR (thousandths x) / 1000) 0); lra.
Qed.

Lemma round_point_idempotent (node : Point) :
  round_point (round_point node) = round_point node.
Proof.
  unfold round_point; cbn [px py pz]. now rewrite !round_3f_idempotent.
Qed.

(** X23.  [parse_node] reads an ATOM record written by [format_node]
    (number up to 9999, coordinate texts of at most 7 characters) as the node
    rounded to three decimals: each coordinate is within 0.0005 of the one
    written, and rounding a second time changes nothing. *)
Theorem parse_node_format_node (node : Point) (n : Z) :
  (0 <= n <= 9999)%Z ->
  node_fits node ->
  parse_node (format_node node "A" n) = Ok (round_point node)
  /\ (Rabs (px (round_point node) - px node) <= 1 / 2000)%R
  /\ (Rabs (py (round_point node) - py node) <= 1 / 2000)%R
  /\ (Rabs (pz (round_point node) - pz node) <= 1 / 2000)%R
  /\ round_point (round_point node) = round_point node.
Proof.
  intros Hn (Hx & Hy & Hz).
  split; [apply (format_node_columns node n Hn Hx Hy Hz) |].
  cbn [round_point px py pz].
  repeat split; try apply round_3f_near. apply round_point_idempotent.
Qed.

Lemma parse_node_format_node_witness :
  parse_node (format_node (mkPoint 1.5 (-2.25) 10) "A" 1)
  = Ok (round_point (mkPoint 1.5 (-2.25) 10))
  /\ (Rabs (px (round_point (mkPoint 1.5 (-2.25) 10))
            - px (mkPoint 1.5 (-2.25) 10)) <= 1 / 2000)%R
  /\ (Rabs (py (round_point (mkPoint 1.5 (-2.25) 10))
            - py (mkPoint 1.5 (-2.25) 10)) <= 1 / 2000)%R
  /\ (Rabs (pz (round_point (mkPoint 1.5 (-2.25) 10))
            - pz (mkPoint 1.5 (-2.25) 10)) <= 1 / 2000)%R
  /\ round_point (round_point (mkPoint 1.5 (-2.25) 10))
     = round_point (mkPoint 1.5 (-2.25) 10).
Proof.
  apply parse_node_format_node; [lia |].
  destruct format_3f_samples as (_ & F1 & F2 & F3 & _).
  unfold node_fits, coordinate_fits; cbn [px py pz].
  rewrite F1, F2, F3. cbn. lia.
Defined.

(** ** Coordinates: a field of eight characters *)

Lemma format_3f_opp (x : R) :
  (x < 0)%R ->
  format_3f x = String "-" (format_3f (- x))
  /\ round_3f (- x) = (- round_3f x)%R.
Proof.
  intros Hx.
  assert (T : thousandths (- x) = thousandths x).
  { unfold thousandths. now rewrite Rabs_Ropp. }
  split.
  - unfold format_3f. rewrite T.
    destruct (Rlt_dec x 0); [| lra]. destruct (Rlt_dec (- x) 0); [lra |].
    reflexivity.
  - unfold round_3f. rewrite T.
    destruct (Rlt_dec x 0); [| lra]. destruct (Rlt_dec (- x) 0); lra.
Qed.

Lemma rjust_full (s : string) (width : nat) :
  (width <= String.length s)%nat -> rjust s width = s.
Proof.
  intros H. unfold rjust.
  now replace (width - String.length s)%nat with 0%nat by lia.
Qed.

Lemma thousandths_zero_text (x : R) :
  thousandths x = 0%Z -> (String.length (format_3f x) <= 6)%nat.
Proof.
  intros H. unfold format_3f. rewrite H.
  destruct (Rlt_dec x 0); cbn; lia.
Qed.

(** X24.  A negative x coordinate whose text fills all 8 characters of
    its field (-100.000 to -999.999) is read back without its sign, as a
    positive number: [parse_node] starts reading one character after the
    start of the field. *)
Theorem parse_node_drops_sign (node : Point) (n : Z) :
  (0 <= n <= 9999)%Z ->
  (px node < 0)%R ->
  String.length (format_3f (px node)) = 8%nat ->
  coordinate_fits (py node) ->
  coordinate_fits (pz node) ->
  parse_node (format_node node "A" n)
  = Ok (mkPoint (- round_3f (px node)) (round_3f (py node))
          (round_3f (pz node)))
  /\ (round_3f (px node) < 0)%R.
Proof.
  intros Hn Hneg Hw Hy Hz.
  destruct (format_3f_opp (px node) Hneg) as (Ex & Rx).
  destruct (index_field n Hn) as (L & _ & _).
  destruct (coordinate_field (py node) Hy) as (fy & Ey & Ly & Py & _).
  destruct (coordinate_field (pz node) Hz) as (fz & Ez & Lz & Pz & _).
  set (fx := format_3f (- px node)) in *.
  assert (Lx : String.length fx = 7%nat).
  { rewrite Ex in Hw. cbn [String.length] in Hw. lia. }
  assert (Px : py_float fx = Ok (- round_3f (px node))%R).
  { rewrite <- Rx. rewrite <- (rjust_full fx 7) by lia.
    apply py_float_format_3f. }
  split.
  - unfold parse_node, format_node.
    rewrite (rjust_full (format_3f (px node)) 8) by lia.
    rewrite Ex, Ey, Ez.
    set (f := rjust (str_Z n) 4) in *.
    set (tail := "  1.00  0.00           C  "%string).
    replace (str_slice _ 31 38) with fx.
    2:{ replace ("ATOM      1  CA  GLY " ++ "A" ++ f ++ "    "
                 ++ String "-" fx ++ String " " fy ++ String " " fz
                 ++ tail ++ newline)%string
          with (("ATOM      1  CA  GLY A" ++ f ++ "    -") ++ fx
                ++ (String " " fy ++ String " " fz ++ tail ++ newline))%string
          by string_assoc.
        rewrite str_slice_at; [reflexivity | | exact Lx].
        rewrite !string_length_app, L. reflexivity. }
    replace (str_slice _ 39 46) with fy.
    2:{ replace ("ATOM      1  CA  GLY " ++ "A" ++ f ++ "    "
                 ++ String "-" fx ++ String " " fy ++ String " " fz
                 ++ tail ++ newline)%string
          with (("ATOM      1  CA  GLY A" ++ f ++ "    -" ++ fx ++ " ") ++ fy
                ++ (String " " fz ++ tail ++ newline))%string
          by string_assoc.
        rewrite str_slice_at; [reflexivity | | exact Ly].
        rewrite !string_length_app, L, Lx. reflexivity. }
    replace (str_slice _ 47 54) with fz.
    2:{ replace ("ATOM      1  CA  GLY " ++ "A" ++ f ++ "    "
                 ++ String "-" fx ++ String " " fy ++ String " " fz
                 ++ tail ++ newline)%string
          with (("ATOM      1  CA  GLY A" ++ f ++ "    -" ++ fx ++ " " ++ fy
                 ++ " ") ++ fz ++ (tail ++ newline))%string
          by string_assoc.
        rewrite str_slice_at; [reflexivity | | exact Lz].
        rewrite !string_length_app, L, Lx, Ly. reflexivity. }
    rewrite Px, Py, Pz. reflexivity.
  - pose proof (thousandths_nonneg (px node)) as Hm.
    assert (Hm0 : thousandths (px node) <> 0%Z).
    { intros Z. apply thousandths_zero_text in Z. lia. }
    assert (Hpos : (0 < IZR (thousandths (px node)))%R)
      by (apply IZR_lt; lia).
    unfold round_3f. destruct (Rlt_dec (px node) 0); lra.
Qed.

Lemma parse_node_drops_sign_witness :
  parse_node (format_node (mkPoint (-100) 0 0) "A" 1)
  = Ok (mkPoint (- round_3f (-100)) (round_3f 0) (round_3f 0))
  /\ (round_3f (-100) < 0)%R.
Proof.
  destruct format_3f_samples as (F0 & _ & _ & _ & F4).
  apply (parse_node_drops_sign (mkPoint (-100) 0 0) 1);
    unfold coordinate_fits; cbn [px py pz];
    rewrite ?F0, ?F4; cbn; try lia; lra.
Defined.

(** ** Reading: how many chains *)







(** ** Reading: records that name nodes not read yet *)

Lemma parse_helix_loop_beyond (chains : list Chain) :
  forall data i,
    (file_rows chains <= snd data)%Z ->
    snd (parse_helix_loop chains data i) = (i + length chains)%nat.
Proof.
  induction chains as [| chain rest IH]; intros data i H.
  - cbn. lia.
  - cbn [parse_helix_loop file_rows length] in *.
    pose proof (file_rows_nonneg rest).
    destruct (Z.leb_spec (snd data) (Z.of_nat (length (nodes chain))));
      [lia |].
    rewrite IH by (cbn [snd]; lia). lia.
Qed.

Lemma parse_sheet_loop_beyond (chains : list Chain) :
  forall data i,
    (file_rows chains - 1 <= snd data)%Z ->
    snd (parse_sheet_loop chains data i) = (i + length chains)%nat.
Proof.
  induction chains as [| chain rest IH]; intros data i H.
  - cbn. lia.
  - cbn [parse_sheet_loop file_rows length] in *.
    pose proof (file_rows_nonneg rest).
    destruct (Z.ltb_spec (snd data) (Z.of_nat (length (nodes chain))));
      [lia |].
    rewrite IH by (cbn [snd]; lia). lia.
Qed.

Lemma change_chain_beyond (chains : list Chain) (i : nat)
  (change : Chain -> Chain) :
  (length chains <= i)%nat -> change_chain chains i change = Raise IndexError.
Proof.
  intros H. unfold change_chain.
  now rewrite (proj2 (nth_error_None chains i) H).
Qed.

(** X26.  A HELIX record whose end is not below the number of rows read
    so far, or a SHEET record whose end is the last row read or beyond it,
    makes the reader raise [IndexError]: the chain index found lies behind
    the last chain, and only [ValueError] is caught.  In particular a file
    that starts with such a record is not read. *)
Theorem read_pdb_record_before_its_nodes (chains : list Chain) (a b : Z)
  (rest : string) :
  (0 <= a + 1 <= 9999)%Z ->
  (b <= 9999)%Z ->
  ((file_rows chains <= b)%Z ->
   read_line chains (format_helix_info "A" a b) = Raise IndexError)
  /\ ((file_rows chains - 1 <= b)%Z -> (b + 1 <= 9999)%Z ->
      read_line chains (format_sheet_info "A" a b) = Raise IndexError)
  /\ ((1 <= b)%Z ->
      read_pdb (format_helix_info "A" a b ++ rest) = Raise IndexError)
  /\ ((0 <= b)%Z -> (b + 1 <= 9999)%Z ->
      read_pdb (format_sheet_info "A" a b ++ rest) = Raise IndexError).
Proof.
  intros Ha Hb.
  assert (Hh : forall cs, (file_rows cs <= b)%Z ->
                 read_line cs (format_helix_info "A" a b) = Raise IndexError).
  { intros cs H. pose proof (file_rows_nonneg cs).
    rewrite read_line_helix by lia.
    apply change_chain_beyond. rewrite parse_helix_loop_beyond; cbn [snd]; lia. }
  assert (Hs : forall cs, (file_rows cs - 1 <= b)%Z -> (b + 1 <= 9999)%Z ->
                 read_line cs (format_sheet_info "A" a b) = Raise IndexError).
  { intros cs H H'. pose proof (file_rows_nonneg cs).
    rewrite read_line_sheet by lia.
    apply change_chain_beyond. rewrite parse_sheet_loop_beyond; cbn [snd]; lia. }
  split; [apply Hh |]. split; [apply Hs |]. split.
  - intros H1. unfold read_pdb.
    destruct (format_helix_info_columns a b Ha ltac:(lia))
      as (_ & _ & _ & _ & Hrec).
    rewrite py_lines_line by now apply record_is_line.
    cbn [read_lines]. rewrite Hh by (cbn; lia). reflexivity.
  - intros H0 H1. unfold read_pdb.
    destruct (format_sheet_info_columns a b Ha ltac:(lia))
      as (_ & _ & _ & _ & Hrec).
    rewrite py_lines_line by now apply record_is_line.
    cbn [read_lines]. rewrite Hs by (cbn; lia). reflexivity.
Qed.

Lemma read_pdb_record_before_its_nodes_witness :
  ((file_rows [mkChain [] [] []] <= 5)%Z ->
   read_line [mkChain [] [] []] (format_helix_info "A" 0 5)
   = Raise IndexError)
  /\ ((file_rows [mkChain [] [] []] - 1 <= 5)%Z -> (5 + 1 <= 9999)%Z ->
      read_line [mkChain [] [] []] (format_sheet_info "A" 0 5)
      = Raise IndexError)
  /\ ((1 <= 5)%Z ->
      read_pdb (format_helix_info "A" 0 5 ++ "") = Raise IndexError)
  /\ ((0 <= 5)%Z -> (5 + 1 <= 9999)%Z ->
      read_pdb (format_sheet_info "A" 0 5 ++ "") = Raise IndexError).
Proof.
  apply (read_pdb_record_before_its_nodes [mkChain [] [] []] 0 5 ""); lia.
Defined.

(** ** Reading: a truncated ATOM record *)

Lemma substring_beyond (s : string) :
  forall n m, (String.length s <= n)%nat -> substring n m s = EmptyString.
Proof.
  induction s as [| ch s IH]; intros n m H.
  - destruct n, m; reflexivity.
  - destruct n as [| n]; [cbn in H; lia |].
    cbn [substring]. apply IH. cbn in H. lia.
Qed.

(** X27.  An ATOM line of at most 31 characters has no x field:
    [parse_node] raises [ValueError], which [read_pdb] catches; the line adds
    no node, and opens a new chain only if it contains [TER]. *)
Theorem read_line_skips_truncated_atom (chains : list Chain) (line : string) :
  str_slice line 0 4 = "ATOM"%string ->
  (String.length line <= 31)%nat ->
  parse_node line = Raise ValueError
  /\ read_line chains line
     = Ok (if contains "TER" line then chains ++ [mkChain [] [] []]
           else chains).
Proof.
  intros Hhead Hlen.
  assert (P : parse_node line = Raise ValueError).
  { unfold parse_node, str_slice.
    rewrite (substring_beyond line 31) by exact Hlen. reflexivity. }
  split; [exact P |].
  unfold read_line, read_record. rewrite Hhead, P.
  simpl String.eqb. cbn [bind]. reflexivity.
Qed.

Lemma read_line_skips_truncated_atom_witness :
  parse_node "ATOM      1  CA  GLY A   1" = Raise ValueError
  /\ read_line [mkChain [] [] []] "ATOM      1  CA  GLY A   1"
     = Ok (if contains "TER" "ATOM      1  CA  GLY A   1"
           then [mkChain [] [] []] ++ [mkChain [] [] []]
           else [mkChain [] [] []]).
Proof.
  apply read_line_skips_truncated_atom; [reflexivity | cbn; lia].
Defined.

(** ** Writing and reading again *)

Lemma round_3f_sign (x : R) : (round_3f x < 0)%R -> (x < 0)%R.
Proof.
  pose proof (thousandths_nonneg x) as Hm. apply IZR_le in Hm.
  unfold round_3f. destruct (Rlt_dec x 0); [easy | lra].
Qed.

Lemma format_3f_round_3f_length (x : R) :
  (String.length (format_3f (round_3f x)) <= String.length (format_3f x))%nat.
Proof.
  unfold format_3f. rewrite thousandths_round_3f.
  rewrite !string_length_app.
  destruct (Rlt_dec (round_3f x) 0) as [N | _].
  - apply round_3f_sign in N. destruct (Rlt_dec x 0); [lia | lra].
  - cbn [String.length]. lia.
Qed.

Lemma as_read_writable (chain : Chain) :
  chain_writable chain -> chain_writable (as_read chain).
Proof.
  intros (Hn & Hh & Hs). unfold chain_writable, as_read.
  cbn [nodes helices sheets]. rewrite length_map.
  split; [| split; assumption].
  apply Forall_map. eapply Forall_impl; [| exact Hn].
  intros node (Hx & Hy & Hz). unfold node_fits, coordinate_fits in *.
  cbn [round_point px py pz].
  pose proof (format_3f_round_3f_length (px node)).
  pose proof (format_3f_round_3f_length (py node)).
  pose proof (format_3f_round_3f_length (pz node)).
  repeat split; lia.
Qed.

Lemma as_read_idempotent (chain : Chain) :
  as_read (as_read chain) = as_read chain.
Proof.
  unfold as_read. cbn [nodes helices sheets]. f_equal.
  rewrite map_map. apply map_ext. apply round_point_idempotent.
Qed.

Lemma empty_chain_writable : chain_writable (mkChain [] [] []).
Proof. repeat split; constructor. Qed.

Lemma once_read_writable (chains : list Chain) :
  Forall chain_writable chains ->
  Forall chain_writable (map as_read chains ++ [mkChain [] [] []])
  /\ file_rows (map as_read chains ++ [mkChain [] [] []])
     = (file_rows chains + 1)%Z
  /\ map as_read (map as_read chains ++ [mkChain [] [] []])
     = map as_read chains ++ [mkChain [] [] []].
Proof.
  intros W. split; [| split].
  - apply Forall_app. split.
    + apply Forall_map. eapply Forall_impl; [| exact W].
      apply as_read_writable.
    + constructor; [apply empty_chain_writable | constructor].
  - rewrite file_rows_app, file_rows_map_read.
    + cbn. lia.
    + intros c. unfold as_read. cbn [nodes]. apply length_map.
  - rewrite map_app, map_map. f_equal.
    apply map_ext. apply as_read_idempotent.
Qed.

(** X28.  Writing chains and reading the text gives the chains at three
    decimals followed by one empty chain; writing and reading that result
    again gives it back unchanged, followed by one more empty chain. *)
Theorem write_read_twice (chains : list Chain) :
  Forall chain_writable chains ->
  (file_rows chains + 1 <= 9999)%Z ->
  let once := map as_read chains ++ [mkChain [] [] []] in
  read_pdb (write_pdb chains) = Ok once
  /\ read_pdb (write_pdb once) = Ok (once ++ [mkChain [] [] []]).
Proof.
  intros W R once.
  destruct (once_read_writable chains W) as (W1 & R1 & I1).
  split.
  - apply write_pdb_read_pdb; [exact W | lia].
  - unfold once. rewrite write_pdb_read_pdb; [| exact W1 | lia].
    now rewrite I1.
Qed.

Lemma write_read_twice_witness :
  let once := map as_read sample_chains ++ [mkChain [] [] []] in
  read_pdb (write_pdb sample_chains) = Ok once
  /\ read_pdb (write_pdb once) = Ok (once ++ [mkChain [] [] []]).
Proof.
  destruct sample_chains_writable as (W & R).
  apply (write_read_twice sample_chains W).
  cbn. lia.
Defined.

(** ** Entry points: paths and files *)

Lemma dict_get_set_same (d : Dict) (key value : string) :
  dict_get (dict_set d key value) key = Some value.
Proof.
  induction d as [| [k v] d IH]; cbn [dict_set dict_get].
  - now rewrite String.eqb_refl.
  - destruct (String.eqb k key) eqn:E; cbn [dict_get]; rewrite E;
      [reflexivity | exact IH].
Qed.

Lemma dict_get_set_other (d : Dict) (key value other : string) :
  other <> key ->
  dict_get (dict_set d key value) other = dict_get d other.
Proof.
  intros Hne. induction d as [| [k v] d IH]; cbn [dict_set dict_get].
  - destruct (String.eqb_spec key other); [congruence | reflexivity].
  - destruct (String.eqb_spec k key) as [-> | Hk]; cbn [dict_get].
    + destruct (String.eqb_spec key other); [congruence | reflexivity].
    + now rewrite IH.
Qed.

Lemma dict_set_twice (d : Dict) (key value : string) :
  dict_set (dict_set d key value) key value = dict_set d key value.
Proof.
  induction d as [| [k v] d IH]; cbn [dict_set].
  - now rewrite String.eqb_refl.
  - destruct (String.eqb k key) eqn:E; cbn [dict_set]; rewrite E;
      [reflexivity | now rewrite IH].
Qed.

Lemma dict_set_keys (d : Dict) (key value : string) :
  dict_get d key <> None ->
  map fst (dict_set d key value) = map fst d.
Proof.
  induction d as [| [k v] d IH]; cbn [dict_set dict_get map fst];
    [congruence |].
  destruct (String.eqb k key); cbn [map fst]; [reflexivity |].
  intros H. now rewrite IH.
Qed.

(** X29.  [update_paths] raises [KeyError] when [paths] has no entry
    [output]; otherwise it sets [traces_refined] to the text of [output]
    followed by [traces_refined.pdb], leaves every other key as it was, and a
    second call changes nothing. *)
Theorem update_paths_sets_refined_path (paths : Dict) :
  (dict_get paths "output" = None -> update_paths paths = KeyError "output")
  /\ (forall output,
        dict_get paths "output" = Some output ->
        exists paths',
          update_paths paths = Returned paths'
          /\ dict_get paths' "traces_refined"
             = Some (output ++ "traces_refined.pdb")%string
          /\ (forall key,
                key <> "traces_refined"%string ->
                dict_get paths' key = dict_get paths key)
          /\ update_paths paths' = Returned paths').
Proof.
  unfold update_paths, lookup. split.
  - intros ->. reflexivity.
  - intros output H. rewrite H. cbn [run_bind].
    eexists. split; [reflexivity |].
    split; [apply dict_get_set_same |].
    split; [intros key Hk; now apply dict_get_set_other |].
    rewrite dict_get_set_other by discriminate.
    rewrite H. cbn [run_bind]. now rewrite dict_set_twice.
Qed.



